(** * AutoFormalization: the concept graph, the synthesis scheduler and the
      knowledge base

    A shallow embedding of the control structure of the Formalizer package
    (modules/data_structures.py, modules/knowledge_base.py,
    stage1_planner.py, stage2_synthesizer.py, stage3_alignment.py, main.py).

    Conventions of the embedding:
    - Python [str] is [string]; the text is taken to be ASCII, so that
      [str.lower], [str.strip] and the regular expression class [\s] are the
      functions on bytes defined below.
    - Python objects with identity (ConceptNode) live in an arena: the list
      [nodes] of a graph, a node being addressed by its index.  The random
      [uuid4] identifier of a node is its index, which is fresh at creation.
    - A [dict] used as a map is a [gmap], a [set] is a [gset].
    - The reasoning capability, the reference search, the compiler and the
      JSON decoder are records of functions: the code only consumes them.
    - Loops that the source does not bound ([while queue], recursion over a
      graph) take fuel and return [None]/[Raise] when it runs out. *)

From Stdlib Require Import String Ascii.
From stdpp Require Import base option list gmap strings fin_maps fin_sets.

#[local] Set Warnings "-clear-no-such-hyp".

Open Scope string_scope.
Open Scope list_scope.

(** [simpl] may unfold the concatenation of strings on a constructor. *)
#[local] Arguments String.append !_ _ : simpl nomatch.

(** ** Python string primitives *)

(** [str.isspace] on one ASCII character, which is also the class [\s] of
    [re] on [str] patterns: TAB, LF, VT, FF, CR, FS, GS, RS, US, SPACE. *)
Definition is_space (c : ascii) : bool :=
  let n := nat_of_ascii c in
  (((9 <=? n) && (n <=? 13)) || ((28 <=? n) && (n <=? 32)))%nat.

Definition lower_char (c : ascii) : ascii :=
  let n := nat_of_ascii c in
  if ((65 <=? n) && (n <=? 90))%nat then ascii_of_nat (n + 32) else c.

(** [s.lower()] *)
Fixpoint lower (s : string) : string :=
  match s with
  | EmptyString => EmptyString
  | String c r => String (lower_char c) (lower r)
  end.

(** [s.lstrip()] *)
Fixpoint lstrip (s : string) : string :=
  match s with
  | EmptyString => EmptyString
  | String c r => if is_space c then lstrip r else s
  end.

(** [s.rstrip()] *)
Fixpoint rstrip (s : string) : string :=
  match s with
  | EmptyString => EmptyString
  | String c r =>
      match rstrip r with
      | EmptyString => if is_space c then EmptyString else String c EmptyString
      | r' => String c r'
      end
  end.

(** [s.strip()] *)
Definition strip (s : string) : string := rstrip (lstrip s).

(** [re.sub(r"\s+", " ", s)]: every maximal run of white space becomes one
    space.  [in_run] tells that the previous character was white space. *)
Fixpoint collapse_ws_from (in_run : bool) (s : string) : string :=
  match s with
  | EmptyString => EmptyString
  | String c r =>
      if is_space c
      then (if in_run then collapse_ws_from true r
            else String " " (collapse_ws_from true r))
      else String c (collapse_ws_from false r)
  end.

Definition collapse_ws (s : string) : string := collapse_ws_from false s.

(** [not s]: the empty string is falsy. *)
Definition is_empty (s : string) : bool :=
  match s with EmptyString => true | _ => false end.

(** [sub in s] *)
Fixpoint contains (sub s : string) : bool :=
  String.prefix sub s ||
  match s with
  | EmptyString => false
  | String _ r => contains sub r
  end.

(** [s.split("\n")], also the lines that [^] and [$] delimit under
    [re.MULTILINE]. *)
Fixpoint split_nl (s : string) : list string :=
  match s with
  | EmptyString => [EmptyString]
  | String c r =>
      if Ascii.eqb c "010" then EmptyString :: split_nl r
      else match split_nl r with
           | [] => [String c EmptyString]
           | l :: ls => String c l :: ls
           end
  end.

(** The line boundaries of [str.splitlines] in ASCII: LF, VT, FF, CR, FS,
    GS, RS (CR LF counts once). *)
Definition is_linebreak (c : ascii) : bool :=
  let n := nat_of_ascii c in
  (((10 <=? n) && (n <=? 13)) || ((28 <=? n) && (n <=? 30)))%nat.

(** [s.splitlines()]: no empty last line after a final boundary. *)
Fixpoint splitlines (s : string) : list string :=
  match s with
  | EmptyString => []
  | String c r =>
      if is_linebreak c then
        match r with
        | String c' r' =>
            if Ascii.eqb c "013" && Ascii.eqb c' "010"
            then EmptyString :: splitlines r'
            else EmptyString :: splitlines r
        | EmptyString => [EmptyString]
        end
      else match splitlines r with
           | [] => [String c EmptyString]
           | l :: ls => String c l :: ls
           end
  end.

(** [name.lower().strip()], the key of the graph's name index. *)
Definition lower_strip (s : string) : string := strip (lower s).

(** [len(l) != 0] *)
Definition nonempty {A} (l : list A) : bool :=
  match l with [] => false | _ => true end.

(** ** modules/data_structures.py *)

Inductive NodeStatus := TO_EXPAND | GROUNDED | TO_SYNTHESIZE.

Global Instance NodeStatus_eq_dec : EqDecision NodeStatus.
Proof. solve_decision. Defined.

(** The value of [grounded_definition].  The attribute is declared
    [list[str]] and the planner only stores lists; the synthesizer also
    compares it with the string ["VerifiedKB"], so both shapes are kept. *)
Inductive grounded_def :=
  | DefList (l : list string)
  | DefStr (s : string).

(** class ConceptNode.  A node refers to other nodes by their index in the
    arena of the graph. *)
Record ConceptNode := mkNode {
  id : nat;
  name : string;
  status : NodeStatus;
  dependencies : list nat;
  parent : option nat;
  grounded_definition : grounded_def
}.

(** [ConceptNode.__init__] *)
Definition ConceptNode_init (new_id : nat) (nm : string) (par : option nat)
  : ConceptNode :=
  {| id := new_id; name := strip nm; status := TO_EXPAND;
     dependencies := []; parent := par; grounded_definition := DefList [] |}.

Definition set_status (s : NodeStatus) (n : ConceptNode) : ConceptNode :=
  {| id := id n; name := name n; status := s;
     dependencies := dependencies n; parent := parent n;
     grounded_definition := grounded_definition n |}.

Definition set_grounded_definition (d : grounded_def) (n : ConceptNode)
  : ConceptNode :=
  {| id := id n; name := name n; status := status n;
     dependencies := dependencies n; parent := parent n;
     grounded_definition := d |}.

(** [node.dependencies.append(dep)] *)
Definition append_dependency (dep : nat) (n : ConceptNode) : ConceptNode :=
  {| id := id n; name := name n; status := status n;
     dependencies := dependencies n ++ [dep]; parent := parent n;
     grounded_definition := grounded_definition n |}.

(** class ConceptualGraph: [nodes] is the arena (the dict from id to node),
    [_nodes_by_name] the name index. *)
Record ConceptualGraph := mkGraph {
  root : nat;
  nodes : list ConceptNode;
  _nodes_by_name : gmap string nat
}.

(** [ConceptualGraph.__init__] *)
Definition ConceptualGraph_init (root_name : string) : ConceptualGraph :=
  let r := ConceptNode_init 0 root_name None in
  {| root := 0; nodes := [r];
     _nodes_by_name := {[ lower_strip (name r) := 0 ]} |}.

(** [ConceptualGraph.add_node]: returns the new node and the updated
    graph. *)
Definition add_node (g : ConceptualGraph) (nm : string) (par : nat)
  : nat * ConceptualGraph :=
  let new_node := ConceptNode_init (length (nodes g)) nm (Some par) in
  let nodes1 := alter (append_dependency (id new_node)) par (nodes g) in
  let nodes2 := nodes1 ++ [new_node] in
  (id new_node,
   {| root := root g; nodes := nodes2;
      _nodes_by_name :=
        <[ lower_strip (name new_node) := id new_node ]> (_nodes_by_name g) |}).

(** [ConceptualGraph.find_node_by_name] *)
Definition find_node_by_name (g : ConceptualGraph) (nm : string) : option nat :=
  _nodes_by_name g !! lower_strip nm.

(** The inner function [post_order_traverse] of [get_build_order], on the
    pair [(visited, build_order)] it closes over.  [fuel] bounds the depth
    of the recursion. *)
Fixpoint post_order_traverse (fuel : nat) (arena : list ConceptNode)
    (node : nat) (st : gset nat * list nat) : option (gset nat * list nat) :=
  match fuel with
  | 0 => None
  | S fuel' =>
      if bool_decide (node ∈ st.1) then Some st
      else
        match arena !! node with
        | None => None
        | Some n =>
            let st1 := ({[ node ]} ∪ st.1, st.2) in
            match foldl (λ acc dep,
                           acc ≫= post_order_traverse fuel' arena dep)
                        (Some st1) (dependencies n) with
            | Some st2 => Some (st2.1, st2.2 ++ [node])
            | None => None
            end
        end
  end.

(** [ConceptualGraph.get_build_order].  [room] is the number of nested
    calls that the interpreter still allows when the traversal starts (its
    recursion limit, less the frames in use); [None] is the
    [RecursionError] of a traversal that needs more. *)
Definition get_build_order (room : nat) (g : ConceptualGraph)
  : option (list nat) :=
  snd <$> post_order_traverse room (nodes g) (root g) (∅, []).

(** ** The consumed capabilities *)

(** A decoded JSON value. *)
#[warnings="-register-all"]
Inductive json :=
  | JNull
  | JBool (b : bool)
  | JNum (z : Z)
  | JStr (s : string)
  | JArr (l : list json)
  | JObj (fields : list (string * json)).

(** [d.get(key, default)] on a decoded object. *)
Fixpoint dict_get (fields : list (string * json)) (key : string) (default : json)
  : json :=
  match fields with
  | [] => default
  | (k, v) :: rest => if String.eqb k key then v else dict_get rest key default
  end.

Definition is_level (lvl : string) (j : json) : bool :=
  match j with JStr s => String.eqb s lvl | _ => false end.

Record LeanSearchResult := mkSearchResult {
  full_lean_name : string;
  informal_description : option string
}.

Record GroundingResult := mkGrounding {
  is_found : bool;
  definitions : list string
}.

Record LeanCompilationResult := mkCompilation {
  comp_status : string;
  error_message : option string
}.

(** One call of a worker: node name, worker index, attempt index.  The
    reasoning capability is stochastic, so the calls a worker makes carry
    the place they are made from. *)
Record call_site := mkCall {
  call_node : string;
  call_worker : nat;
  call_attempt : nat
}.

(** class LLMModules, the reasoning capability.  [_call_llm_api] catches
    every exception and answers the empty string, so no method raises. *)
Record LLMModules := mkLLM {
  run_expansion_module : string → option string → list string;
  run_grounding_reasoner :
    string → list LeanSearchResult → option string → GroundingResult;
  run_synthesis_module : call_site → string → string → option string → string;
  run_reflection_module :
    call_site → string → string → string → string → string;
  run_back_translation : option call_site → string → string → string → string;
  run_merge_back_translations : gmap string string → string;
  run_semantic_check :
    option call_site → string → string → option string → string
}.

(** [json.loads]: [None] is [JSONDecodeError]. *)
Definition json_decoder := string → option json.

(** ** stage1_planner.py *)

(** An entry of the knowledge base, a JSON object: ["code"], when present,
    is a string and ["deps"], when present, a list of strings, as
    [save_verified_nodes] writes them. *)
Record kb_entry := mkEntry {
  kb_code : option string;
  kb_deps : option (list string)
}.

Global Instance kb_entry_eq_dec : EqDecision kb_entry.
Proof. solve_decision. Defined.

(** class GoTPlanner *)
Record GoTPlanner := mkPlanner {
  planner_llm : LLMModules;
  lean_search : string → list LeanSearchResult;
  planner_verified_kb : gmap string kb_entry
}.

(** [GoTPlanner.__init__]: the knowledge base is not loaded. *)
Definition GoTPlanner_init (llm : LLMModules)
    (search : string → list LeanSearchResult) : GoTPlanner :=
  {| planner_llm := llm; lean_search := search; planner_verified_kb := ∅ |}.

(** The local state of [GoTPlanner.run]. *)
Record planner_state := mkPlannerState {
  graph : ConceptualGraph;
  queue : list nat;
  queue_log : gset string
}.

Definition set_nodes (g : ConceptualGraph) (l : list ConceptNode)
  : ConceptualGraph :=
  {| root := root g; nodes := l; _nodes_by_name := _nodes_by_name g |}.

Definition node_name (g : ConceptualGraph) (i : nat) : string :=
  from_option name EmptyString (nodes g !! i).

Definition node_dependencies (g : ConceptualGraph) (i : nat) : list nat :=
  from_option dependencies [] (nodes g !! i).

(** The body of the two [for name in dependency_names] loops of [run]; for
    the root ([check_self_loop = false], lines 59-76) the test on a self
    loop is absent, for a queued node (lines 148-169) it is present. *)
Definition link_dependency (check_self_loop : bool) (current : nat)
    (st : planner_state) (nm : string) : planner_state :=
  let name_key := lower_strip nm in
  if is_empty name_key then st
  else
    match find_node_by_name (graph st) name_key with
    | Some existing =>
        if check_self_loop && bool_decide (existing = current) then st
        else if bool_decide (existing ∈ node_dependencies (graph st) current)
        then st
        else
          {| graph := set_nodes (graph st)
                        (alter (append_dependency existing) current
                               (nodes (graph st)));
             queue := queue st; queue_log := queue_log st |}
    | None =>
        let '(new_node, g') := add_node (graph st) nm current in
        if bool_decide (name_key ∈ queue_log st)
        then {| graph := g'; queue := queue st; queue_log := queue_log st |}
        else {| graph := g'; queue := queue st ++ [new_node];
                queue_log := {[ name_key ]} ∪ queue_log st |}
    end.

(** The two grounding channels of one node, merged; [list(set(...))] keeps
    one copy of each identifier (in an order Python does not fix). *)
Definition final_definitions (p : GoTPlanner) (nm : string)
    (image_path : option string) : list string :=
  let search_results := lean_search p nm in
  let res_text := run_grounding_reasoner (planner_llm p) nm search_results None in
  let text_defs :=
    if is_found res_text && nonempty (definitions res_text)
    then definitions res_text else [] in
  let vision_defs :=
    match image_path with
    | Some img =>
        let res_vision :=
          run_grounding_reasoner (planner_llm p) nm search_results (Some img) in
        if is_found res_vision && nonempty (definitions res_vision)
        then definitions res_vision else []
    | None => []
    end in
  remove_dups (text_defs ++ vision_defs).

Definition update_node (f : ConceptNode → ConceptNode) (i : nat)
    (st : planner_state) : planner_state :=
  {| graph := set_nodes (graph st) (alter f i (nodes (graph st)));
     queue := queue st; queue_log := queue_log st |}.

(** One iteration of [while queue:], after [queue.popleft()]. *)
Definition process_node (p : GoTPlanner) (image_path : option string)
    (st : planner_state) (current : nat) : planner_state :=
  let current_name := node_name (graph st) current in
  let current_name_key := lower_strip current_name in
  if bool_decide (is_Some (planner_verified_kb p !! current_name_key)) then
    update_node (λ n, set_grounded_definition (DefList ["VerifiedKB"])
                        (set_status GROUNDED n)) current st
  else
    let defs := final_definitions p current_name image_path in
    if nonempty defs then
      update_node (λ n, set_grounded_definition (DefList defs)
                          (set_status GROUNDED n)) current st
    else
      let st1 := update_node (set_status TO_SYNTHESIZE) current st in
      foldl (link_dependency true current) st1
            (run_expansion_module (planner_llm p) current_name image_path).

(** [while queue:].  The loop ends when the reasoning capability stops
    naming new concepts, which nothing in the code enforces: [None] when
    [fuel] iterations were not enough. *)
Fixpoint run_queue (p : GoTPlanner) (image_path : option string) (fuel : nat)
    (st : planner_state) : option ConceptualGraph :=
  match queue st with
  | [] => Some (graph st)
  | current :: rest =>
      match fuel with
      | 0 => None
      | S fuel' =>
          run_queue p image_path fuel'
            (process_node p image_path
               {| graph := graph st; queue := rest; queue_log := queue_log st |}
               current)
      end
  end.

(** The state of [run] when the [while] loop starts: the root is created,
    forced to TO_SYNTHESIZE and expanded. *)
Definition planner_start (p : GoTPlanner) (informal_statement : string)
    (image_path : option string) : planner_state :=
  let g := ConceptualGraph_init informal_statement in
  let st0 := {| graph := g; queue := [];
                queue_log := {[ lower_strip (node_name g (root g)) ]} |} in
  let st1 := update_node (set_status TO_SYNTHESIZE) (root g) st0 in
  foldl (link_dependency false (root g)) st1
        (run_expansion_module (planner_llm p)
           (node_name g (root g)) image_path).

(** [GoTPlanner.run] *)
Definition planner_run (p : GoTPlanner) (fuel : nat)
    (informal_statement : string) (image_path : option string)
  : option ConceptualGraph :=
  run_queue p image_path fuel (planner_start p informal_statement image_path).

(** ** modules/knowledge_base.py *)

(** A value of the top-level object of the file: an object (an entry) or
    any other JSON value. *)
Inductive kb_value :=
  | KBDict (e : kb_entry)
  | KBOther (j : json).

(** What [KB_FILE_PATH] holds when it is read: no file, a file that
    [open] or [read] refuses with [IOError], text that is not JSON, JSON
    that is not an object, an object, or a file on which the read raises
    another exception ([UnicodeDecodeError] on bytes that are not UTF-8,
    [RecursionError] on JSON nested too deep), named by [msg]. *)
Inductive kb_file :=
  | FileMissing
  | FileUnreadable
  | FileMalformed
  | FileNotDict (j : json)
  | FileDict (data : gmap string kb_value)
  | FileUndecodable (msg : string).

(** How [load_knowledge_base] ends: it returns a dict, or an exception
    leaves it. *)
Inductive load_result :=
  | Loaded (kb : gmap string kb_entry)
  | LoadRaised (msg : string).

Definition as_entry (v : kb_value) : option kb_entry :=
  match v with KBDict e => Some e | KBOther _ => None end.

(** [load_knowledge_base]: of a dict, the values that are dicts are kept;
    a missing file, [IOError], [json.JSONDecodeError] and a value that is
    not a dict answer the empty dict; no other exception is caught. *)
Definition load_knowledge_base (f : kb_file) : load_result :=
  match f with
  | FileDict data => Loaded (omap as_entry data)
  | FileUndecodable msg => LoadRaised msg
  | _ => Loaded ∅
  end.

(** The warning of [load_knowledge_base] on filtered entries
    ([len(valid_data) != len(data)]). *)
Definition load_warns_invalid (f : kb_file) : bool :=
  match f with
  | FileDict data =>
      negb (size (omap as_entry data : gmap string kb_entry) =? size data)%nat
  | _ => false
  end.

(** How [open(KB_FILE_PATH, "w")] and [json.dump] end: the file is
    rewritten, or [open] raises [IOError] and the file is untouched, or the
    write stops with [IOError] after the file was truncated, or [json.dump]
    raises another exception after the file was truncated (only [IOError]
    is caught). *)
Inductive write_outcome :=
  | Written
  | OpenFailed
  | WriteInterrupted
  | WriteRaised (msg : string).

(** The body of [for node_key, code_chunk in synthesized_cache.items()]. *)
Definition save_item (g : ConceptualGraph) (root_key : string)
    (node_key code_chunk : string) (existing_kb : gmap string kb_entry)
  : gmap string kb_entry :=
  if String.eqb node_key root_key then existing_kb
  else
    match find_node_by_name g node_key with
    | None => existing_kb
    | Some original_node =>
        let dep_keys :=
          map (λ dep_node, lower_strip (node_name g dep_node))
              (node_dependencies g original_node) in
        <[ node_key := {| kb_code := Some code_chunk;
                          kb_deps := Some dep_keys |} ]> existing_kb
    end.

(** The dict that [save_verified_nodes] hands to [json.dump], from the
    dict that was loaded. *)
Definition merged_kb (synthesized_cache : gmap string string)
    (g : ConceptualGraph) (existing_kb : gmap string kb_entry)
  : gmap string kb_entry :=
  let root_key := lower_strip (node_name g (root g)) in
  map_fold (save_item g root_key) existing_kb synthesized_cache.

(** How [save_verified_nodes] leaves the file, and the exception that
    leaves the function, if any. *)
Record save_result := mkSaved {
  file_after : kb_file;
  save_raised : option string
}.

(** [save_verified_nodes]: an exception of the load leaves the function
    before anything is written. *)
Definition save_verified_nodes (w : write_outcome)
    (synthesized_cache : gmap string string) (g : ConceptualGraph)
    (f : kb_file) : save_result :=
  match load_knowledge_base f with
  | LoadRaised msg => mkSaved f (Some msg)
  | Loaded existing_kb =>
      let merged := merged_kb synthesized_cache g existing_kb in
      match w with
      | Written => mkSaved (FileDict (KBDict <$> merged)) None
      | OpenFailed => mkSaved f None
      | WriteInterrupted => mkSaved FileMalformed None
      | WriteRaised msg => mkSaved FileMalformed (Some msg)
      end
  end.

(** ** stage2_synthesizer.py *)

Definition BASE_IMPORTS : list string :=
  [ "import Mathlib";
    "import PhysLean.Units.Basic";
    "import PhysLean.Units.Dimension";
    "import PhysLean.Units.WithDim.Basic";
    "import PhysLean.Units.WithDim.Mass";
    "import PhysLean.Units.WithDim.Velocity";
    "import PhysLean.Units.WithDim.Energy";
    "import PhysLean.SpaceAndTime.Space.Basic";
    "import PhysLean.SpaceAndTime.Time.Basic";
    "import PhysLean.SpaceAndTime.Space.Derivatives.Basic";
    "import PhysLean.Mathematics.InnerProductSpace.Basic";
    "import PhysLean.ClassicalMechanics.Basic";
    "import PhysLean.ClassicalMechanics.EulerLagrange";
    "import PhysLean.ClassicalMechanics.HarmonicOscillator.Basic";
    "import PhysLean.ClassicalMechanics.RigidBody.Basic";
    "import PhysLean.Electromagnetism.Basic";
    "import PhysLean.Electromagnetism.Electrostatics.Basic";
    "import PhysLean.Electromagnetism.Dynamics.Basic";
    "import PhysLean.Thermodynamics.Basic";
    "import PhysLean.Thermodynamics.Temperature.Basic";
    "import PhysLean.QuantumMechanics.FiniteTarget.Basic";
    "import PhysLean.QuantumMechanics.OneDimension.HarmonicOscillator.Basic";
    "import PhysLean.Relativity.LorentzGroup.Basic";
    "import PhysLean.Relativity.Special.ProperTime";
    "open Real InnerProductSpace";
    "open PhysLean";
    "noncomputable section" ].

Definition NL : string := String "010" EmptyString.

(** [sep.join(l)] *)
Definition join (sep : string) (l : list string) : string := String.concat sep l.

(** [_normalize_node_name]:
    [re.sub(r"\s+", " ", str(name)).strip().lower()] *)
Definition _normalize_node_name (nm : string) : string :=
  lower (strip (collapse_ws nm)).

(** [drop n s] on strings *)
Fixpoint drop_chars (n : nat) (s : string) : string :=
  match n, s with
  | S n', String _ r => drop_chars n' r
  | _, _ => s
  end.

(** A word character of [re]: a letter, a digit or the underscore. *)
Definition is_word_char (c : ascii) : bool :=
  let n := nat_of_ascii c in
  (((48 <=? n) && (n <=? 57)) || ((65 <=? n) && (n <=? 90)) ||
   ((97 <=? n) && (n <=? 122)) || (n =? 95))%nat.

(** [kw\b] at the start of [s] *)
Definition keyword_at (s kw : string) : bool :=
  String.prefix kw s &&
  match drop_chars (String.length kw) s with
  | EmptyString => true
  | String c _ => negb (is_word_char c)
  end.

(** [code_like.search(code)] for
    [^\s*(def|theorem|lemma|structure|inductive|namespace)\b] under [re.M]:
    some line starts, after white space, with one of the keywords. *)
Definition code_like (code : string) : bool :=
  existsb (λ ln,
             existsb (keyword_at (lstrip ln))
               ["def"; "theorem"; "lemma"; "structure"; "inductive";
                "namespace"])
          (split_nl code).

(** After the [\s+] of [^\s*import\s+.+] has taken one white space: [.+]
    needs one more character that is not a line feed. *)
Fixpoint dot_follows (s : string) : bool :=
  match s with
  | EmptyString => false
  | String c r => if Ascii.eqb c "010" then dot_follows r else true
  end.

(** [re.match(r"^\s*import\s+.+", ln)] *)
Definition is_import_line (ln : string) : bool :=
  let r := lstrip ln in
  String.prefix "import" r &&
  match drop_chars 6 r with
  | String c rest => is_space c && dot_follows rest
  | EmptyString => false
  end.

(** The first-seen deduplication loops ([seen = set()] and a list). *)
Fixpoint dedup_from (seen : gset string) (l : list string) : list string :=
  match l with
  | [] => []
  | x :: r =>
      if bool_decide (x ∈ seen) then dedup_from seen r
      else x :: dedup_from ({[ x ]} ∪ seen) r
  end.

(** The loop over [final_code_pieces] of [_build_final_code_string]: the
    import lines and the code blocks, both in order. *)
Fixpoint split_pieces (pieces : list string) : list string * list string :=
  match pieces with
  | [] => ([], [])
  | piece :: rest =>
      let '(imports, blocks) := split_pieces rest in
      if is_empty piece || is_empty (strip piece) then (imports, blocks)
      else
        let lines := splitlines piece in
        let imps := map (λ ln, collapse_ws (strip ln))
                        (filter (λ ln, is_import_line ln = true) lines) in
        let others := filter (λ ln, is_import_line ln = false) lines in
        let block := strip (join NL others) in
        (imps ++ imports,
         if is_empty block then blocks else block :: blocks)
  end.

(** [_build_final_code_string] *)
Definition _build_final_code_string (final_code_pieces : list string) : string :=
  let '(imports, code_blocks) := split_pieces final_code_pieces in
  let dedup_imports := dedup_from ∅ (BASE_IMPORTS ++ imports) in
  join NL dedup_imports +:+ NL +:+ NL +:+ join (NL +:+ NL) code_blocks.


(** What a worker does that the claims observe. *)
Inductive worker_event :=
  | CallSynthesis
  | CallReflection
  | CallBackTranslation
  | CallSemanticCheck
  | CallCompile (code : string)
  | SetStopEvent.

(** class GoTSynthesizer, with what its methods read from [config] and
    from the thread pool: [stop_is_set] is what a worker sees of the shared
    [stop_event] at the start of an attempt, [completion_order] the order in
    which [as_completed] yields the workers of a node, [stack_room] the
    number of nested calls that the interpreter allows inside [run].  The
    compiler takes the source and the index of the calling worker (its
    [request_id]). *)
Record GoTSynthesizer := mkSynthesizer {
  synth_llm : LLMModules;
  compile_code : string → nat → LeanCompilationResult;
  verified_kb : gmap string kb_entry;
  json_loads : json_decoder;
  CONCURRENT_WORKERS : nat;
  ATTEMPTS_PER_WORKER : nat;
  stop_is_set : call_site → bool;
  completion_order : string → list nat;
  stack_room : nat
}.

(** [re.findall] of the lines that start with ["import "] (the pattern
    is anchored by [^] and [$] under [re.MULTILINE]). *)
Definition import_statements (code : string) : list string :=
  filter (λ ln, String.prefix "import " ln = true) (split_nl code).

(** [re.sub] of the same pattern by the empty string, then [strip()]. *)
Definition code_without_imports (code : string) : string :=
  strip (join NL (map (λ ln, if String.prefix "import " ln then EmptyString
                             else ln)
                      (split_nl code))).

(** The source handed to the compiler by a worker. *)
Definition full_code_to_compile (base_imports dep_chunks : list string)
    (current_code : string) : string :=
  let compile_imports :=
    dedup_from ∅
      (filter (λ ln, is_empty ln = false)
              (map strip (base_imports ++ import_statements current_code))) in
  join (NL +:+ NL)
    (filter (λ part, is_empty part = false)
       [ join NL compile_imports;
         join (NL +:+ NL) dep_chunks;
         code_without_imports current_code ]).

(** The outcome of the semantic gate of an attempt. *)
Inductive gate_outcome :=
  | GateProceed
  | GateAbort
  | GateRaise (msg : string).

(** Lines 251-280 of [_synthesis_worker]: the gate runs on the first
    attempt of a worker on the root node. *)
Definition semantic_gate (self : GoTSynthesizer) (site : call_site)
    (node_name current_code : string) (image_path : option string)
    (original_question : string) (is_root_node : bool)
  : gate_outcome * list worker_event :=
  if (call_attempt site =? 0)%nat && negb (is_empty original_question)
     && is_root_node
  then
    let back_trans :=
      run_back_translation (synth_llm self) (Some site) node_name current_code
        "(Context omitted for pre-check)" in
    let semantic_report_str :=
      run_semantic_check (synth_llm self) (Some site) original_question
        back_trans image_path in
    (match json_loads self semantic_report_str with
     | None => GateProceed
     | Some (JObj report) =>
         if is_level "level_3"
              (dict_get report "consistency_level" (JStr "level_3"))
         then GateAbort else GateProceed
     | Some _ => GateRaise "AttributeError"
     end,
     [CallBackTranslation; CallSemanticCheck])
  else (GateProceed, []).

Definition with_events {A} (evs : list worker_event)
    (r : A * list worker_event) : A * list worker_event :=
  (r.1, evs ++ r.2).

(** [for attempt in range(attempts)] of [_synthesis_worker], from attempt
    [attempt] with [remaining] attempts to go. *)
Fixpoint worker_attempts (self : GoTSynthesizer) (worker_id : nat)
    (node_name prompt_context : string) (dep_chunks base_imports : list string)
    (image_path : option string) (original_question : string)
    (is_root_node : bool)
    (remaining attempt : nat) (failed_code error_msg : string)
  : option string * list worker_event :=
  match remaining with
  | 0 => (None, [])
  | S remaining' =>
      let site := mkCall node_name worker_id attempt in
      let next := worker_attempts self worker_id node_name prompt_context
                    dep_chunks base_imports image_path original_question
                    is_root_node remaining' (S attempt) in
      if stop_is_set self site then (None, [])
      else
        let '(current_code, ev_gen) :=
          if (attempt =? 0)%nat
          then (run_synthesis_module (synth_llm self) site node_name
                  prompt_context image_path, CallSynthesis)
          else (run_reflection_module (synth_llm self) site node_name
                  prompt_context failed_code error_msg, CallReflection) in
        if is_empty current_code || is_empty (strip current_code)
        then with_events [ev_gen] (next current_code "Empty code from LLM.")
        else
          let '(gate, ev_gate) :=
            semantic_gate self site node_name current_code image_path
              original_question is_root_node in
          match gate with
          | GateAbort => (None, ev_gen :: ev_gate)
          | GateRaise msg =>
              with_events (ev_gen :: ev_gate) (next failed_code msg)
          | GateProceed =>
              let full := full_code_to_compile base_imports dep_chunks
                            current_code in
              let comp_result := compile_code self full worker_id in
              if String.eqb (comp_status comp_result) "success"
              then (Some (code_without_imports current_code),
                    ev_gen :: ev_gate ++ [CallCompile full; SetStopEvent])
              else
                with_events (ev_gen :: ev_gate ++ [CallCompile full])
                  (next current_code
                     (match error_message comp_result with
                      | Some m => if is_empty m then "Unknown error" else m
                      | None => "Unknown error"
                      end))
          end
  end.

(** [_synthesis_worker]: its result and what it did. *)
Definition _synthesis_worker (self : GoTSynthesizer) (worker_id : nat)
    (node_name prompt_context : string) (dep_chunks base_imports : list string)
    (image_path : option string) (original_question : string)
    (is_root_node : bool) : option string * list worker_event :=
  worker_attempts self worker_id node_name prompt_context dep_chunks
    base_imports image_path original_question is_root_node
    (ATTEMPTS_PER_WORKER self) 0 EmptyString EmptyString.

(** [if result:] on the result of a worker. *)
Definition truthy (r : option string) : bool :=
  match r with Some c => negb (is_empty c) | None => false end.

(** [for future in as_completed(futures)]: the first truthy result. *)
Fixpoint first_truthy (results : list (option string)) : option string :=
  match results with
  | [] => None
  | r :: rest => if truthy r then r else first_truthy rest
  end.


(** The state of the [dfs] of [_collect_transitive_synthesized_code]:
    the lists and sets it closes over. *)
Record collect_state := mkCollect {
  col_order : list string;
  col_seen : gset string;
  col_missing : gset string
}.

(** The classification of a dependency after its own dependencies. *)
Definition classify_dependency (self : GoTSynthesizer)
    (synthesized_cache : gmap string string) (grounded_set : gset string)
    (dn : string) (st : collect_state) : collect_state :=
  if bool_decide (is_Some (synthesized_cache !! dn)) then
    {| col_order := col_order st ++ [dn]; col_seen := col_seen st;
       col_missing := col_missing st |}
  else if bool_decide (dn ∈ grounded_set) then st
  else if bool_decide (is_Some (verified_kb self !! dn)) then st
  else
    {| col_order := col_order st; col_seen := col_seen st;
       col_missing := {[ dn ]} ∪ col_missing st |}.

(** The inner [dfs(n)] of [_collect_transitive_synthesized_code]; [fuel]
    bounds the depth of the recursion: one level for the node itself and
    one for each name that enters [seen] are enough
    ([collect_dfs_total]). *)
Fixpoint collect_dfs (self : GoTSynthesizer) (arena : list ConceptNode)
    (synthesized_cache : gmap string string) (grounded_set : gset string)
    (fuel : nat) (n : nat) (st : collect_state) : option collect_state :=
  match fuel with
  | 0 => None
  | S fuel' =>
      foldl (λ acc d,
               st0 ← acc;
               let dn := _normalize_node_name
                           (from_option name EmptyString (arena !! d)) in
               if bool_decide (dn ∈ col_seen st0) then Some st0
               else
                 st1 ← collect_dfs self arena synthesized_cache grounded_set
                         fuel' d
                         {| col_order := col_order st0;
                            col_seen := {[ dn ]} ∪ col_seen st0;
                            col_missing := col_missing st0 |};
                 Some (classify_dependency self synthesized_cache
                         grounded_set dn st1))
            (Some st)
            (from_option dependencies [] (arena !! n))
  end.

(** [_collect_transitive_synthesized_code]: the chunks of context and the
    missing names ([sorted(missing_not_grounded)], of which the code tests
    emptiness and which it logs; the elements are listed unsorted). *)
Definition _collect_transitive_synthesized_code (self : GoTSynthesizer)
    (g : ConceptualGraph) (node : nat)
    (synthesized_cache : gmap string string) (grounded_set : gset string)
  : option (list string * list string) :=
  st ← collect_dfs self (nodes g) synthesized_cache grounded_set
         (S (S (length (nodes g)))) node
         {| col_order := []; col_seen := ∅; col_missing := ∅ |};
  let chunks :=
    omap (λ dep_name,
            let dep_code := default EmptyString (synthesized_cache !! dep_name) in
            if negb (is_empty dep_code) && code_like dep_code
            then Some ("-- [Dep] " +:+ dep_name +:+ NL +:+ dep_code)
            else None)
         (col_order st) in
  Some (chunks, elements (col_missing st)).

(** The inner [dfs(n)] of [_collect_transitive_grounded], on
    [(order, seen)]. *)
Fixpoint grounded_dfs (arena : list ConceptNode)
    (synthesized_cache : gmap string string) (grounded_set : gset string)
    (fuel : nat) (n : nat) (st : list string * gset string)
  : option (list string * gset string) :=
  match fuel with
  | 0 => None
  | S fuel' =>
      foldl (λ acc d,
               st0 ← acc;
               let dn := _normalize_node_name
                           (from_option name EmptyString (arena !! d)) in
               if bool_decide (dn ∈ st0.2) then Some st0
               else
                 st1 ← grounded_dfs arena synthesized_cache grounded_set
                         fuel' d (st0.1, {[ dn ]} ∪ st0.2);
                 if bool_decide (dn ∈ grounded_set)
                    && negb (bool_decide (is_Some (synthesized_cache !! dn)))
                 then Some (st1.1 ++ [dn], st1.2)
                 else Some st1)
            (Some st)
            (from_option dependencies [] (arena !! n))
  end.

(** [_collect_transitive_grounded] *)
Definition _collect_transitive_grounded (g : ConceptualGraph) (node : nat)
    (synthesized_cache : gmap string string) (grounded_set : gset string)
  : option (list string) :=
  st ← grounded_dfs (nodes g) synthesized_cache grounded_set
         (S (S (length (nodes g)))) node ([], ∅);
  Some (dedup_from ∅ st.1).

(** What the scheduler does that the claims observe: a pool of workers is
    launched for a node, the run cache is written. *)
Inductive scheduler_event :=
  | PoolLaunched (node : nat)
  | CacheWritten (key code : string).

(** The local state of [GoTSynthesizer.run]. *)
Record synth_state := mkSynthState {
  final_code_pieces : list string;
  synthesized_cache : gmap string string;
  grounded_set : gset string;
  events : list scheduler_event
}.

Definition dashes : string := "------------------------------".

(** [_recursively_paste_from_kb]; [fuel] bounds the depth of the recursion
    over the [deps] of the entries. *)
Fixpoint _recursively_paste_from_kb (self : GoTSynthesizer) (fuel : nat)
    (node_key : string) (st : synth_state) : option synth_state :=
  match fuel with
  | 0 => None
  | S fuel' =>
      if bool_decide (is_Some (synthesized_cache st !! node_key))
         || bool_decide (node_key ∈ grounded_set st)
      then Some st
      else
        match verified_kb self !! node_key with
        | Some {| kb_code := Some code_from_kb; kb_deps := Some deps |} =>
            st1 ← foldl (λ acc dep_key,
                           acc ≫= _recursively_paste_from_kb self fuel' dep_key)
                        (Some st) deps;
            let separator :=
              "-- " +:+ dashes +:+ NL +:+ "-- Node (from KB): " +:+ node_key
              +:+ NL +:+ "-- " +:+ dashes in
            let normalized_name := _normalize_node_name node_key in
            Some {| final_code_pieces :=
                      final_code_pieces st1 ++ [separator +:+ NL +:+ code_from_kb];
                    synthesized_cache :=
                      <[ normalized_name := code_from_kb ]> (synthesized_cache st1);
                    grounded_set := grounded_set st1;
                    events := events st1
                              ++ [CacheWritten normalized_name code_from_kb] |}
        | _ =>
            Some {| final_code_pieces := final_code_pieces st;
                    synthesized_cache := synthesized_cache st;
                    grounded_set := {[ node_key ]} ∪ grounded_set st;
                    events := events st |}
        end
  end.


(** The hints on grounded dependencies appended to the prompt context
    (lines 361-374 of [run]). *)
Definition grounded_hint (g : ConceptualGraph) (g_name : string) : string :=
  let standard := "- " +:+ g_name +:+ " (Standard Mathlib concept)" +:+ NL in
  match find_node_by_name g g_name with
  | Some g_node =>
      match from_option grounded_definition (DefList []) (nodes g !! g_node) with
      | DefList [] => standard
      | DefList defs =>
          "- " +:+ g_name +:+ " corresponds to: " +:+ join ", " defs +:+ NL
      | DefStr d =>
          if is_empty d then standard
          else "- " +:+ g_name +:+ " corresponds to: " +:+ d +:+ NL
      end
  | None => standard
  end.

Definition build_prompt_context (g : ConceptualGraph)
    (dep_chunks grounded_names : list string) : string :=
  let base := join (NL +:+ NL) dep_chunks in
  if nonempty grounded_names
  then base +:+ NL +:+ NL +:+ "/-- Grounded references available:" +:+ NL
       +:+ String.concat EmptyString (map (grounded_hint g) grounded_names)
       +:+ "--/"
  else base.

(** How [GoTSynthesizer.run] ends: it returns the final code and the run
    cache, or an exception leaves it. *)
Inductive run_result :=
  | Returned (final_lean_code : string) (st : synth_state)
  | Raised (msg : string).

(** One iteration of [for node in build_order]. *)
Inductive step_result :=
  | Continue (st : synth_state)
  | Stop (r : run_result).

(** The thread pool of a node: the results of the workers [0 .. N-1], read
    in the order of completion. *)
Definition pool_results (self : GoTSynthesizer) (node_name_clean : string)
    (prompt_context : string) (dep_chunks : list string)
    (image_path : option string) (root_node_name : string) (is_root : bool)
  : list (option string) :=
  let futures :=
    map (λ i, (_synthesis_worker self i node_name_clean prompt_context
                 dep_chunks BASE_IMPORTS image_path root_node_name is_root).1)
        (seq 0 (CONCURRENT_WORKERS self)) in
  omap (λ i, futures !! i) (completion_order self node_name_clean).

(** The body of [for node in build_order] in [GoTSynthesizer.run]. *)
Definition synth_node (self : GoTSynthesizer) (g : ConceptualGraph)
    (image_path : option string) (root_node_name root_node_norm : string)
    (node : nat) (st : synth_state) : step_result :=
  match nodes g !! node with
  | None => Continue st
  | Some n =>
      let node_name_clean := strip (name n) in
      let node_key := lower_strip (name n) in
      let is_root :=
        String.eqb (_normalize_node_name node_name_clean) root_node_norm in
      match status n with
      | TO_EXPAND => Continue st
      | GROUNDED =>
          let add_grounded :=
            Continue
              {| final_code_pieces := final_code_pieces st;
                 synthesized_cache := synthesized_cache st;
                 grounded_set :=
                   {[ _normalize_node_name node_name_clean ]} ∪ grounded_set st;
                 events := events st |} in
          match grounded_definition n with
          | DefStr d =>
              if String.eqb d "VerifiedKB" then
                match _recursively_paste_from_kb self
                        (S (size (verified_kb self))) node_key st with
                | Some st' => Continue st'
                | None => Stop (Raised "RecursionError")
                end
              else add_grounded
          | DefList _ => add_grounded
          end
      | TO_SYNTHESIZE =>
          match _collect_transitive_synthesized_code self g node
                  (synthesized_cache st) (grounded_set st) with
          | None => Stop (Raised "RecursionError")
          | Some (dep_chunks, missing) =>
              if nonempty missing then Continue st
              else
                match _collect_transitive_grounded g node
                        (synthesized_cache st) (grounded_set st) with
                | None => Stop (Raised "RecursionError")
                | Some grounded_names =>
                    let prompt_context :=
                      build_prompt_context g dep_chunks grounded_names in
                    if (CONCURRENT_WORKERS self =? 0)%nat
                    then Stop (Raised "ValueError")
                    else
                      match first_truthy
                              (pool_results self node_name_clean prompt_context
                                 dep_chunks image_path root_node_name is_root)
                      with
                      | Some success_code =>
                          let separator :=
                            "-- " +:+ dashes +:+ NL +:+ "-- Node: "
                            +:+ node_name_clean +:+ NL +:+ "-- " +:+ dashes in
                          let key := _normalize_node_name node_name_clean in
                          Continue
                            {| final_code_pieces :=
                                 final_code_pieces st
                                 ++ [separator +:+ NL +:+ success_code];
                               synthesized_cache :=
                                 <[ key := success_code ]> (synthesized_cache st);
                               grounded_set := grounded_set st;
                               events := events st
                                         ++ [PoolLaunched node;
                                             CacheWritten key success_code] |}
                      | None =>
                          let pieces :=
                            final_code_pieces st
                            ++ ["-- FATAL: " +:+ node_name_clean
                                +:+ " synthesis failed."] in
                          Stop (Returned (_build_final_code_string pieces)
                                  {| final_code_pieces := pieces;
                                     synthesized_cache := synthesized_cache st;
                                     grounded_set := grounded_set st;
                                     events := events st ++ [PoolLaunched node] |})
                      end
                end
          end
      end
  end.

(** [for node in build_order] and the final [return]. *)
Fixpoint run_loop (self : GoTSynthesizer) (g : ConceptualGraph)
    (image_path : option string) (root_node_name root_node_norm : string)
    (build_order : list nat) (st : synth_state) : run_result :=
  match build_order with
  | [] => Returned (_build_final_code_string (final_code_pieces st)) st
  | node :: rest =>
      match synth_node self g image_path root_node_name root_node_norm
              node st with
      | Continue st' =>
          run_loop self g image_path root_node_name root_node_norm rest st'
      | Stop r => r
      end
  end.

Definition synth_start : synth_state :=
  {| final_code_pieces := [join NL BASE_IMPORTS];
     synthesized_cache := ∅; grounded_set := ∅; events := [] |}.

(** [GoTSynthesizer.run] *)
Definition synthesizer_run (self : GoTSynthesizer) (g : ConceptualGraph)
    (image_path : option string) : run_result :=
  match get_build_order (stack_room self) g with
  | None =>
      Returned ("import Mathlib" +:+ NL +:+ NL +:+ "-- Error: Failed.")
        {| final_code_pieces := []; synthesized_cache := ∅;
           grounded_set := ∅; events := [] |}
  | Some build_order =>
      let root_node_name := node_name g (root g) in
      let root_node_norm := _normalize_node_name root_node_name in
      run_loop self g image_path root_node_name root_node_norm build_order
        synth_start
  end.


(** ** stage3_alignment.py *)

(** The body of [for node in build_order] in
    [SemanticAlignmentModule.run], on [back_translated_segments]. *)
Definition back_translate_node (llm : LLMModules) (g : ConceptualGraph)
    (cache : gmap string string) (segments : gmap string string) (node : nat)
  : gmap string string :=
  let node_key := _normalize_node_name (node_name g node) in
  match cache !! node_key with
  | Some code_chunk =>
      let dep_nl_context :=
        omap (λ dep,
                let dep_key := _normalize_node_name (node_name g dep) in
                (λ seg, "- " +:+ node_name g dep +:+ ": " +:+ seg)
                  <$> segments !! dep_key)
             (node_dependencies g node) in
      let context_str := join NL dep_nl_context in
      let nl_description :=
        run_back_translation llm None (node_name g node) code_chunk
          context_str in
      <[ node_key := nl_description ]> segments
  | None => segments
  end.

(** How [SemanticAlignmentModule.run] ends. *)
Inductive align_result :=
  | Aligned (is_consistent : bool) (report : json)
  | AlignRaised (msg : string).

(** The result of the alignment stage with its effect on the knowledge
    base: the file afterwards, and whether [save_verified_nodes] was
    called. *)
Record align_outcome := mkAlign {
  align_res : align_result;
  kb_after : kb_file;
  save_called : bool
}.

Definition no_segments_report : json :=
  JObj [("consistency_level", JStr "level_3");
        ("error", JStr "No segments to merge")].

Definition invalid_json_report : json :=
  JObj [("consistency_level", JStr "level_3");
        ("discrepancies", JArr [JStr "ASCC returned invalid JSON."]);
        ("recommendations", JArr [])].

(** [SemanticAlignmentModule.run]; [room] is the number of nested calls
    that the interpreter allows inside it. *)
Definition alignment_run (llm : LLMModules) (loads : json_decoder)
    (room : nat) (w : write_outcome) (original_statement : string)
    (cache : gmap string string) (g : ConceptualGraph)
    (image_path : option string) (kb : kb_file) : align_outcome :=
  match get_build_order room g with
  | None => mkAlign (AlignRaised "RecursionError") kb false
  | Some build_order =>
      let segments := foldl (back_translate_node llm g cache) ∅ build_order in
      if bool_decide (segments = ∅) then
        mkAlign (Aligned false no_segments_report) kb false
      else
        let merged_nl_description := run_merge_back_translations llm segments in
        let report_json_str :=
          run_semantic_check llm None original_statement
            merged_nl_description image_path in
        match loads report_json_str with
        | None => mkAlign (Aligned false invalid_json_report) kb false
        | Some (JObj report) =>
            let consistency_level :=
              dict_get report "consistency_level" (JStr "level_3") in
            let is_consistent :=
              is_level "level_1" consistency_level
              || is_level "level_2" consistency_level in
            if is_consistent
            then
              let saved := save_verified_nodes w cache g kb in
              match save_raised saved with
              | None =>
                  mkAlign (Aligned true (JObj report)) (file_after saved) true
              | Some msg => mkAlign (AlignRaised msg) (file_after saved) true
              end
            else mkAlign (Aligned false (JObj report)) kb false
        | Some _ => mkAlign (AlignRaised "AttributeError") kb false
        end
  end.

(** ** main.py *)

(** The constants of [config] and the surroundings of one run. *)
Record Environment := mkEnv {
  env_llm : LLMModules;
  env_search : string → list LeanSearchResult;
  env_compile : string → nat → LeanCompilationResult;
  env_json_loads : json_decoder;
  env_workers : nat;
  env_attempts : nat;
  USE_MULTIMODAL : bool;
  env_stop_is_set : call_site → bool;
  env_completion_order : string → list nat;
  env_write : write_outcome;
  env_stack_room : nat
}.

(** [GoTSynthesizer.__init__]: the knowledge base is not loaded. *)
Definition GoTSynthesizer_init (env : Environment) : GoTSynthesizer :=
  {| synth_llm := env_llm env; compile_code := env_compile env;
     verified_kb := ∅; json_loads := env_json_loads env;
     CONCURRENT_WORKERS := env_workers env;
     ATTEMPTS_PER_WORKER := env_attempts env;
     stop_is_set := env_stop_is_set env;
     completion_order := env_completion_order env;
     stack_room := env_stack_room env |}.

(** [result_summary] *)
Record result_summary := mkSummary {
  res_question : string;
  res_status : string;
  compilation_passed : bool;
  semantic_passed : bool;
  res_error : option string;
  consistency_level : json;
  generated_code : string;
  ascc_report : option json
}.

(** [process_single_problem] from the graph of stage one on: the record it
    returns and the file of the knowledge base afterwards.  [image_path]
    is [Some] of a path that is not empty. *)
Definition process_graph (env : Environment) (question : string)
    (real_image_path : option string) (g : ConceptualGraph) (kb : kb_file)
  : result_summary * kb_file :=
  let gen_image_path :=
    if USE_MULTIMODAL env then real_image_path else None in
  let check_image_path := real_image_path in
  match synthesizer_run (GoTSynthesizer_init env) g gen_image_path with
  | Raised msg =>
      (mkSummary question "error" false false (Some msg) (JStr "N/A")
         EmptyString None, kb)
  | Returned final_lean_code st =>
      if contains "-- FATAL:" final_lean_code then
        (mkSummary question "failed" false false
           (Some "Stage 2 Synthesis Failed") (JStr "N/A") final_lean_code None,
         kb)
      else
        let out := alignment_run (env_llm env) (env_json_loads env)
                     (env_stack_room env) (env_write env) question
                     (synthesized_cache st) g check_image_path kb in
        match align_res out with
        | AlignRaised msg =>
            (mkSummary question "error" true false (Some msg) (JStr "N/A")
               final_lean_code None, kb_after out)
        | Aligned is_consistent report =>
            let level :=
              match report with
              | JObj fields =>
                  dict_get fields "consistency_level" (JStr "level_3")
              | _ => JStr "level_3"
              end in
            (mkSummary question
               (if is_consistent then "success" else "inconsistent")
               true is_consistent None level final_lean_code (Some report),
             kb_after out)
        end
  end.

(** [process_single_problem]: [None] when the decomposition did not end
    within [fuel] iterations of its queue. *)
Definition process_single_problem (env : Environment) (fuel : nat)
    (question : string) (real_image_path : option string) (kb : kb_file)
  : option (result_summary * kb_file) :=
  let gen_image_path :=
    if USE_MULTIMODAL env then real_image_path else None in
  g ← planner_run (GoTPlanner_init (env_llm env) (env_search env)) fuel
        question gen_image_path;
  Some (process_graph env question real_image_path g kb).


(** * The claims as the specification states them, where the code departs
      from them *)

(** [add_node] deduplicates by name: on a name whose key is already in the
    index it answers the existing node, creates nothing and leaves the
    index alone. *)
Definition add_node_dedup_claim : Prop :=
  ∀ (g : ConceptualGraph) (par : nat) (nm : string) (existing : nat),
    find_node_by_name g nm = Some existing →
    (add_node g nm par).1 = existing
    ∧ length (nodes (add_node g nm par).2) = length (nodes g)
    ∧ _nodes_by_name (add_node g nm par).2 = _nodes_by_name g.

(** Every node is indexed under the key of its name; two nodes with one
    key would both be the entry of that key. *)
Definition name_indexed (g : ConceptualGraph) : Prop :=
  ∀ i n, nodes g !! i = Some n →
         _nodes_by_name g !! lower_strip (name n) = Some i.


(** * Sample surroundings, for the worked runs *)

(** A reasoning capability that expands names by [expand], grounds
    nothing, writes a definition named after its target, and judges the
    candidate of a worker as [gate] and the restatement of a run as
    [verdict]. *)
Definition sample_llm (expand : string → list string) (gate verdict : string)
  : LLMModules :=
  {| run_expansion_module := λ nm _, expand nm;
     run_grounding_reasoner := λ _ _ _, mkGrounding false [];
     run_synthesis_module := λ _ target _ _, "def x := " +:+ target;
     run_reflection_module := λ _ target _ _ _, "def y := " +:+ target;
     run_back_translation := λ _ nm _ _, "states " +:+ nm;
     run_merge_back_translations := λ _, "merged";
     run_semantic_check := λ site _ _ _,
       match site with Some _ => gate | None => verdict end |}.

(** A decoder for the sample verdicts: the text is the level. *)
Definition sample_loads : json_decoder :=
  λ s, if String.eqb s "garbage" then None
       else Some (JObj [("consistency_level", JStr s)]).

Definition sample_env (expand : string → list string) (gate verdict : string)
    (accepts : bool) : Environment :=
  {| env_llm := sample_llm expand gate verdict;
     env_search := λ _, [];
     env_compile := λ _ _, if accepts then mkCompilation "success" None
                           else mkCompilation "failure" (Some "error: no");
     env_json_loads := sample_loads;
     env_workers := 2; env_attempts := 3; USE_MULTIMODAL := false;
     env_stop_is_set := λ _, false;
     env_completion_order := λ _, [1; 0];
     env_write := Written;
     env_stack_room := 1000 |}.

(** "s" needs "a", and "a" names "S" again: a link back to the root. *)
Definition expand_cycle (nm : string) : list string :=
  if String.eqb nm "s" then ["a"]
  else if String.eqb nm "a" then ["S "] else [].

(** "s" needs "x" and "y", which both need "z". *)
Definition expand_shared (nm : string) : list string :=
  if String.eqb nm "s" then ["x"; "y"]
  else if String.eqb nm "x" then ["z"]
  else if String.eqb nm "y" then ["Z "] else [].

(** The statement "a  b" (two spaces) needs the concept "a b". *)
Definition expand_collision (nm : string) : list string :=
  if String.eqb nm "a  b" then ["a b"] else [].

(** "r" needs "a b" and "a  b" (two spaces); "a  b" needs "d", and "d"
    names "a  b" again. *)
Definition expand_hidden (nm : string) : list string :=
  if String.eqb nm "r" then ["a b"; "a  b"]
  else if String.eqb nm "a  b" then ["d"]
  else if String.eqb nm "d" then ["a  b"] else [].

Definition sample_planner (expand : string → list string) : GoTPlanner :=
  GoTPlanner_init (sample_llm expand "level_1" "level_1") (λ _, []).


(** Loading returns only entries whose dependencies are resolvable: each
    is grounded or is itself a loaded entry. *)
Definition load_resolvable_claim : Prop :=
  ∀ (grounded : gset string) (f : kb_file) (k : string) (e : kb_entry)
    (deps : list string) (d : string) (kb : gmap string kb_entry),
    load_knowledge_base f = Loaded kb →
    kb !! k = Some e → kb_deps e = Some deps → d ∈ deps →
    d ∈ grounded ∨ is_Some (kb !! d).

(** After a save the knowledge base has no entry under the key of the
    root. *)
Definition root_excluded_claim : Prop :=
  ∀ (w : write_outcome) (cache : gmap string string) (g : ConceptualGraph)
    (f : kb_file) (kb : gmap string kb_entry),
    load_knowledge_base (file_after (save_verified_nodes w cache g f))
    = Loaded kb →
    kb !! lower_strip (node_name g (root g)) = None.

(** The level of the consistency judgment of an alignment run: [None] when
    no judgment is made (nothing to restate) or its output is not a JSON
    object. *)
Definition judged_level (llm : LLMModules) (loads : json_decoder)
    (room : nat) (original_statement : string) (cache : gmap string string)
    (g : ConceptualGraph) (image_path : option string) : option json :=
  build_order ← get_build_order room g;
  let segments := foldl (back_translate_node llm g cache) ∅ build_order in
  if bool_decide (segments = ∅) then None
  else
    match loads (run_semantic_check llm None original_statement
                   (run_merge_back_translations llm segments) image_path) with
    | Some (JObj report) =>
        Some (dict_get report "consistency_level" (JStr "level_3"))
    | _ => None
    end.


(** The trace of a worker, counted. *)
Definition is_compile_call (e : worker_event) : bool :=
  match e with CallCompile _ => true | _ => false end.

Definition is_generation_call (e : worker_event) : bool :=
  match e with CallSynthesis | CallReflection => true | _ => false end.

Definition compile_calls (tr : list worker_event) : nat :=
  length (filter (λ e, is_compile_call e = true) tr).

Definition generation_calls (tr : list worker_event) : nat :=
  length (filter (λ e, is_generation_call e = true) tr).


(** The nodes of [pre] are all processed without ending the run: the state
    in which the loop reaches the next node. *)
Fixpoint loop_prefix (self : GoTSynthesizer) (g : ConceptualGraph)
    (image_path : option string) (root_node_name root_node_norm : string)
    (pre : list nat) (st : synth_state) : option synth_state :=
  match pre with
  | [] => Some st
  | node :: rest =>
      match synth_node self g image_path root_node_name root_node_norm
              node st with
      | Continue st' =>
          loop_prefix self g image_path root_node_name root_node_norm rest st'
      | Stop _ => None
      end
  end.




(** A name whose concept needs synthesis (it is not grounded, nor in the
    knowledge base of the synthesizer) and has no code in the run cache. *)
Definition absent_from_run (self : GoTSynthesizer)
    (cache : gmap string string) (grounded : gset string) (dn : string) : Prop :=
  cache !! dn = None ∧ (dn ∉ grounded) ∧ verified_kb self !! dn = None.

(** The names seen by the search are classified, but for those of [pending]
    (the dependencies whose own search is under way): a seen name that is
    absent from the run is among the missing ones. *)
Definition classified (self : GoTSynthesizer) (cache : gmap string string)
    (grounded : gset string) (pending : gset string) (cs : collect_state)
  : Prop :=
  ∀ dn, dn ∈ col_seen cs →
        dn ∈ pending
        ∨ (absent_from_run self cache grounded dn → dn ∈ col_missing cs).

(** The normalized names that the nodes of an arena can give (a reference
    outside the arena reads as the empty name). *)
Definition arena_names (arena : list ConceptNode) : gset string :=
  {[ _normalize_node_name EmptyString ]}
  ∪ list_to_set (map (λ n, _normalize_node_name (name n)) arena).

(** The graph of a sample decomposition. *)
Definition planned (expand : string → list string) (statement : string)
  : ConceptualGraph :=
  default (ConceptualGraph_init statement)
          (planner_run (sample_planner expand) 10 statement None).



(** No two nodes of the arena have the same whitespace-normalized name. *)
Definition names_injective (arena : list ConceptNode) : Prop :=
  ∀ i j ni nj,
    arena !! i = Some ni → arena !! j = Some nj →
    _normalize_node_name (name ni) = _normalize_node_name (name nj) → i = j.

(** Every dependency refers to a node of the arena (as object references
    do). *)
Definition deps_in_arena (arena : list ConceptNode) : Prop :=
  ∀ x nx d, arena !! x = Some nx → d ∈ dependencies nx → is_Some (arena !! d).

(** [d] is a transitive dependency of [x]. *)
Inductive depends_on (arena : list ConceptNode) : nat → nat → Prop :=
  | depends_direct x nx d :
      arena !! x = Some nx → d ∈ dependencies nx → depends_on arena x d
  | depends_trans x nx y d :
      arena !! x = Some nx → y ∈ dependencies nx → depends_on arena y d →
      depends_on arena x d.

(** The names seen by the search are closed under dependency, but for
    those of [pending]. *)
Definition closed_under_deps (arena : list ConceptNode) (pending : gset string)
    (cs : collect_state) : Prop :=
  ∀ x nx, arena !! x = Some nx →
          _normalize_node_name (name nx) ∈ col_seen cs →
          _normalize_node_name (name nx) ∉ pending →
          ∀ e, e ∈ dependencies nx →
               _normalize_node_name (from_option name EmptyString (arena !! e))
               ∈ col_seen cs.


(** * Reachability, invariants and traces *)

(** [x] reaches [y] along dependencies, in zero or more steps. *)
Inductive reaches (arena : list ConceptNode) : nat → nat → Prop :=
  | reaches_refl x : reaches arena x x
  | reaches_step x nx y z :
      arena !! x = Some nx → y ∈ dependencies nx → reaches arena y z →
      reaches arena x z.

(** No node reaches itself through one of its dependencies. *)
Definition acyclic (arena : list ConceptNode) : Prop :=
  ∀ x nx d, arena !! x = Some nx → d ∈ dependencies nx → ¬ reaches arena d x.

(** The references of a graph are nodes of its arena. *)
Definition refs_in_arena (g : ConceptualGraph) : Prop :=
  root g < length (nodes g) ∧ deps_in_arena (nodes g).

(** [d] is listed before [x]. *)
Definition listed_before (order : list nat) (d x : nat) : Prop :=
  ∃ i j, order !! i = Some d ∧ order !! j = Some x ∧ i < j.

(** ** Invariants of the decomposition *)

(** The shape of the graph: the root is node 0, a node's identifier is
    its index, dependencies are nodes of the graph, and every other node
    was introduced by an earlier node that depends on it. *)
Definition structure_inv (g : ConceptualGraph) : Prop :=
  root g = 0 ∧ 0 < length (nodes g)
  ∧ (∀ i n, nodes g !! i = Some n → id n = i)
  ∧ deps_in_arena (nodes g)
  ∧ (∀ i n, nodes g !! i = Some n → i ≠ 0 →
            ∃ p np, parent n = Some p ∧ p < i ∧ nodes g !! p = Some np
                    ∧ i ∈ dependencies np).

(** The name index: it holds every node under the key of its name, and
    nothing else; the names marked as queued are indexed. *)
Definition index_inv (st : planner_state) : Prop :=
  name_indexed (graph st)
  ∧ (∀ k i, _nodes_by_name (graph st) !! k = Some i →
            ∃ n, nodes (graph st) !! i = Some n ∧ lower_strip (name n) = k)
  ∧ (∀ k, k ∈ queue_log st → is_Some (_nodes_by_name (graph st) !! k)).

(** The queue and the statuses: the queue holds, once each, the nodes that
    wait for expansion, which have no dependency yet; a grounded node has
    identifiers and no dependency; the root needs synthesis. *)
Definition queue_inv (st : planner_state) : Prop :=
  (∃ r, nodes (graph st) !! 0 = Some r ∧ status r = TO_SYNTHESIZE)
  ∧ NoDup (queue st)
  ∧ (∀ i, i ∈ queue st →
          i ≠ 0 ∧ ∃ n, nodes (graph st) !! i = Some n
                       ∧ status n = TO_EXPAND ∧ dependencies n = [])
  ∧ (∀ i n, nodes (graph st) !! i = Some n → status n = TO_EXPAND →
            i ∈ queue st)
  ∧ (∀ i n, nodes (graph st) !! i = Some n → status n = GROUNDED →
            dependencies n = []
            ∧ ∃ defs, grounded_definition n = DefList defs ∧ defs ≠ []).

(** The edges: no dependency is listed twice, and no node but the root
    depends on itself. *)
Definition edge_inv (g : ConceptualGraph) : Prop :=
  (∀ i n, nodes g !! i = Some n → NoDup (dependencies n))
  ∧ (∀ i n, nodes g !! i = Some n → i ≠ 0 → i ∉ dependencies n).

Definition planner_inv (st : planner_state) : Prop :=
  structure_inv (graph st) ∧ index_inv st ∧ queue_inv st
  ∧ edge_inv (graph st).


(** ** The trace of a worker, counted further *)

Definition is_check_call (e : worker_event) : bool :=
  match e with CallSemanticCheck => true | _ => false end.

Definition semantic_check_calls (tr : list worker_event) : nat :=
  length (filter (λ e, is_check_call e = true) tr).

(** ** What the run cache holds *)

(** Code that the compiler accepted: a candidate, stripped of its import
    lines, whose full source some worker of the pool compiled with
    success. *)
Definition compiled_for (self : GoTSynthesizer) (code : string) : Prop :=
  ∃ worker_id chunks current,
    worker_id < CONCURRENT_WORKERS self
    ∧ code = code_without_imports current
    ∧ comp_status
        (compile_code self
           (full_code_to_compile BASE_IMPORTS chunks current) worker_id)
      = "success".

(** The code accepted for a node in a run.  The build order reaches the
    node after the nodes [pre], which leave the scheduler in the state
    [st0]; the context of the node is assembled from the run cache and the
    grounded names of [st0], with nothing missing; a worker of the pool
    launched for the node, called with the name of the node and that
    context, answers the code, and the last thing it did before setting
    the stop event was to compile the full source of the code, with
    success. *)
Definition accepted_for_node (self : GoTSynthesizer) (g : ConceptualGraph)
    (image_path : option string) (node : nat) (n : ConceptNode)
    (code : string) : Prop :=
  let root_node_name := node_name g (root g) in
  let root_node_norm := _normalize_node_name root_node_name in
  ∃ pre rest st0 dep_chunks grounded_names worker_id current trace,
    get_build_order (stack_room self) g = Some (pre ++ node :: rest)
    ∧ loop_prefix self g image_path root_node_name root_node_norm pre
        synth_start = Some st0
    ∧ _collect_transitive_synthesized_code self g node (synthesized_cache st0)
        (grounded_set st0) = Some (dep_chunks, [])
    ∧ _collect_transitive_grounded g node (synthesized_cache st0)
        (grounded_set st0) = Some grounded_names
    ∧ worker_id < CONCURRENT_WORKERS self
    ∧ _synthesis_worker self worker_id (strip (name n))
        (build_prompt_context g dep_chunks grounded_names) dep_chunks
        BASE_IMPORTS image_path root_node_name
        (String.eqb (_normalize_node_name (strip (name n))) root_node_norm)
      = (Some code,
         trace ++ [CallCompile
                     (full_code_to_compile BASE_IMPORTS dep_chunks current);
                   SetStopEvent])
    ∧ code = code_without_imports current
    ∧ comp_status
        (compile_code self
           (full_code_to_compile BASE_IMPORTS dep_chunks current) worker_id)
      = "success".

(** The code of an entry of the verified knowledge base, under the
    normalized key of the entry. *)
Definition pasted_from_kb (self : GoTSynthesizer) (k c : string) : Prop :=
  ∃ k' deps, verified_kb self !! k' = Some (mkEntry (Some c) (Some deps))
             ∧ k = _normalize_node_name k'.

(** Every entry of the run cache is the code accepted for a node of the
    graph that needs synthesis, under the normalized name of the node, or
    the code of an entry of the verified knowledge base. *)
Definition run_cache_sound (self : GoTSynthesizer) (g : ConceptualGraph)
    (image_path : option string) (cache : gmap string string) : Prop :=
  ∀ k c, cache !! k = Some c →
    (∃ i n, nodes g !! i = Some n ∧ status n = TO_SYNTHESIZE
            ∧ k = _normalize_node_name (strip (name n))
            ∧ is_empty c = false
            ∧ accepted_for_node self g image_path i n c)
    ∨ pasted_from_kb self k c.

(** Every write to the run cache that the trace of the scheduler records
    comes right after the launch of the pool of a node that needs
    synthesis, under the normalized name of that node and with the code
    accepted for it; or, where [paste_ok], it is a paste from the verified
    knowledge base. *)
Definition written_by (self : GoTSynthesizer) (g : ConceptualGraph)
    (image_path : option string) (paste_ok : Prop)
    (evs : list scheduler_event) : Prop :=
  ∀ j k c, evs !! j = Some (CacheWritten k c) →
    (∃ j' node n,
       j = S j' ∧ evs !! j' = Some (PoolLaunched node)
       ∧ nodes g !! node = Some n ∧ status n = TO_SYNTHESIZE
       ∧ k = _normalize_node_name (strip (name n))
       ∧ is_empty c = false
       ∧ accepted_for_node self g image_path node n c)
    ∨ (paste_ok ∧ pasted_from_kb self k c).

(** The state of the scheduler: what the run cache holds was written, and
    what was written was accepted. *)
Definition run_inv (self : GoTSynthesizer) (g : ConceptualGraph)
    (image_path : option string) (paste_ok : Prop) (st : synth_state)
  : Prop :=
  (∀ k c, synthesized_cache st !! k = Some c →
          ∃ j, events st !! j = Some (CacheWritten k c))
  ∧ written_by self g image_path paste_ok (events st).


(** ** What a run without failure provides *)




(** The nodes as a decomposition leaves them: none waits for expansion and
    a grounded node carries a list of identifiers. *)
Definition settled (g : ConceptualGraph) : Prop :=
  ∀ i n, nodes g !! i = Some n →
    status n ≠ TO_EXPAND
    ∧ (status n = GROUNDED → ∃ l, grounded_definition n = DefList l).

(** A planner and a synthesizer that have loaded a knowledge base (the
    assignment that both constructors keep commented out). *)
Definition planner_with_kb (p : GoTPlanner) (kb : gmap string kb_entry)
  : GoTPlanner :=
  {| planner_llm := planner_llm p; lean_search := lean_search p;
     planner_verified_kb := kb |}.

Definition synthesizer_with_kb (self : GoTSynthesizer)
    (kb : gmap string kb_entry) : GoTSynthesizer :=
  {| synth_llm := synth_llm self; compile_code := compile_code self;
     verified_kb := kb; json_loads := json_loads self;
     CONCURRENT_WORKERS := CONCURRENT_WORKERS self;
     ATTEMPTS_PER_WORKER := ATTEMPTS_PER_WORKER self;
     stop_is_set := stop_is_set self;
     completion_order := completion_order self;
     stack_room := stack_room self |}.

(** A knowledge base that holds the concept "x". *)
Definition sample_kb : gmap string kb_entry :=
  {[ "x" := mkEntry (Some "def x_from_kb := 0") (Some []) ]}.


(** ** main.py: the batch loop *)

(** A file of the knowledge base that [load_knowledge_base] reads without
    an exception. *)
Definition loadable (f : kb_file) : Prop :=
  ∃ kb, load_knowledge_base f = Loaded kb.

(** The local state of the loop of [main]: the two counters, the records
    written to [summary.jsonl], and the file of the knowledge base. *)
Record batch_state := mkBatch {
  compiled_count : nat;
  semantic_count : nat;
  summary : list result_summary;
  batch_kb : kb_file
}.

(** How [main] ends after the tasks were read. *)
Inductive batch_result :=
  | BatchFinished (st : batch_state)
  | BatchRaised (msg : string) (st : batch_state).

Definition batch_final (r : batch_result) : batch_state :=
  match r with BatchFinished st | BatchRaised _ st => st end.

(** The body of [for i, entry in enumerate(tasks)]; a task is the question
    of its entry and the path of its image, when the file exists. *)
Definition batch_step (env : Environment) (fuel : nat) (st : batch_state)
    (entry : string * option string) : option batch_state :=
  '(res, kb') ← process_single_problem env fuel entry.1 entry.2 (batch_kb st);
  Some {| compiled_count :=
            if compilation_passed res then S (compiled_count st)
            else compiled_count st;
          semantic_count :=
            if semantic_passed res then S (semantic_count st)
            else semantic_count st;
          summary := summary st ++ [res];
          batch_kb := kb' |}.

(** [main] from the line [if args.limit > 0] on: the tasks are cut to the
    limit, processed in order, and the final statistics divide by their
    number.  [None] when the decomposition of a task does not end within
    [fuel] iterations. *)
Definition main_loop (env : Environment) (fuel : nat) (limit : Z)
    (tasks : list (string * option string)) (kb : kb_file)
  : option batch_result :=
  let tasks := if (0 <? limit)%Z then take (Z.to_nat limit) tasks else tasks in
  let total_tasks := length tasks in
  st ← foldl (λ acc entry, acc ≫= λ st, batch_step env fuel st entry)
             (Some (mkBatch 0 0 [] kb)) tasks;
  if (total_tasks =? 0)%nat then Some (BatchRaised "ZeroDivisionError" st)
  else Some (BatchFinished st).

(** ** What a grounded node carries *)

(** A property of every node of a graph. *)
Definition all_nodes (Q : ConceptNode → Prop) (g : ConceptualGraph) : Prop :=
  ∀ i n, nodes g !! i = Some n → Q n.

(** The identifiers of a grounded node, as the planner records them: the
    marker of the knowledge base for a name that it holds, and otherwise
    the merged answers, not empty, of the two grounding channels for the
    name of the node. *)
Definition grounding_recorded (p : GoTPlanner) (image : option string)
    (n : ConceptNode) : Prop :=
  status n = GROUNDED →
  (is_Some (planner_verified_kb p !! lower_strip (name n))
   ∧ grounded_definition n = DefList ["VerifiedKB"])
  ∨ (planner_verified_kb p !! lower_strip (name n) = None
     ∧ grounded_definition n = DefList (final_definitions p (name n) image)
     ∧ final_definitions p (name n) image ≠ []).

(** A planner whose reasoner grounds the concept "z", naming one
    identifier twice. *)
Definition grounding_planner : GoTPlanner :=
  GoTPlanner_init
    {| run_expansion_module := λ nm _, expand_shared nm;
       run_grounding_reasoner := λ nm _ _,
         if String.eqb nm "z" then mkGrounding true ["Nat.add"; "Nat.add"]
         else mkGrounding false [];
       run_synthesis_module := λ _ target _ _, "def x := " +:+ target;
       run_reflection_module := λ _ target _ _ _, "def y := " +:+ target;
       run_back_translation := λ _ nm _ _, "states " +:+ nm;
       run_merge_back_translations := λ _, "merged";
       run_semantic_check := λ _ _ _ _, "level_1" |}
    (λ _, []).

Definition grounded_plan : ConceptualGraph :=
  default (ConceptualGraph_init "s")
          (planner_run grounding_planner 10 "s" None).

(** ** modules/external_tools.py: the web search *)

(** What [_search_web] does that is observed: a request, a pause of
    [retry_delay]. *)
Inductive search_event :=
  | Request (attempt : nat)
  | Sleep.

(** class LeanSearchClient in web mode.  [post] is [requests.post] followed
    by [raise_for_status], for a query at an attempt: the text of the
    response, or [None] when either raises; [_parse_search_output] is
    [None] when the parser raises (it reads fields of the decoded response
    without checking their types). *)
Record LeanSearchClient := mkSearchClient {
  max_retries : nat;
  post : string → nat → option string;
  _parse_search_output : string → option (list LeanSearchResult)
}.

(** The body of the [try] of one attempt. *)
Definition search_attempt (c : LeanSearchClient) (concept_name : string)
    (attempt : nat) : option (list LeanSearchResult) :=
  post c concept_name attempt ≫= _parse_search_output c.

(** [for attempt in range(self.max_retries + 1)], from attempt [attempt]
    with [remaining] attempts to go. *)
Fixpoint search_attempts (c : LeanSearchClient) (concept_name : string)
    (remaining attempt : nat) : list LeanSearchResult * list search_event :=
  match remaining with
  | 0 => ([], [])
  | S remaining' =>
      match search_attempt c concept_name attempt with
      | Some results => (results, [Request attempt])
      | None =>
          let rest := search_attempts c concept_name remaining' (S attempt) in
          (rest.1,
           Request attempt
           :: (if (attempt <? max_retries c)%nat then [Sleep] else [])
           ++ rest.2)
      end
  end.

(** [LeanSearchClient._search_web] *)
Definition _search_web (c : LeanSearchClient) (concept_name : string)
  : list LeanSearchResult * list search_event :=
  search_attempts c concept_name (S (max_retries c)) 0.

(** The events of [k] failed attempts from attempt [from] on, each followed
    by a pause. *)
Definition failed_attempts (from k : nat) : list search_event :=
  flat_map (λ j, [Request j; Sleep]) (seq from k).

(** A client whose first two requests fail. *)
Definition sample_search_client : LeanSearchClient :=
  {| max_retries := 3;
     post := λ _ attempt, if (attempt <? 2)%nat then None else Some "[]";
     _parse_search_output := λ _, Some [mkSearchResult "Nat.add" None] |}.

(** * Properties *)

(** ** Strings *)

Lemma lower_char_idem c : lower_char (lower_char c) = lower_char c.
Proof. destruct c as [[] [] [] [] [] [] [] []]; reflexivity. Qed.

Lemma is_space_lower_char c : is_space (lower_char c) = is_space c.
Proof. destruct c as [[] [] [] [] [] [] [] []]; reflexivity. Qed.

Lemma lower_idem s : lower (lower s) = lower s.
Proof. induction s as [|c r IH]; simpl; [done|]. by rewrite lower_char_idem, IH. Qed.

Lemma lower_lstrip s : lower (lstrip s) = lstrip (lower s).
Proof.
  induction s as [|c r IH]; simpl; [done|].
  rewrite is_space_lower_char. by destruct (is_space c).
Qed.

Lemma lower_rstrip s : lower (rstrip s) = rstrip (lower s).
Proof.
  induction s as [|c r IH]; simpl; [done|].
  rewrite <- IH, is_space_lower_char.
  destruct (rstrip r); simpl; [by destruct (is_space c)|done].
Qed.

Lemma lower_strip_comm s : lower (strip s) = strip (lower s).
Proof. unfold strip. by rewrite lower_rstrip, lower_lstrip. Qed.

Lemma rstrip_idem s : rstrip (rstrip s) = rstrip s.
Proof.
  induction s as [|c r IH]; simpl; [done|].
  destruct (rstrip r) as [|b t] eqn:E.
  - destruct (is_space c) eqn:Ec; simpl; [done|]. by rewrite Ec.
  - change (rstrip (String c (String b t))) with
      (match rstrip (String b t) with
       | EmptyString => if is_space c then EmptyString else String c EmptyString
       | r' => String c r'
       end).
    by rewrite IH.
Qed.

(** A string that does not start with white space keeps its first
    character under [rstrip]. *)
Lemma rstrip_head c r :
  is_space c = false → ∃ t, rstrip (String c r) = String c t.
Proof.
  intros Hc. simpl. destruct (rstrip r); [rewrite Hc|]; eauto.
Qed.

Lemma lstrip_head s :
  lstrip s = EmptyString ∨ ∃ c r, lstrip s = String c r ∧ is_space c = false.
Proof.
  induction s as [|c r IH]; simpl; [by left|].
  destruct (is_space c) eqn:Ec; [done|]. right. eauto.
Qed.

Lemma strip_idem s : strip (strip s) = strip s.
Proof.
  unfold strip. destruct (lstrip_head s) as [->|(c & r & -> & Hc)]; [done|].
  destruct (rstrip_head c r Hc) as [t Ht]. rewrite Ht.
  simpl lstrip. rewrite Hc, <- Ht. apply rstrip_idem.
Qed.

(** The key under which [add_node] indexes a name is the key under which
    the planner looks it up. *)
Lemma lower_strip_strip s : lower_strip (strip s) = lower_strip s.
Proof. unfold lower_strip. by rewrite lower_strip_comm, strip_idem. Qed.

Lemma lower_strip_idem s : lower_strip (lower_strip s) = lower_strip s.
Proof.
  unfold lower_strip. by rewrite lower_strip_comm, strip_idem, lower_idem.
Qed.

(** ** The concept graph *)

Lemma find_node_by_name_key g nm :
  find_node_by_name g (lower_strip nm) = find_node_by_name g nm.
Proof. unfold find_node_by_name. by rewrite lower_strip_idem. Qed.

Lemma add_node_fst g nm par : (add_node g nm par).1 = length (nodes g).
Proof. done. Qed.

Lemma add_node_length g nm par :
  length (nodes (add_node g nm par).2) = S (length (nodes g)).
Proof. simpl. rewrite length_app, length_alter. simpl. lia. Qed.

Lemma add_node_lookup_new g nm par :
  nodes (add_node g nm par).2 !! length (nodes g)
  = Some (ConceptNode_init (length (nodes g)) nm (Some par)).
Proof.
  simpl. rewrite lookup_app_r; rewrite length_alter; [|lia].
  by rewrite Nat.sub_diag.
Qed.

Lemma add_node_lookup_old g nm par i :
  i < length (nodes g) →
  nodes (add_node g nm par).2 !! i
  = alter (append_dependency (length (nodes g))) par (nodes g) !! i.
Proof. intros Hi. simpl. apply lookup_app_l. by rewrite length_alter. Qed.

Lemma add_node_index g nm par :
  _nodes_by_name (add_node g nm par).2
  = <[ lower_strip nm := length (nodes g) ]> (_nodes_by_name g).
Proof. simpl. by rewrite lower_strip_strip. Qed.

Lemma name_append_dependency d n : name (append_dependency d n) = name n.
Proof. done. Qed.

(** An update of a node in place that keeps its name keeps the index
    right. *)
Lemma name_indexed_alter g f i :
  (∀ n, name (f n) = name n) →
  name_indexed g → name_indexed (set_nodes g (alter f i (nodes g))).
Proof.
  intros Hf Hg j n. simpl. destruct (decide (i = j)) as [->|Hne].
  - rewrite list_lookup_alter_eq. destruct (nodes g !! j) as [m|] eqn:E; [|done].
    simpl. intros [= <-]. rewrite Hf. by apply Hg.
  - rewrite list_lookup_alter_ne by done. apply Hg.
Qed.

Lemma name_indexed_init s : name_indexed (ConceptualGraph_init s).
Proof.
  intros [|i] n; simpl; [|done]. intros [= <-]. simpl.
  apply lookup_singleton_eq.
Qed.

(** [add_node] on a name that the index does not hold keeps the index
    right. *)
Lemma name_indexed_add_node g nm par :
  name_indexed g → find_node_by_name g nm = None →
  name_indexed (add_node g nm par).2.
Proof.
  intros Hg Hnone i n Hi. rewrite add_node_index.
  destruct (decide (i < length (nodes g))) as [Hlt|Hge].
  - rewrite add_node_lookup_old in Hi by done.
    assert (∃ m, nodes g !! i = Some m ∧ name n = name m) as (m & Hm & ->).
    { destruct (decide (par = i)) as [->|Hne].
      - rewrite list_lookup_alter_eq in Hi.
        destruct (nodes g !! i) as [m|]; [|done]. injection Hi as <-. eauto.
      - rewrite list_lookup_alter_ne in Hi by done. eauto. }
    rewrite lookup_insert_ne; [by apply Hg|].
    intros Heq. apply Hg in Hm. unfold find_node_by_name in Hnone. congruence.
  - assert (i = length (nodes g)) as ->.
    { apply lookup_lt_Some in Hi. rewrite add_node_length in Hi. lia. }
    rewrite add_node_lookup_new in Hi. injection Hi as <-. simpl.
    rewrite lower_strip_strip. apply lookup_insert_eq.
Qed.

(** What [link_dependency] does on a name that is already known: no node
    is created, the index is left alone, and the known node becomes a
    dependency of the current one. *)
Lemma link_existing chk current st nm existing :
  is_empty (lower_strip nm) = false →
  find_node_by_name (graph st) nm = Some existing →
  length (nodes (graph (link_dependency chk current st nm)))
  = length (nodes (graph st))
  ∧ _nodes_by_name (graph (link_dependency chk current st nm))
    = _nodes_by_name (graph st)
  ∧ (current < length (nodes (graph st)) →
     chk = false ∨ existing ≠ current →
     existing ∈ node_dependencies (graph (link_dependency chk current st nm))
                  current).
Proof.
  intros Hne Hfind. unfold link_dependency.
  rewrite Hne, find_node_by_name_key, Hfind.
  destruct (chk && bool_decide (existing = current)) eqn:Hself.
  { split; [done|]. split; [done|]. intros _ [->|Hd]; [done|].
    apply andb_true_iff in Hself as [_ Hb]. by apply bool_decide_eq_true in Hb. }
  destruct (bool_decide (existing ∈ node_dependencies (graph st) current))
    eqn:Hin.
  { apply bool_decide_eq_true in Hin. by repeat split. }
  simpl.
  rewrite length_alter. split; [done|]. split; [done|]. intros Hlt _.
  unfold node_dependencies. simpl. rewrite list_lookup_alter_eq.
  destruct (lookup_lt_is_Some_2 _ _ Hlt) as [n ->]. simpl.
  apply elem_of_app. right. by apply list_elem_of_singleton.
Qed.

Lemma name_indexed_link chk current st nm :
  name_indexed (graph st) →
  name_indexed (graph (link_dependency chk current st nm)).
Proof.
  intros Hg. unfold link_dependency.
  destruct (is_empty (lower_strip nm)); [done|].
  rewrite find_node_by_name_key.
  destruct (find_node_by_name (graph st) nm) as [existing|] eqn:Hfind.
  - destruct (chk && bool_decide (existing = current)); [done|].
    destruct (bool_decide (existing ∈ _)); [done|]. simpl.
    by apply name_indexed_alter.
  - pose proof (name_indexed_add_node _ nm current Hg Hfind) as Hadd.
    destruct (add_node (graph st) nm current) as [new g'] eqn:Eadd.
    simpl in Hadd. by case_bool_decide.
Qed.

Lemma name_indexed_links chk current names st :
  name_indexed (graph st) →
  name_indexed (graph (foldl (link_dependency chk current) st names)).
Proof.
  revert st. induction names as [|nm names IH]; intros st Hg; simpl; [done|].
  apply IH. by apply name_indexed_link.
Qed.

Lemma name_indexed_update f i st :
  (∀ n, name (f n) = name n) →
  name_indexed (graph st) → name_indexed (graph (update_node f i st)).
Proof. intros Hf Hg. simpl. by apply name_indexed_alter. Qed.

Lemma name_indexed_process p image st current :
  name_indexed (graph st) →
  name_indexed (graph (process_node p image st current)).
Proof.
  intros Hg. unfold process_node.
  case_bool_decide; [by apply name_indexed_update|].
  destruct (nonempty _); [by apply name_indexed_update|].
  apply name_indexed_links. by apply name_indexed_update.
Qed.

Lemma name_indexed_start p statement image :
  name_indexed (graph (planner_start p statement image)).
Proof.
  unfold planner_start. apply name_indexed_links.
  apply name_indexed_update; [done|]. apply name_indexed_init.
Qed.

Lemma name_indexed_run_queue p image fuel st g :
  run_queue p image fuel st = Some g →
  name_indexed (graph st) → name_indexed g.
Proof.
  revert st. induction fuel as [|fuel IH]; intros st; simpl.
  - destruct (queue st); [|done]. by intros [= <-].
  - destruct (queue st) as [|current rest]; [by intros [= <-]|].
    intros Hrun Hg. eapply IH; [exact Hrun|].
    by apply name_indexed_process.
Qed.

(** C2, as stated, fails: on the graph of the statement "s", [add_node]
    with the name "S" (whose key "s" is the root's) answers a new node 1,
    not the root 0. *)
Lemma add_node_dedup_counterexample : ¬ add_node_dedup_claim.
Proof.
  intros H.
  assert (find_node_by_name (ConceptualGraph_init "s") "S" = Some 0) as Hf
    by (vm_compute; reflexivity).
  destruct (H _ 0 _ _ Hf) as [H1 _]. vm_compute in H1. discriminate H1.
Qed.

(** C2, amended: [add_node] always creates a node with a fresh identity,
    makes it a dependency of the parent and points the index entry of its
    key at it, also when the key was present; the deduplication is the
    planner's, which looks a name up first, and on a known name creates
    nothing, leaves the index alone and appends an edge from the current
    node to the known one. *)
Theorem add_node_creates_and_planner_links :
  (∀ g nm par,
     (add_node g nm par).1 = length (nodes g)
     ∧ length (nodes (add_node g nm par).2) = S (length (nodes g))
     ∧ nodes (add_node g nm par).2 !! length (nodes g)
       = Some (ConceptNode_init (length (nodes g)) nm (Some par))
     ∧ _nodes_by_name (add_node g nm par).2 !! lower_strip nm
       = Some (length (nodes g))
     ∧ (par < length (nodes g) →
        node_dependencies (add_node g nm par).2 par
        = node_dependencies g par ++ [length (nodes g)]))
  ∧ (∀ chk current st nm existing,
       is_empty (lower_strip nm) = false →
       find_node_by_name (graph st) nm = Some existing →
       length (nodes (graph (link_dependency chk current st nm)))
       = length (nodes (graph st))
       ∧ _nodes_by_name (graph (link_dependency chk current st nm))
         = _nodes_by_name (graph st)
       ∧ (current < length (nodes (graph st)) →
          chk = false ∨ existing ≠ current →
          existing ∈ node_dependencies
                       (graph (link_dependency chk current st nm)) current)).
Proof.
  split; [|apply link_existing].
  intros g nm par. split; [done|]. split; [apply add_node_length|].
  split; [apply add_node_lookup_new|]. split.
  - rewrite add_node_index. apply lookup_insert_eq.
  - intros Hlt. unfold node_dependencies.
    rewrite add_node_lookup_old, list_lookup_alter_eq by done.
    by destruct (lookup_lt_is_Some_2 _ _ Hlt) as [n ->].
Qed.

Lemma add_node_creates_and_planner_links_witness :
  let st := planner_start (sample_planner expand_shared) "s" None in
  node_dependencies (add_node (graph st) "S" 0).2 0
  = node_dependencies (graph st) 0 ++ [length (nodes (graph st))]
  ∧ 1 ∈ node_dependencies (graph (link_dependency true 2 st "X ")) 2.
Proof.
  split.
  - apply (proj1 add_node_creates_and_planner_links). vm_compute. lia.
  - apply (proj2 add_node_creates_and_planner_links true 2 _ "X " 1).
    + reflexivity.
    + vm_compute. reflexivity.
    + vm_compute. lia.
    + right. discriminate.
Defined.

(** C4: in the graph that a decomposition run returns, two nodes with the
    same normalized name (trimmed, lower case) are the same node; and when
    a name recurs, the planner creates no node and the known node gets one
    more incoming edge. *)
Theorem planner_dedup_invariant :
  (∀ p fuel statement image g,
     planner_run p fuel statement image = Some g →
     ∀ i j ni nj,
       nodes g !! i = Some ni → nodes g !! j = Some nj →
       lower_strip (name ni) = lower_strip (name nj) → i = j)
  ∧ (∀ chk current st nm existing,
       is_empty (lower_strip nm) = false →
       find_node_by_name (graph st) nm = Some existing →
       current < length (nodes (graph st)) →
       chk = false ∨ existing ≠ current →
       length (nodes (graph (link_dependency chk current st nm)))
       = length (nodes (graph st))
       ∧ existing ∈ node_dependencies
                      (graph (link_dependency chk current st nm)) current).
Proof.
  split.
  - intros p fuel statement image g Hrun i j ni nj Hi Hj Hkey.
    assert (name_indexed g) as Hg.
    { eapply name_indexed_run_queue; [exact Hrun|].
      apply name_indexed_start. }
    apply Hg in Hi. apply Hg in Hj. congruence.
  - intros chk current st nm existing Hne Hfind Hlt Hself.
    destruct (link_existing chk current st nm existing Hne Hfind)
      as (Hlen & _ & Hdep). auto.
Qed.

(** Scenario D of the specification: "x" and "y" both name "z"; the graph
    has one node for "z" (node 3), a dependency of both. *)
Lemma planner_dedup_invariant_witness :
  ∃ g, planner_run (sample_planner expand_shared) 10 "s" None = Some g
       ∧ length (nodes g) = 4
       ∧ node_dependencies g 1 = [3] ∧ node_dependencies g 2 = [3]
       ∧ (∀ i j ni nj,
            nodes g !! i = Some ni → nodes g !! j = Some nj →
            lower_strip (name ni) = lower_strip (name nj) → i = j)
       ∧ (let st := planner_start (sample_planner expand_shared) "s" None in
          length (nodes (graph (link_dependency true 2 st "X ")))
          = length (nodes (graph st))
          ∧ 1 ∈ node_dependencies (graph (link_dependency true 2 st "X ")) 2).
Proof.
  eexists. split; [vm_compute; reflexivity|].
  split; [reflexivity|]. split; [reflexivity|]. split; [reflexivity|]. split.
  - apply (proj1 planner_dedup_invariant (sample_planner expand_shared) 10
             "s" None).
    vm_compute. reflexivity.
  - apply (proj2 planner_dedup_invariant true 2 _ "X " 1).
    + reflexivity.
    + vm_compute. reflexivity.
    + vm_compute. lia.
    + right. discriminate.
Defined.

(** C1 (defect of the code): the statement "s" is expanded to "a", and "a"
    is expanded to "S", which the planner links to the root.  In the graph
    of this run node 1 ("a") depends on the root 0, and [get_build_order]
    lists node 1 before node 0: a dependency after the node that depends on
    it.  Each node is listed once. *)
Theorem build_order_breaks_on_link_to_root :
  ∃ g, planner_run (sample_planner expand_cycle) 10 "s" None = Some g
       ∧ node_dependencies g 0 = [1]
       ∧ node_dependencies g 1 = [0]
       ∧ ∀ room, get_build_order (3 + room) g = Some [1; 0].
Proof.
  eexists. split; [vm_compute; reflexivity|].
  split; [reflexivity|]. split; [reflexivity|]. intros room.
  vm_compute. reflexivity.
Qed.

(** ** The knowledge base *)

Lemma omap_as_entry_fmap (m : gmap string kb_entry) :
  omap as_entry (KBDict <$> m) = m.
Proof.
  apply map_eq. intros k. rewrite lookup_omap, lookup_fmap.
  by destruct (m !! k).
Qed.

Lemma load_file_dict data :
  load_knowledge_base (FileDict data) = Loaded (omap as_entry data).
Proof. done. Qed.

(** What a save leaves loads without an exception when what it found
    did. *)
Lemma load_written (m : gmap string kb_entry) :
  load_knowledge_base (FileDict (KBDict <$> m)) = Loaded m.
Proof. cbn. by rewrite omap_as_entry_fmap. Qed.

Lemma size_omap_entries (data : gmap string kb_value) :
  (size (omap as_entry data : gmap string kb_entry) ≤ size data)%nat
  ∧ (size (omap as_entry data : gmap string kb_entry) = size data
     ↔ ∀ k v, data !! k = Some v → is_Some (as_entry v)).
Proof.
  induction data as [|k v m Hk IH] using map_ind.
  - rewrite omap_empty, !map_size_empty. split; [done|]. split; [|done].
    intros _ k v. by rewrite lookup_empty.
  - destruct IH as [Hle Hiff].
    assert ((omap as_entry m : gmap string kb_entry) !! k = None) as Hok
      by by rewrite lookup_omap, Hk.
    rewrite (map_size_insert_None k v m Hk).
    destruct (as_entry v) as [e|] eqn:Hv.
    + rewrite (omap_insert_Some _ _ _ _ e Hv), map_size_insert_None by done.
      split; [lia|]. split.
      * intros Hsz i x. destruct (decide (k = i)) as [->|Hne].
        -- rewrite lookup_insert_eq. intros [= <-]. by rewrite Hv.
        -- rewrite lookup_insert_ne by done. apply Hiff. lia.
      * intros Hall. f_equal. apply Hiff. intros i x Hi. apply (Hall i).
        rewrite lookup_insert_ne; [done|]. intros ->. congruence.
    + rewrite (omap_insert_None _ _ _ _ Hv), delete_id by done.
      split; [lia|]. split; [lia|].
      intros Hall. destruct (Hall k v) as [e He]; [apply lookup_insert_eq|].
      congruence.
Qed.

(** The warning of the load is given exactly when a value that is not an
    object was dropped. *)
Lemma load_warns_iff data :
  load_warns_invalid (FileDict data) = true
  ↔ ∃ k j, data !! k = Some (KBOther j).
Proof.
  simpl. rewrite negb_true_iff, Nat.eqb_neq.
  destruct (size_omap_entries data) as [_ Hiff]. rewrite Hiff. split.
  - intros Hnot.
    destruct (decide (map_Forall (λ _ v, is_Some (as_entry v)) data))
      as [Hall|Hex]; [by destruct Hnot|].
    apply map_not_Forall in Hex; [|apply _].
    destruct Hex as (k & v & Hk & Hv). destruct v as [e|j]; [|by eauto].
    destruct Hv. by eexists.
  - intros (k & j & Hk) Hall. by destruct (Hall k _ Hk).
Qed.

(** C9, as stated, fails: the file that holds the one entry "a", with the
    dependency "b" and no entry "b", is loaded with the entry "a". *)
Lemma load_resolvable_counterexample : ¬ load_resolvable_claim.
Proof.
  intros H.
  destruct (H ∅ (FileDict {[ "a" := KBDict (mkEntry (Some "c") (Some ["b"])) ]})
              "a" (mkEntry (Some "c") (Some ["b"])) ["b"] "b"
              {[ "a" := mkEntry (Some "c") (Some ["b"]) ]})
    as [Hg|[e He]].
  - vm_compute. reflexivity.
  - vm_compute. reflexivity.
  - reflexivity.
  - apply list_elem_of_singleton. reflexivity.
  - set_solver.
  - vm_compute in He. discriminate He.
Qed.

(** C9, amended: on a file that holds a JSON object the load returns, and
    it returns exactly the entries whose value is a JSON object, whatever
    their dependency lists say: an entry with a dependency that cannot be
    resolved is kept, and never makes the load fail.  Values of another
    shape are dropped, and the warning is given exactly when one was. *)
Theorem load_keeps_every_object_entry data :
  ∃ kb,
    load_knowledge_base (FileDict data) = Loaded kb
    ∧ (∀ k e, data !! k = Some (KBDict e) → kb !! k = Some e)
    ∧ (∀ k j, data !! k = Some (KBOther j) → kb !! k = None)
    ∧ (∀ k, data !! k = None → kb !! k = None)
    ∧ (load_warns_invalid (FileDict data) = true
       ↔ ∃ k j, data !! k = Some (KBOther j)).
Proof.
  exists (omap as_entry data). split; [done|].
  split; [|split; [|split; [|apply load_warns_iff]]].
  all: intros k; intros; rewrite lookup_omap; by simplify_option_eq.
Qed.

Lemma load_keeps_every_object_entry_witness :
  ∃ kb,
    load_knowledge_base
      (FileDict {[ "a" := KBDict (mkEntry (Some "c") (Some ["b"])) ]})
    = Loaded kb
    ∧ kb !! "a" = Some (mkEntry (Some "c") (Some ["b"]))
    ∧ kb !! "b" = None.
Proof.
  destruct (load_keeps_every_object_entry
              {[ "a" := KBDict (mkEntry (Some "c") (Some ["b"])) ]})
    as (kb & Hload & Hkeep & _ & Hnone & _).
  exists kb. split; [exact Hload|]. split.
  - apply Hkeep. vm_compute. reflexivity.
  - apply Hnone. vm_compute. reflexivity.
Defined.

(** One item of the cache never touches the key of the root. *)
Lemma save_item_root_key g root_key node_key code kb :
  save_item g root_key node_key code kb !! root_key = kb !! root_key.
Proof.
  unfold save_item. destruct (String.eqb_spec node_key root_key); [done|].
  destruct (find_node_by_name g node_key); [|done].
  by rewrite lookup_insert_ne.
Qed.

Lemma merged_kb_root_key cache g existing_kb :
  merged_kb cache g existing_kb !! lower_strip (node_name g (root g))
  = existing_kb !! lower_strip (node_name g (root g)).
Proof.
  unfold merged_kb.
  apply (map_fold_weak_ind
           (λ r _, r !! lower_strip (node_name g (root g))
                   = existing_kb !! lower_strip (node_name g (root g))));
    [done|].
  intros k code m r _ IH. by rewrite save_item_root_key.
Qed.

(** C3, as stated, fails: an entry that an earlier run persisted under the
    key "s" is still there after a save for the graph whose root is "s". *)
Lemma root_excluded_counterexample : ¬ root_excluded_claim.
Proof.
  intros H.
  assert (load_knowledge_base
            (file_after
               (save_verified_nodes Written ∅ (ConceptualGraph_init "s")
                  (FileDict
                     {[ "s" := KBDict (mkEntry (Some "c") (Some [])) ]})))
          = Loaded {[ "s" := mkEntry (Some "c") (Some []) ]}) as Hload.
  { vm_compute. reflexivity. }
  apply H in Hload. vm_compute in Hload. discriminate Hload.
Qed.

(** C3, amended: a save never creates or changes the entry under the key of
    the root ([root.name.lower().strip()]), whatever the keys of the run
    cache are: the dict it writes holds under that key what was loaded, and
    an entry found there afterwards was persisted, unchanged, before. *)
Theorem save_never_writes_root_key w cache g f :
  (∀ existing_kb,
     merged_kb cache g existing_kb !! lower_strip (node_name g (root g))
     = existing_kb !! lower_strip (node_name g (root g)))
  ∧ ∀ kb' e,
      load_knowledge_base (file_after (save_verified_nodes w cache g f))
      = Loaded kb' →
      kb' !! lower_strip (node_name g (root g)) = Some e →
      ∃ kb, load_knowledge_base f = Loaded kb
            ∧ kb !! lower_strip (node_name g (root g)) = Some e.
Proof.
  split; [apply merged_kb_root_key|]. intros kb' e.
  unfold save_verified_nodes.
  destruct (load_knowledge_base f) as [kb|msg] eqn:Hload.
  2: { cbn [file_after]. by rewrite Hload. }
  destruct w; cbn [file_after].
  - rewrite load_written. intros [= <-]. rewrite merged_kb_root_key. eauto.
  - rewrite Hload. intros [= <-]. eauto.
  - intros [= <-]. by rewrite lookup_empty.
  - intros [= <-]. by rewrite lookup_empty.
Qed.

Lemma save_never_writes_root_key_witness :
  ∃ kb,
    load_knowledge_base
      (FileDict {[ "s" := KBDict (mkEntry (Some "c") (Some [])) ]}) = Loaded kb
    ∧ kb !! "s" = Some (mkEntry (Some "c") (Some [])).
Proof.
  apply (proj2 (save_never_writes_root_key Written
                  {[ "s" := "root code"; "x" := "code of x" ]}
                  (ConceptualGraph_init "s")
                  (FileDict {[ "s" := KBDict (mkEntry (Some "c") (Some [])) ]}))
           {[ "s" := mkEntry (Some "c") (Some []) ]}).
  - vm_compute. reflexivity.
  - vm_compute. reflexivity.
Defined.

(** ** The alignment stage *)

Lemma is_level_spec lvl j : is_level lvl j = true ↔ j = JStr lvl.
Proof.
  destruct j; simpl; try (split; [discriminate|by intros [=]]).
  rewrite String.eqb_eq. split; [by intros ->|by intros [= ->]].
Qed.

Lemma accepted_level_spec j :
  is_level "level_1" j || is_level "level_2" j = true
  ↔ j = JStr "level_1" ∨ j = JStr "level_2".
Proof. by rewrite orb_true_iff, !is_level_spec. Qed.

(** The save is called exactly on a judgment of level 1 or 2, and the
    outcome tells which, and how the save ended. *)
Lemma alignment_run_cases llm loads room w original cache g image kb :
  let out := alignment_run llm loads room w original cache g image kb in
  let saved := save_verified_nodes w cache g kb in
  (save_called out = true
   ↔ ∃ lvl, judged_level llm loads room original cache g image = Some lvl
            ∧ (lvl = JStr "level_1" ∨ lvl = JStr "level_2"))
  ∧ (save_called out = true →
     kb_after out = file_after saved
     ∧ (save_raised saved = None →
        ∃ report, align_res out = Aligned true report)
     ∧ (∀ msg, save_raised saved = Some msg → align_res out = AlignRaised msg))
  ∧ (save_called out = false →
     kb_after out = kb ∧ ∀ report, align_res out ≠ Aligned true report).
Proof.
  unfold alignment_run, judged_level.
  destruct (get_build_order room g) as [build_order|]; simpl.
  2: { split; [|done]. split; [done|]. by intros (? & ? & _). }
  case_bool_decide as Hseg; simpl.
  { split; [|done]. split; [done|]. by intros (? & ? & _). }
  destruct (loads _) as [[| | | | |report]|]; simpl;
    try (split; [|done]; split; [done|]; by intros (? & ? & _)).
  destruct (is_level "level_1" _ || is_level "level_2" _) eqn:Hlvl; simpl.
  - apply accepted_level_spec in Hlvl.
    destruct (save_raised (save_verified_nodes w cache g kb)) as [msg|];
      simpl.
    + split; [split; [eauto|done]|]. split; [|done]. intros _.
      split; [done|]. split; [done|]. by intros ? [= <-].
    + split; [split; [eauto|done]|]. split; [|done]. intros _.
      split; [done|]. split; [eauto|done].
  - split; [|done]. split; [done|]. intros (lvl & [= <-] & Hacc).
    apply accepted_level_spec in Hacc. congruence.
Qed.

(** C8: the save into the knowledge base is called exactly when the
    consistency judgment is level 1 or level 2.  Otherwise (level 3, any
    other level, output that is not a JSON object, or that does not decode)
    the file of the knowledge base is left as it was, the record says
    semantic-accepted = false, and it still carries the compiled code with
    compilation-accepted = true: the two flags are reported separately.
    The record says semantic-accepted = true exactly when the save was
    called and no exception left it. *)
Theorem alignment_gates_the_save :
  (∀ llm loads room w original cache g image kb,
     let out := alignment_run llm loads room w original cache g image kb in
     let saved := save_verified_nodes w cache g kb in
     (save_called out = true
      ↔ ∃ lvl, judged_level llm loads room original cache g image = Some lvl
               ∧ (lvl = JStr "level_1" ∨ lvl = JStr "level_2"))
     ∧ (save_called out = true →
        kb_after out = file_after saved
        ∧ (save_raised saved = None →
           ∃ report, align_res out = Aligned true report)
        ∧ (∀ msg, save_raised saved = Some msg →
                  align_res out = AlignRaised msg))
     ∧ (save_called out = false →
        kb_after out = kb ∧ ∀ report, align_res out ≠ Aligned true report))
  ∧ (∀ env question img g kb code st,
       synthesizer_run (GoTSynthesizer_init env) g
         (if USE_MULTIMODAL env then img else None) = Returned code st →
       contains "-- FATAL:" code = false →
       let r := process_graph env question img g kb in
       let out := alignment_run (env_llm env) (env_json_loads env)
                    (env_stack_room env) (env_write env) question
                    (synthesized_cache st) g img kb in
       let saved := save_verified_nodes (env_write env) (synthesized_cache st)
                      g kb in
       r.2 = kb_after out
       ∧ compilation_passed r.1 = true
       ∧ generated_code r.1 = code
       ∧ (save_called out = false → semantic_passed r.1 = false)
       ∧ (save_called out = true →
          semantic_passed r.1 = bool_decide (save_raised saved = None))).
Proof.
  split; [apply alignment_run_cases|].
  intros env question img g kb code st Hrun Hfatal. unfold process_graph.
  rewrite Hrun, Hfatal.
  pose proof (alignment_run_cases (env_llm env) (env_json_loads env)
                (env_stack_room env) (env_write env) question
                (synthesized_cache st) g img kb) as (_ & Hyes & Hno).
  cbv zeta in *.
  destruct (alignment_run _ _ _ _ _ _ _ _ _) as [res kb' called]; simpl in *.
  destruct res as [is_consistent report|msg]; simpl.
  - repeat split; try done.
    + intros ->. destruct (Hno eq_refl) as (_ & Hne).
      destruct is_consistent; [|done]. by destruct (Hne report).
    + intros ->. destruct (Hyes eq_refl) as (_ & Hret & Hraise).
      destruct (save_raised _) as [msg|].
      * by specialize (Hraise msg eq_refl).
      * destruct (Hret eq_refl) as [report' [= -> _]]. done.
  - repeat split; try done. intros ->.
    destruct (Hyes eq_refl) as (_ & Hret & _).
    destruct (save_raised _) as [msg'|]; [done|].
    by destruct (Hret eq_refl) as [report' [=]].
Qed.

(** A run judged level 3 after a successful compilation (scenario C), and
    the same run judged level 1. *)
Lemma alignment_gates_the_save_witness :
  (let r := process_graph (sample_env expand_shared "level_1" "level_3" true) "s" None
              (planner_start (sample_planner (λ _, [])) "s" None).(graph)
              FileMissing in
   compilation_passed r.1 = true ∧ semantic_passed r.1 = false
   ∧ r.2 = FileMissing)
  ∧ (let out := alignment_run (sample_llm expand_shared "level_1" "level_1")
                  sample_loads 1000 Written "s" {[ "s" := "def x := s" ]}
                  (ConceptualGraph_init "s") None FileMissing in
     save_called out = true
     ∧ kb_after out
       = file_after
           (save_verified_nodes Written {[ "s" := "def x := s" ]}
              (ConceptualGraph_init "s") FileMissing)).
Proof.
  split.
  - pose proof (proj2 alignment_gates_the_save
                  (sample_env expand_shared "level_1" "level_3" true) "s" None
                  (planner_start (sample_planner (λ _, [])) "s" None).(graph)
                  FileMissing) as H.
    edestruct H as (Hout & Hc & _ & Hs & _);
      [vm_compute; reflexivity|vm_compute; reflexivity|].
    cbv zeta in Hout, Hs. split; [exact Hc|].
    split; [apply Hs; clear; vm_compute; reflexivity|].
    rewrite Hout. clear. vm_compute. reflexivity.
  - pose proof (proj1 alignment_gates_the_save
                  (sample_llm expand_shared "level_1" "level_1") sample_loads
                  1000 Written "s"
                  {[ "s" := "def x := s" ]} (ConceptualGraph_init "s") None
                  FileMissing) as (Hiff & Hyes & _).
    assert (save_called
              (alignment_run (sample_llm expand_shared "level_1" "level_1")
                 sample_loads 1000
                 Written "s" {[ "s" := "def x := s" ]}
                 (ConceptualGraph_init "s") None FileMissing) = true) as Hc.
    { apply Hiff. exists (JStr "level_1"). split; [|by left].
      vm_compute. reflexivity. }
    split; [exact Hc|]. exact (proj1 (Hyes Hc)).
Defined.

(** ** The assembled document keeps the failure marker *)







(** Characters that are not line boundaries stay at the start of the first
    line. *)






(** ** The workers *)






(** C6: a worker on the root node whose first candidate the semantic
    pre-check judges level 3 (also by default, when the report names no
    level) returns nothing after one generation, one back-translation and
    one judgment: it makes no compile call and no further attempt. *)
Theorem root_gate_aborts_worker self worker_id node_name ctx chunks imports
    image question report :
  let site := mkCall node_name worker_id 0 in
  let candidate :=
    run_synthesis_module (synth_llm self) site node_name ctx image in
  let worker :=
    _synthesis_worker self worker_id node_name ctx chunks imports image
      question true in
  ATTEMPTS_PER_WORKER self ≠ 0 →
  stop_is_set self site = false →
  is_empty (strip candidate) = false →
  is_empty question = false →
  json_loads self
    (run_semantic_check (synth_llm self) (Some site) question
       (run_back_translation (synth_llm self) (Some site) node_name candidate
          "(Context omitted for pre-check)") image) = Some (JObj report) →
  dict_get report "consistency_level" (JStr "level_3") = JStr "level_3" →
  worker = (None, [CallSynthesis; CallBackTranslation; CallSemanticCheck])
  ∧ compile_calls worker.2 = 0
  ∧ generation_calls worker.2 = 1.
Proof.
  intros site candidate worker Hattempts Hstop Hcode Hq Hreport Hlevel.
  assert (worker
          = (None, [CallSynthesis; CallBackTranslation; CallSemanticCheck]))
    as Hw; [|by rewrite Hw].
  unfold worker, _synthesis_worker.
  destruct (ATTEMPTS_PER_WORKER self) as [|remaining]; [done|].
  cbn [worker_attempts]. fold site. rewrite Hstop. cbn [Nat.eqb].
  fold candidate.
  assert (is_empty candidate = false) as ->.
  { destruct candidate; [done|done]. }
  rewrite Hcode. cbn [orb]. unfold semantic_gate. cbn [call_attempt Nat.eqb].
  rewrite Hq. cbn [negb andb]. fold site. rewrite Hreport, Hlevel.
  reflexivity.
Qed.

Lemma root_gate_aborts_worker_witness :
  _synthesis_worker (GoTSynthesizer_init
                       (sample_env expand_shared "level_3" "level_1" true))
    0 "s" "" [] BASE_IMPORTS None "s" true
  = (None, [CallSynthesis; CallBackTranslation; CallSemanticCheck]).
Proof.
  apply (root_gate_aborts_worker
           (GoTSynthesizer_init
              (sample_env expand_shared "level_3" "level_1" true))
           0 "s" "" [] BASE_IMPORTS None "s"
           [("consistency_level", JStr "level_3")]);
    try reflexivity.
  vm_compute. discriminate.
Defined.

(** ** The scheduler *)




(** ** The search for missing dependencies *)

Lemma size_list_to_set_le (l : list string) :
  (size (list_to_set l : gset string) ≤ length l)%nat.
Proof.
  induction l as [|x l IH]; [by rewrite list_to_set_nil, size_empty|].
  rewrite list_to_set_cons, size_union_alt, size_singleton. simpl.
  assert ((list_to_set l ∖ {[x]} : gset string) ⊆ list_to_set l) as Hsub
    by set_solver.
  apply subseteq_size in Hsub. lia.
Qed.

Lemma size_arena_names arena : (size (arena_names arena) ≤ S (length arena))%nat.
Proof.
  unfold arena_names. rewrite size_union_alt, size_singleton.
  pose proof (size_list_to_set_le (map (λ n, _normalize_node_name (name n)) arena))
    as Hle.
  rewrite length_map in Hle.
  assert ((list_to_set (map (λ n, _normalize_node_name (name n)) arena)
           ∖ {[ _normalize_node_name EmptyString ]} : gset string)
          ⊆ list_to_set (map (λ n, _normalize_node_name (name n)) arena))
    as Hsub by set_solver.
  apply subseteq_size in Hsub. lia.
Qed.

Lemma arena_name_elem arena d :
  _normalize_node_name (from_option name EmptyString (arena !! d))
  ∈ arena_names arena.
Proof.
  unfold arena_names. destruct (arena !! d) as [n|] eqn:E; simpl.
  - apply elem_of_union. right. apply elem_of_list_to_set.
    apply list_elem_of_fmap. exists n. split; [done|].
    by eapply list_elem_of_lookup_2.
  - apply elem_of_union. left. by apply elem_of_singleton.
Qed.

Lemma size_difference_insert (U seen : gset string) dn :
  dn ∈ U → dn ∉ seen →
  (size (U ∖ ({[ dn ]} ∪ seen)) < size (U ∖ seen))%nat.
Proof.
  intros HU Hseen. apply subset_size. set_solver.
Qed.

Lemma size_difference_mono (U seen seen' : gset string) :
  seen ⊆ seen' → (size (U ∖ seen') ≤ size (U ∖ seen))%nat.
Proof. intros H. apply subseteq_size. set_solver. Qed.

Lemma classify_dependency_seen self cache grounded dn st :
  col_seen (classify_dependency self cache grounded dn st) = col_seen st.
Proof.
  unfold classify_dependency. by repeat case_bool_decide.
Qed.

(** The search always returns, and [seen] only grows. *)
Lemma collect_dfs_total self arena cache grounded fuel n st :
  (size (arena_names arena ∖ col_seen st) < fuel)%nat →
  ∃ st', collect_dfs self arena cache grounded fuel n st = Some st'
         ∧ col_seen st ⊆ col_seen st'.
Proof.
  revert n st. induction fuel as [|fuel IH]; intros n st Hfuel; [lia|].
  cbn [collect_dfs].
  generalize (from_option dependencies [] (arena !! n)). intros deps.
  revert st Hfuel. induction deps as [|d deps IHd]; intros st Hfuel.
  { by exists st. }
  cbn [foldl]. cbn [mbind option_bind].
  set (dn := _normalize_node_name (from_option name EmptyString (arena !! d))).
  case_bool_decide as Hseen.
  { by apply IHd. }
  destruct (IH d {| col_order := col_order st;
                    col_seen := {[ dn ]} ∪ col_seen st;
                    col_missing := col_missing st |})
    as (st1 & -> & Hsub1).
  { cbn [col_seen].
    pose proof (size_difference_insert (arena_names arena) (col_seen st) dn
                  (arena_name_elem arena d) Hseen). lia. }
  cbn [mbind option_bind]. cbn [col_seen] in Hsub1.
  destruct (IHd (classify_dependency self cache grounded dn st1))
    as (st' & Hst' & Hsub').
  { rewrite classify_dependency_seen.
    assert (col_seen st ⊆ col_seen st1) as Hmono by set_solver.
    apply (size_difference_mono (arena_names arena)) in Hmono. lia. }
  exists st'. split; [exact Hst'|].
  rewrite classify_dependency_seen in Hsub'. set_solver.
Qed.

Lemma collect_total self g node cache grounded :
  is_Some (_collect_transitive_synthesized_code self g node cache grounded).
Proof.
  unfold _collect_transitive_synthesized_code.
  destruct (collect_dfs_total self (nodes g) cache grounded
              (S (S (length (nodes g)))) node
              {| col_order := []; col_seen := ∅; col_missing := ∅ |})
    as (st' & -> & _); [|by eexists].
  cbn [col_seen]. pose proof (size_arena_names (nodes g)) as Hsize.
  assert (arena_names (nodes g) ∖ ∅ = arena_names (nodes g)) as -> by set_solver.
  lia.
Qed.

Lemma classify_dependency_missing self cache grounded dn st :
  col_missing st ⊆ col_missing (classify_dependency self cache grounded dn st)
  ∧ (absent_from_run self cache grounded dn →
     dn ∈ col_missing (classify_dependency self cache grounded dn st)).
Proof.
  unfold classify_dependency, absent_from_run.
  repeat case_bool_decide; simpl; (split; [set_solver|]).
  - intros (Hc & _ & _). destruct H as [x Hx]. congruence.
  - intros (_ & Hg & _). done.
  - intros (_ & _ & Hk). destruct H1 as [x Hx]. congruence.
  - intros _. set_solver.
Qed.

(** What the search establishes: the names of the direct dependencies are
    seen, and every seen name that is absent from the run is reported
    missing. *)
Lemma collect_dfs_classifies self arena cache grounded fuel n st st' pending :
  collect_dfs self arena cache grounded fuel n st = Some st' →
  classified self cache grounded pending st →
  classified self cache grounded pending st'
  ∧ col_seen st ⊆ col_seen st'
  ∧ col_missing st ⊆ col_missing st'
  ∧ ∀ d, d ∈ from_option dependencies [] (arena !! n) →
         _normalize_node_name (from_option name EmptyString (arena !! d))
         ∈ col_seen st'.
Proof.
  revert n st st' pending.
  induction fuel as [|fuel IH]; intros n st st' pending; [done|].
  cbn [collect_dfs].
  generalize (from_option dependencies [] (arena !! n)). intros deps.
  revert st. induction deps as [|d deps IHd]; intros st Hrun Hcl.
  { injection Hrun as <-. repeat split; try done. intros d Hd.
    by apply elem_of_nil in Hd. }
  cbn [foldl] in Hrun. cbn [mbind option_bind] in Hrun.
  set (dn := _normalize_node_name (from_option name EmptyString (arena !! d)))
    in *.
  destruct (bool_decide (dn ∈ col_seen st)) eqn:Hseen.
  { apply bool_decide_eq_true in Hseen.
    destruct (IHd st Hrun Hcl) as (Hcl' & Hs & Hm & Hd).
    repeat split; try done. intros d' [->|Hd']%elem_of_cons; [|by apply Hd].
    fold dn. set_solver. }
  apply bool_decide_eq_false in Hseen.
  destruct (collect_dfs self arena cache grounded fuel d _) as [st1|] eqn:Hrec.
  2: { cbn [mbind option_bind] in Hrun. exfalso. clear -Hrun.
       induction deps as [|d' deps IHd']; [done|]. by apply IHd'. }
  cbn [mbind option_bind] in Hrun.
  destruct (IH d _ st1 ({[ dn ]} ∪ pending) Hrec) as (Hcl1 & Hs1 & Hm1 & _).
  { intros x Hx. cbn [col_seen col_missing] in *.
    apply elem_of_union in Hx as [Hx|Hx]; [left; set_solver|].
    destruct (Hcl x Hx) as [?|?]; [left; set_solver|by right]. }
  cbn [col_seen col_missing] in Hs1, Hm1.
  destruct (classify_dependency_missing self cache grounded dn st1)
    as (Hmono & Hdn).
  destruct (IHd (classify_dependency self cache grounded dn st1) Hrun)
    as (Hcl' & Hs & Hm & Hd).
  { intros x Hx. rewrite classify_dependency_seen in Hx.
    destruct (Hcl1 x Hx) as [Hp|Habs].
    - apply elem_of_union in Hp as [->%elem_of_singleton|Hp];
        [by right|by left].
    - right. intros Ha. apply Hmono. by apply Habs. }
  rewrite classify_dependency_seen in Hs.
  repeat split; try done; [set_solver|set_solver|].
  intros d' [->|Hd']%elem_of_cons; [|by apply Hd]. fold dn. set_solver.
Qed.

(** A direct dependency that is absent from the run makes the list of
    missing names non-empty. *)
Lemma direct_dependency_missing self g node n d cache grounded :
  nodes g !! node = Some n →
  d ∈ dependencies n →
  absent_from_run self cache grounded (_normalize_node_name (node_name g d)) →
  ∃ chunks missing,
    _collect_transitive_synthesized_code self g node cache grounded
    = Some (chunks, missing)
    ∧ missing ≠ [].
Proof.
  intros Hn Hd Habs.
  destruct (collect_total self g node cache grounded) as [[chunks missing] Hc].
  exists chunks, missing. split; [done|].
  unfold _collect_transitive_synthesized_code in Hc.
  destruct (collect_dfs _ _ _ _ _ _ _) as [st'|] eqn:Hrun; [|done].
  cbn [mbind option_bind] in Hc. injection Hc as _ <-.
  destruct (collect_dfs_classifies _ _ _ _ _ _ _ _ ∅ Hrun) as (Hcl & _ & _ & Hseen).
  { intros x Hx. cbn [col_seen] in Hx. set_solver. }
  specialize (Hseen d). rewrite Hn in Hseen. specialize (Hseen Hd).
  destruct (Hcl _ Hseen) as [Hp|Hm]; [set_solver|].
  specialize (Hm Habs). intros Hnil.
  apply elem_of_elements in Hm. rewrite Hnil in Hm. by apply elem_of_nil in Hm.
Qed.


(** C5 (defect of the code): the statement "a  b" (two spaces) is expanded
    to the concept "a b".  The graph keeps them apart (their keys differ),
    but the run cache keys both by "a b": the code admitted for node 1 is
    written under "a b", and the code admitted for the root is written
    under the same key afterwards, so the artifact of node 1 is
    overwritten within the run. *)
Theorem run_cache_overwritten_on_key_collision :
  let env := sample_env expand_collision "level_1" "level_1" true in
  let g := planned expand_collision "a  b" in
  planner_run (sample_planner expand_collision) 10 "a  b" None = Some g
  ∧ name <$> nodes g = ["a  b"; "a b"]
  ∧ ∃ code st,
      synthesizer_run (GoTSynthesizer_init env) g None = Returned code st
      ∧ events st
        = [PoolLaunched 1; CacheWritten "a b" "def x := a b";
           PoolLaunched 0; CacheWritten "a b" "def x := a  b"]
      ∧ synthesized_cache st = {[ "a b" := "def x := a  b" ]}.
Proof.
  cbv zeta. split; [vm_compute; reflexivity|].
  split; [vm_compute; reflexivity|].
  eexists _, _. split; [vm_compute; reflexivity|].
  split; vm_compute; reflexivity.
Qed.

(** The same run, accepted by the alignment: the code of the root is
    persisted, under the key "a b" of node 1 (the key of the root is
    "a  b", which the save never writes). *)
Example save_persists_root_code_on_key_collision :
  let env := sample_env expand_collision "level_1" "level_1" true in
  let g := planned expand_collision "a  b" in
  lower_strip (node_name g (root g)) = "a  b"
  ∧ ∃ kb,
      load_knowledge_base (process_graph env "a  b" None g FileMissing).2
      = Loaded kb
      ∧ kb !! "a b"
        = Some {| kb_code := Some "def x := a  b"; kb_deps := Some [] |}.
Proof.
  cbv zeta. split; [vm_compute; reflexivity|].
  eexists. split; vm_compute; reflexivity.
Qed.

Lemma classified_pending_seen self cache grounded cs :
  classified self cache grounded (col_seen cs) cs.
Proof. intros dn Hdn. by left. Qed.

(** When names are not shared, the search follows every dependency. *)
Lemma collect_dfs_closed self arena cache grounded fuel n st st' pending :
  names_injective arena → deps_in_arena arena →
  collect_dfs self arena cache grounded fuel n st = Some st' →
  closed_under_deps arena pending st →
  closed_under_deps arena pending st'.
Proof.
  intros Hinj Hwf. revert n st st' pending.
  induction fuel as [|fuel IH]; intros n st st' pending; [done|].
  cbn [collect_dfs].
  destruct (arena !! n) as [nn|] eqn:Hn; cbn [from_option].
  2: { by intros [= <-]. }
  assert (∀ d, d ∈ dependencies nn → is_Some (arena !! d)) as Hdeps
    by (intros d Hd; by eapply Hwf).
  revert Hdeps. generalize (dependencies nn). intros deps.
  revert st. induction deps as [|d deps IHd]; intros st Hdeps Hrun Hcl.
  { by injection Hrun as <-. }
  cbn [foldl] in Hrun. cbn [mbind option_bind] in Hrun.
  destruct (Hdeps d) as [nd Hd]; [apply elem_of_cons; by left|].
  assert (∀ d', d' ∈ deps → is_Some (arena !! d')) as Hdeps'
    by (intros d' Hd'; apply Hdeps, elem_of_cons; by right).
  rewrite Hd in Hrun. cbn [from_option] in Hrun.
  set (dn := _normalize_node_name (name nd)) in *.
  destruct (bool_decide (dn ∈ col_seen st)) eqn:Hseen.
  { by apply (IHd st). }
  apply bool_decide_eq_false in Hseen.
  destruct (collect_dfs self arena cache grounded fuel d _) as [st1|] eqn:Hrec.
  2: { cbn [mbind option_bind] in Hrun. exfalso. clear -Hrun.
       induction deps as [|d' deps IHd']; [done|]. by apply IHd'. }
  cbn [mbind option_bind] in Hrun.
  apply (IHd (classify_dependency self cache grounded dn st1)); [done|done|].
  assert (closed_under_deps arena ({[ dn ]} ∪ pending) st1) as Hcl1.
  { apply (IH d _ st1 _ Hrec).
    intros y ny Hy Hys Hyp e' He'. cbn [col_seen] in *.
    assert (_normalize_node_name (name ny) ∈ col_seen st) as Hys' by set_solver.
    assert (_normalize_node_name (name ny) ∉ pending) as Hyp' by set_solver.
    pose proof (Hcl y ny Hy Hys' Hyp' e' He'). set_solver. }
  destruct (collect_dfs_classifies _ _ _ _ _ _ _ _ _ Hrec
              (classified_pending_seen self cache grounded _))
    as (_ & Hs1 & _ & Hseen1).
  rewrite Hd in Hseen1. cbn [from_option col_seen] in Hseen1, Hs1.
  intros x nx Hx Hxs Hxp e He. rewrite classify_dependency_seen in Hxs |- *.
  destruct (decide (_normalize_node_name (name nx) = dn)) as [Heq|Hne].
  - assert (x = d) as -> by (by eapply Hinj).
    assert (nx = nd) as -> by congruence. by apply Hseen1.
  - apply (Hcl1 x nx Hx Hxs); [set_solver|done].
Qed.

(** When names are not shared, a transitive dependency that is absent from
    the run makes the list of missing names non-empty. *)
Lemma transitive_dependency_missing self g node d cache grounded :
  names_injective (nodes g) → deps_in_arena (nodes g) →
  depends_on (nodes g) node d →
  absent_from_run self cache grounded (_normalize_node_name (node_name g d)) →
  ∃ chunks missing,
    _collect_transitive_synthesized_code self g node cache grounded
    = Some (chunks, missing)
    ∧ missing ≠ [].
Proof.
  intros Hinj Hwf Hdep Habs.
  destruct (collect_total self g node cache grounded) as [[chunks missing] Hc].
  exists chunks, missing. split; [done|].
  unfold _collect_transitive_synthesized_code in Hc.
  destruct (collect_dfs _ _ _ _ _ _ _) as [st'|] eqn:Hrun; [|done].
  cbn [mbind option_bind] in Hc. injection Hc as _ <-.
  destruct (collect_dfs_classifies _ _ _ _ _ _ _ _ ∅ Hrun)
    as (Hcl & _ & _ & Hseen).
  { intros x Hx. cbn [col_seen] in Hx. set_solver. }
  assert (closed_under_deps (nodes g) ∅ st') as Hclosed.
  { apply (collect_dfs_closed _ _ _ _ _ _ _ _ _ Hinj Hwf Hrun).
    intros x nx _ Hx. cbn [col_seen] in Hx. set_solver. }
  assert (_normalize_node_name (node_name g d) ∈ col_seen st') as Hd.
  { clear Habs Hcl Hrun. unfold node_name.
    induction Hdep as [x nx d Hx Hin|x nx y d Hx Hin Hdep IH].
    - specialize (Hseen d). rewrite Hx in Hseen. by apply Hseen.
    - apply IH. intros e He.
      assert (∃ ny, nodes g !! y = Some ny) as [ny Hy]
        by (by inversion Hdep; eauto).
      rewrite Hy in He. cbn [from_option] in He.
      apply (Hclosed y ny Hy); [|set_solver|done].
      specialize (Hseen y). rewrite Hx, Hy in Hseen. by apply Hseen. }
  destruct (Hcl _ Hd) as [Hp|Hm]; [set_solver|].
  specialize (Hm Habs). intros Hnil.
  apply elem_of_elements in Hm. rewrite Hnil in Hm. by apply elem_of_nil in Hm.
Qed.

(** Where the skip does happen.  A needs-synthesis node for which the
    search reports a missing name is passed over: the state of the run is
    unchanged (no pool is launched, no marker is appended, nothing is
    cached) and the loop goes on with the next node.  This happens whenever
    a direct dependency needs synthesis and has no code in the run cache,
    and whenever a transitive dependency is such in a graph whose nodes
    have distinct normalized names (the search follows the dependencies
    name by name).  Such a run can end without any marker: in the run on
    the statement "s", expanded to "a", itself expanded to "S", both nodes
    are passed over, the document holds no ["-- FATAL:"] and no code of a
    node, and the record says compilation-accepted = true. *)
Theorem missing_dependency_skips_node :
  (∀ self g image rn rnorm node n st chunks missing rest,
     nodes g !! node = Some n →
     status n = TO_SYNTHESIZE →
     _collect_transitive_synthesized_code self g node (synthesized_cache st)
       (grounded_set st) = Some (chunks, missing) →
     missing ≠ [] →
     synth_node self g image rn rnorm node st = Continue st
     ∧ run_loop self g image rn rnorm (node :: rest) st
       = run_loop self g image rn rnorm rest st)
  ∧ (∀ self g image rn rnorm node n st d rest,
       nodes g !! node = Some n →
       status n = TO_SYNTHESIZE →
       d ∈ dependencies n →
       absent_from_run self (synthesized_cache st) (grounded_set st)
         (_normalize_node_name (node_name g d)) →
       synth_node self g image rn rnorm node st = Continue st
       ∧ run_loop self g image rn rnorm (node :: rest) st
         = run_loop self g image rn rnorm rest st)
  ∧ (∀ self g image rn rnorm node n st d rest,
       nodes g !! node = Some n →
       status n = TO_SYNTHESIZE →
       names_injective (nodes g) → deps_in_arena (nodes g) →
       depends_on (nodes g) node d →
       absent_from_run self (synthesized_cache st) (grounded_set st)
         (_normalize_node_name (node_name g d)) →
       synth_node self g image rn rnorm node st = Continue st
       ∧ run_loop self g image rn rnorm (node :: rest) st
         = run_loop self g image rn rnorm rest st)
  ∧ (let env := sample_env expand_cycle "level_1" "level_1" true in
     let g := planned expand_cycle "s" in
     planner_run (sample_planner expand_cycle) 10 "s" None = Some g
     ∧ status <$> nodes g = [TO_SYNTHESIZE; TO_SYNTHESIZE]
     ∧ ∃ code st,
         synthesizer_run (GoTSynthesizer_init env) g None = Returned code st
         ∧ events st = []
         ∧ synthesized_cache st = ∅
         ∧ contains "-- FATAL:" code = false
         ∧ contains "-- Node:" code = false
         ∧ compilation_passed (process_graph env "s" None g FileMissing).1
           = true
         ∧ generated_code (process_graph env "s" None g FileMissing).1 = code).
Proof.
  assert (∀ self g image rn rnorm node n st chunks missing rest,
            nodes g !! node = Some n →
            status n = TO_SYNTHESIZE →
            _collect_transitive_synthesized_code self g node
              (synthesized_cache st) (grounded_set st) = Some (chunks, missing) →
            missing ≠ [] →
            synth_node self g image rn rnorm node st = Continue st
            ∧ run_loop self g image rn rnorm (node :: rest) st
              = run_loop self g image rn rnorm rest st) as Hskip.
  { intros self g image rn rnorm node n st chunks missing rest Hn Hstatus
      Hcollect Hmissing.
    assert (synth_node self g image rn rnorm node st = Continue st) as Hstep.
    { unfold synth_node. rewrite Hn, Hstatus, Hcollect.
      by destruct missing. }
    split; [done|]. cbn [run_loop]. by rewrite Hstep. }
  split; [exact Hskip|]. split; [|split].
  - intros self g image rn rnorm node n st d rest Hn Hstatus Hd Habs.
    destruct (direct_dependency_missing self g node n d _ _ Hn Hd Habs)
      as (chunks & missing & Hcollect & Hmissing).
    by eapply Hskip.
  - intros self g image rn rnorm node n st d rest Hn Hstatus Hinj Hwf Hdep Habs.
    destruct (transitive_dependency_missing self g node d _ _ Hinj Hwf Hdep Habs)
      as (chunks & missing & Hcollect & Hmissing).
    by eapply Hskip.
  - cbv zeta. split; [vm_compute; reflexivity|].
    split; [vm_compute; reflexivity|].
    eexists _, _. split; [vm_compute; reflexivity|].
    repeat split; vm_compute; reflexivity.
Qed.

Lemma planned_cycle_nodes :
  nodes (planned expand_cycle "s")
  = [mkNode 0 "s" TO_SYNTHESIZE [1] None (DefList []);
     mkNode 1 "a" TO_SYNTHESIZE [0] (Some 0) (DefList [])].
Proof. vm_compute. reflexivity. Qed.

Lemma missing_dependency_skips_node_witness :
  let self := GoTSynthesizer_init
                (sample_env expand_cycle "level_1" "level_1" true) in
  let g := planned expand_cycle "s" in
  (synth_node self g None "s" "s" 1 synth_start = Continue synth_start
   ∧ run_loop self g None "s" "s" [1; 0] synth_start
     = run_loop self g None "s" "s" [0] synth_start)
  ∧ (synth_node self g None "s" "s" 0 synth_start = Continue synth_start
     ∧ run_loop self g None "s" "s" [0] synth_start
       = run_loop self g None "s" "s" [] synth_start).
Proof.
  cbv zeta. split.
  - apply (proj1 (proj2 missing_dependency_skips_node)
             (GoTSynthesizer_init
                (sample_env expand_cycle "level_1" "level_1" true))
             (planned expand_cycle "s") None "s" "s" 1
             (mkNode 1 "a" TO_SYNTHESIZE [0] (Some 0) (DefList []))
             synth_start 0 [0]).
    + vm_compute. reflexivity.
    + reflexivity.
    + apply list_elem_of_singleton. reflexivity.
    + split; [reflexivity|]. split; [apply not_elem_of_empty|reflexivity].
  - apply (proj1 (proj2 (proj2 missing_dependency_skips_node))
             (GoTSynthesizer_init
                (sample_env expand_cycle "level_1" "level_1" true))
             (planned expand_cycle "s") None "s" "s" 0
             (mkNode 0 "s" TO_SYNTHESIZE [1] None (DefList []))
             synth_start 0 []).
    + vm_compute. reflexivity.
    + reflexivity.
    + rewrite planned_cycle_nodes.
      intros [|[|i]] [|[|j]] ni nj Hi Hj Hn; cbn in Hi, Hj;
        try reflexivity; try discriminate Hi; try discriminate Hj;
        injection Hi as <-; injection Hj as <-;
        vm_compute in Hn; discriminate Hn.
    + rewrite planned_cycle_nodes.
      intros [|[|x]] nx d Hx Hd; cbn in Hx; try discriminate Hx;
        injection Hx as <-; cbn in Hd;
        apply list_elem_of_singleton in Hd; subst d; eexists; reflexivity.
    + apply (depends_trans _ 0 (mkNode 0 "s" TO_SYNTHESIZE [1] None (DefList []))
               1 0).
      * vm_compute. reflexivity.
      * apply list_elem_of_singleton. reflexivity.
      * apply (depends_direct _ 1
                 (mkNode 1 "a" TO_SYNTHESIZE [0] (Some 0) (DefList [])) 0).
        -- vm_compute. reflexivity.
        -- apply list_elem_of_singleton. reflexivity.
    + split; [reflexivity|]. split; [apply not_elem_of_empty|reflexivity].
Defined.

(** C10 (defect of the code): the statement "r" is expanded to "a b" and
    "a  b" (two spaces), "a  b" to "d", and "d" to "a  b" again; every node
    needs synthesis.  The build order is "a b", "d", "a  b", "r".  The pool
    of "a b" is launched and its code cached under "a b"; "d" and "a  b"
    are passed over.  When the loop reaches the root, its transitive
    dependency "d" needs synthesis and is absent from the run cache, and
    yet the search reports nothing missing: it marks names as seen by their
    collapsed form, so after "a b" it never enters "a  b" and never sees
    "d".  The root is not skipped: its pool is launched and its code
    cached, the document has no failure marker, and the record says
    compilation-accepted = true. *)
Theorem missing_dependency_hidden_by_key_collision :
  let env := sample_env expand_hidden "level_1" "level_1" true in
  let self := GoTSynthesizer_init env in
  let g := planned expand_hidden "r" in
  planner_run (sample_planner expand_hidden) 10 "r" None = Some g
  ∧ name <$> nodes g = ["r"; "a b"; "a  b"; "d"]
  ∧ status <$> nodes g
    = [TO_SYNTHESIZE; TO_SYNTHESIZE; TO_SYNTHESIZE; TO_SYNTHESIZE]
  ∧ dependencies <$> nodes g = [[1; 2]; []; [3]; [2]]
  ∧ get_build_order (stack_room self) g = Some [1; 3; 2; 0]
  ∧ depends_on (nodes g) 0 3
  ∧ ∃ st0 chunks,
      loop_prefix self g None "r" "r" [1; 3; 2] synth_start = Some st0
      ∧ events st0 = [PoolLaunched 1; CacheWritten "a b" "def x := a b"]
      ∧ absent_from_run self (synthesized_cache st0) (grounded_set st0)
          (_normalize_node_name (node_name g 3))
      ∧ _collect_transitive_synthesized_code self g 0 (synthesized_cache st0)
          (grounded_set st0) = Some (chunks, [])
      ∧ ∃ code st,
          synthesizer_run self g None = Returned code st
          ∧ events st
            = events st0 ++ [PoolLaunched 0; CacheWritten "r" "def x := r"]
          ∧ synthesized_cache st !! "d" = None
          ∧ contains "-- FATAL:" code = false
          ∧ compilation_passed (process_graph env "r" None g FileMissing).1
            = true.
Proof.
  cbv zeta. split; [vm_compute; reflexivity|].
  split; [vm_compute; reflexivity|]. split; [vm_compute; reflexivity|].
  split; [vm_compute; reflexivity|]. split; [vm_compute; reflexivity|].
  split.
  { eapply depends_trans; [vm_compute; reflexivity| |].
    - apply elem_of_cons. right. apply list_elem_of_singleton. reflexivity.
    - eapply depends_direct; [vm_compute; reflexivity|].
      apply list_elem_of_singleton. reflexivity. }
  eexists _, _. split; [vm_compute; reflexivity|].
  split; [vm_compute; reflexivity|]. split.
  { split; [vm_compute; reflexivity|].
    split; [apply not_elem_of_empty|vm_compute; reflexivity]. }
  split; [vm_compute; reflexivity|].
  eexists _, _. split; [vm_compute; reflexivity|].
  repeat split; vm_compute; reflexivity.
Qed.

(** ** The build order lists each node once *)

Lemma foldl_bind_none {A B} (f : B → A → option A) (l : list B) :
  foldl (λ acc x, acc ≫= f x) None l = None.
Proof. by induction l. Qed.

(** A call of [post_order_traverse] appends nodes that were not visited
    before, each once, and the visited set grows by exactly those. *)
Lemma post_order_appends fuel arena node V B V' B' :
  post_order_traverse fuel arena node (V, B) = Some (V', B') →
  ∃ new, B' = B ++ new ∧ NoDup new ∧ (∀ x, x ∈ new → x ∉ V)
         ∧ V' = V ∪ list_to_set new.
Proof.
  revert node V B V' B'.
  induction fuel as [|fuel IH]; intros node V B V' B'; [done|].
  cbn [post_order_traverse fst snd]. case_bool_decide as Hvis.
  { intros [= <- <-]. exists []. rewrite app_nil_r.
    repeat split; [constructor|by intros x ?%elem_of_nil|set_solver]. }
  destruct (arena !! node) as [n|]; [|done].
  assert (∀ deps V1 B1 V2 B2,
            foldl (λ acc dep, acc ≫= post_order_traverse fuel arena dep)
                  (Some (V1, B1)) deps = Some (V2, B2) →
            ∃ new, B2 = B1 ++ new ∧ NoDup new ∧ (∀ x, x ∈ new → x ∉ V1)
                   ∧ V2 = V1 ∪ list_to_set new) as Hfold.
  { induction deps as [|d deps IHd]; intros V1 B1 V2 B2; cbn [foldl].
    - intros [= <- <-]. exists []. rewrite app_nil_r.
      repeat split; [constructor|by intros x ?%elem_of_nil|set_solver].
    - cbn [mbind option_bind].
      destruct (post_order_traverse fuel arena d (V1, B1)) as [[Va Ba]|] eqn:Hd.
      2: { by rewrite foldl_bind_none. }
      intros Hrest.
      destruct (IH _ _ _ _ _ Hd) as (new1 & -> & Hnd1 & Hfresh1 & ->).
      destruct (IHd _ _ _ _ Hrest) as (new2 & -> & Hnd2 & Hfresh2 & ->).
      exists (new1 ++ new2). rewrite app_assoc. split; [done|]. split.
      { apply NoDup_app. split; [done|]. split; [|done].
        intros x Hx1 Hx2. apply (Hfresh2 x Hx2). set_solver. }
      split; [|set_solver].
      intros x [Hx|Hx]%elem_of_app; [by apply Hfresh1|].
      intros HxV. apply (Hfresh2 x Hx). set_solver. }
  destruct (foldl _ _ _) as [[V2 B2]|] eqn:Hrun; [|done].
  intros [= <- <-]. destruct (Hfold _ _ _ _ _ Hrun) as (new & -> & Hnd & Hfresh & ->).
  exists (new ++ [node]). rewrite app_assoc. split; [done|]. split.
  { apply NoDup_app. split; [done|]. split; [|apply NoDup_singleton].
    intros x Hx ->%list_elem_of_singleton. apply (Hfresh node Hx). set_solver. }
  split; [|set_solver].
  intros x [Hx| ->%list_elem_of_singleton]%elem_of_app; [|done].
  intros HxV. apply (Hfresh x Hx). set_solver.
Qed.

(** Whatever the shape of the graph, the build order lists no node
    twice. *)
Lemma build_order_NoDup room g order :
  get_build_order room g = Some order → NoDup order.
Proof.
  unfold get_build_order.
  destruct (post_order_traverse _ _ _ _) as [[V B]|] eqn:Hrun; [|done].
  intros [= <-]. by destruct (post_order_appends _ _ _ _ _ _ _ Hrun)
    as (new & -> & Hnd & _).
Qed.


(** ** The build order follows the dependencies *)

Lemma reaches_trans arena x y z :
  reaches arena x y → reaches arena y z → reaches arena x z.
Proof.
  induction 1 as [|x nx y' y Hx Hin _ IH]; [done|].
  intros Hz. eapply reaches_step; [done|done|by apply IH].
Qed.

Lemma listed_before_app_l l1 l2 d x :
  listed_before l1 d x → listed_before (l1 ++ l2) d x.
Proof.
  intros (i & j & Hi & Hj & Hlt). exists i, j.
  split; [by apply lookup_app_l_Some|]. split; [by apply lookup_app_l_Some|done].
Qed.

Lemma listed_before_app_r l1 l2 d x :
  listed_before l2 d x → listed_before (l1 ++ l2) d x.
Proof.
  intros (i & j & Hi & Hj & Hlt). exists (length l1 + i), (length l1 + j).
  rewrite !lookup_app_r by lia.
  replace (length l1 + i - length l1) with i by lia.
  replace (length l1 + j - length l1) with j by lia. split; [done|]. split; [done|lia].
Qed.

Lemma listed_before_app_lr l1 l2 d x :
  d ∈ l1 → x ∈ l2 → listed_before (l1 ++ l2) d x.
Proof.
  intros [i Hi]%list_elem_of_lookup [j Hj]%list_elem_of_lookup.
  exists i, (length l1 + j). split; [by apply lookup_app_l_Some|].
  rewrite lookup_app_r by lia.
  replace (length l1 + j - length l1) with j by lia. split; [done|].
  apply lookup_lt_Some in Hi. lia.
Qed.

(** What one call of [post_order_traverse] does to the pair
    [(visited, build_order)]: see [post_order_appends]; moreover the node
    is visited afterwards, the appended nodes are reached from it, and
    each dependency of an appended node was visited before the call, or is
    appended before that node, or reaches that node (a cycle). *)
Lemma post_order_spec fuel arena node V B V' B' :
  post_order_traverse fuel arena node (V, B) = Some (V', B') →
  ∃ new, B' = B ++ new ∧ NoDup new ∧ (∀ x, x ∈ new → x ∉ V)
         ∧ V' = V ∪ list_to_set new
         ∧ node ∈ V'
         ∧ (∀ x, x ∈ new → reaches arena node x)
         ∧ (∀ x nx d, x ∈ new → arena !! x = Some nx → d ∈ dependencies nx →
                      d ∈ V ∨ listed_before new d x
                      ∨ (d ∈ new ∧ reaches arena d x)).
Proof.
  revert node V B V' B'.
  induction fuel as [|fuel IH]; intros node V B V' B'; [done|].
  cbn [post_order_traverse fst snd]. case_bool_decide as Hvis.
  { intros [= <- <-]. exists []. rewrite app_nil_r.
    repeat split; try (by intros x ?%elem_of_nil); try (by intros x nx d ?%elem_of_nil);
      [constructor|set_solver|done]. }
  destruct (arena !! node) as [n|] eqn:Hnode; [|done].
  assert (∀ deps V1 B1 V2 B2,
            (∀ d, d ∈ deps → d ∈ dependencies n) →
            foldl (λ acc dep, acc ≫= post_order_traverse fuel arena dep)
                  (Some (V1, B1)) deps = Some (V2, B2) →
            ∃ new, B2 = B1 ++ new ∧ NoDup new ∧ (∀ x, x ∈ new → x ∉ V1)
                   ∧ V2 = V1 ∪ list_to_set new
                   ∧ (∀ d, d ∈ deps → d ∈ V2)
                   ∧ (∀ x, x ∈ new → reaches arena node x)
                   ∧ (∀ x nx d, x ∈ new → arena !! x = Some nx →
                                d ∈ dependencies nx →
                                d ∈ V1 ∨ listed_before new d x
                                ∨ (d ∈ new ∧ reaches arena d x))) as Hfold.
  { induction deps as [|d deps IHd]; intros V1 B1 V2 B2 Hsub; cbn [foldl].
    - intros [= <- <-]. exists []. rewrite app_nil_r.
      repeat split; try (by intros x ?%elem_of_nil);
        try (by intros x nx d ?%elem_of_nil); [constructor|set_solver].
    - cbn [mbind option_bind].
      destruct (post_order_traverse fuel arena d (V1, B1)) as [[Va Ba]|] eqn:Hd.
      2: { by rewrite foldl_bind_none. }
      intros Hrest.
      destruct (IH _ _ _ _ _ Hd)
        as (new1 & -> & Hnd1 & Hfresh1 & -> & Hin1 & Hreach1 & Hord1).
      assert (∀ d', d' ∈ deps → d' ∈ dependencies n) as Hsub'
        by (intros d' Hd'; apply Hsub, elem_of_cons; by right).
      destruct (IHd _ _ _ _ Hsub' Hrest)
        as (new2 & -> & Hnd2 & Hfresh2 & -> & Hin2 & Hreach2 & Hord2).
      exists (new1 ++ new2). rewrite app_assoc. split; [done|]. split.
      { apply NoDup_app. split; [done|]. split; [|done].
        intros x Hx1 Hx2. apply (Hfresh2 x Hx2). set_solver. }
      split.
      { intros x [Hx|Hx]%elem_of_app; [by apply Hfresh1|].
        intros HxV. apply (Hfresh2 x Hx). set_solver. }
      split; [set_solver|]. split.
      { intros d' [->|Hd']%elem_of_cons; [set_solver|by apply Hin2]. }
      split.
      { intros x [Hx|Hx]%elem_of_app; [|by apply Hreach2].
        eapply reaches_step;
          [exact Hnode|apply Hsub, elem_of_cons; by left|by apply Hreach1]. }
      intros x nx e [Hx|Hx]%elem_of_app Hnx He.
      + destruct (Hord1 x nx e Hx Hnx He) as [?|[?|[??]]]; [by left| |].
        * right; left. by apply listed_before_app_l.
        * right; right. split; [set_solver|done].
      + destruct (Hord2 x nx e Hx Hnx He) as [HeV|[?|[??]]];
          [| |right; right; split; [set_solver|done]].
        * apply elem_of_union in HeV as [?|HeV]; [by left|].
          right; left. apply listed_before_app_lr; [set_solver|done].
        * right; left. by apply listed_before_app_r. }
  destruct (foldl _ _ _) as [[V2 B2]|] eqn:Hrun; [|done].
  intros [= <- <-].
  destruct (Hfold _ _ _ _ _ ltac:(done) Hrun)
    as (new & -> & Hnd & Hfresh & -> & Hdeps & Hreach & Hord).
  exists (new ++ [node]). rewrite app_assoc. split; [done|]. split.
  { apply NoDup_app. split; [done|]. split; [|apply NoDup_singleton].
    intros x Hx ->%list_elem_of_singleton. apply (Hfresh node Hx). set_solver. }
  split.
  { intros x [Hx| ->%list_elem_of_singleton]%elem_of_app; [|done].
    intros HxV. apply (Hfresh x Hx). set_solver. }
  split; [set_solver|]. split; [set_solver|]. split.
  { intros x [Hx| ->%list_elem_of_singleton]%elem_of_app;
      [by apply Hreach|apply reaches_refl]. }
  intros x nx e [Hx| ->%list_elem_of_singleton]%elem_of_app Hnx He.
  - destruct (Hord x nx e Hx Hnx He) as [HeV|[?|[??]]];
      [| |right; right; split; [set_solver|done]].
    + apply elem_of_union in HeV as [->%elem_of_singleton|?]; [|by left].
      right; right. split; [set_solver|by apply Hreach].
    + right; left. by apply listed_before_app_l.
  - assert (nx = n) as -> by congruence.
    specialize (Hdeps e He).
    apply elem_of_union in Hdeps as [HeV|Hnew].
    + apply elem_of_union in HeV as [->%elem_of_singleton|?]; [|by left].
      right; right. split; [set_solver|apply reaches_refl].
    + right; left. apply listed_before_app_lr; [set_solver|set_solver].
Qed.

Lemma post_order_total fuel arena node V B :
  deps_in_arena arena → node < length arena →
  size ((set_seq 0 (length arena) : gset nat) ∖ V) < fuel →
  ∃ V' B', post_order_traverse fuel arena node (V, B) = Some (V', B')
           ∧ V ⊆ V'.
Proof.
  intros Hwf. revert node V B.
  induction fuel as [|fuel IH]; intros node V B Hnode Hfuel; [lia|].
  cbn [post_order_traverse fst snd]. case_bool_decide as Hvis.
  { by exists V, B. }
  destruct (lookup_lt_is_Some_2 _ _ Hnode) as [n Hn]. rewrite Hn.
  assert (size ((set_seq 0 (length arena) : gset nat) ∖ ({[node]} ∪ V))
          < size ((set_seq 0 (length arena) : gset nat) ∖ V)) as Hless.
  { apply subset_size.
    assert (node ∈ (set_seq 0 (length arena) : gset nat))
      by (apply elem_of_set_seq; lia).
    set_solver. }
  assert (∀ deps V1 B1,
            (∀ d, d ∈ deps → d < length arena) →
            size ((set_seq 0 (length arena) : gset nat) ∖ V1) < fuel →
            ∃ V2 B2,
              foldl (λ acc dep, acc ≫= post_order_traverse fuel arena dep)
                    (Some (V1, B1)) deps = Some (V2, B2)
              ∧ V1 ⊆ V2) as Hfold.
  { induction deps as [|d deps IHd]; intros V1 B1 Hlt Hsz; cbn [foldl].
    - by exists V1, B1.
    - cbn [mbind option_bind].
      destruct (IH d V1 B1) as (Va & Ba & -> & Hsub);
        [apply Hlt, elem_of_cons; by left|done|].
      destruct (IHd Va Ba) as (V2 & B2 & -> & Hsub2).
      { intros d' Hd'. apply Hlt, elem_of_cons. by right. }
      { assert ((size ((set_seq 0 (length arena) : gset nat) ∖ Va)
                 ≤ size ((set_seq 0 (length arena) : gset nat) ∖ V1))%nat)
          by (apply subseteq_size; set_solver). lia. }
      exists V2, B2. split; [done|set_solver]. }
  destruct (Hfold (dependencies n) ({[node]} ∪ V) B) as (V2 & B2 & -> & Hsub).
  { intros d Hd. apply lookup_lt_is_Some. by eapply Hwf. }
  { lia. }
  exists V2, (B2 ++ [node]). split; [done|set_solver].
Qed.

Lemma reaches_in_arena arena x y :
  deps_in_arena arena → x < length arena → reaches arena x y →
  y < length arena.
Proof.
  intros Hwf Hx. induction 1 as [|x nx y z Hnx Hin _ IH]; [done|].
  apply IH. apply lookup_lt_is_Some. by eapply Hwf.
Qed.

(** A rank that decreases along every dependency excludes cycles. *)
Lemma ranked_acyclic arena (rank : nat → nat) :
  (∀ x nx d, arena !! x = Some nx → d ∈ dependencies nx → rank d < rank x) →
  acyclic arena.
Proof.
  intros Hrank x nx d Hx Hd Hreach.
  assert (∀ a b, reaches arena a b → (rank b ≤ rank a)%nat) as Hle.
  { induction 1 as [|a na b c Ha Hb _ IH]; [done|].
    pose proof (Hrank a na b Ha Hb). lia. }
  pose proof (Hle _ _ Hreach). pose proof (Hrank x nx d Hx Hd). lia.
Qed.

(** The node that a call starts from is appended last, unless it was
    visited before. *)
Lemma post_order_last fuel arena node V B V' B' :
  post_order_traverse fuel arena node (V, B) = Some (V', B') →
  node ∉ V → last B' = Some node.
Proof.
  destruct fuel as [|fuel]; [done|].
  cbn [post_order_traverse fst snd]. case_bool_decide as Hvis; [done|].
  intros Hrun _. destruct (arena !! node) as [n|]; [|done].
  destruct (foldl _ _ _) as [[V2 B2]|]; [|done].
  injection Hrun as _ <-. apply last_snoc.
Qed.

(** On a graph whose references are nodes of the graph, and with room for
    one nested call more than the graph has nodes, the build order is
    computed and lists, once each, the nodes that the root reaches. *)
Lemma build_order_reachable room g :
  refs_in_arena g →
  length (nodes g) < room →
  ∃ order, get_build_order room g = Some order
           ∧ NoDup order
           ∧ ∀ x, x ∈ order ↔ reaches (nodes g) (root g) x.
Proof.
  intros [Hroot Hwf] Hroom. unfold get_build_order.
  destruct (post_order_total room (nodes g) (root g) ∅ [])
    as (V' & B' & Hrun & _); [done|done| |].
  { assert ((set_seq 0 (length (nodes g)) : gset nat) ∖ ∅
            = set_seq 0 (length (nodes g))) as -> by set_solver.
    rewrite size_set_seq. lia. }
  rewrite Hrun. cbn [fmap option_fmap option_map snd].
  destruct (post_order_spec _ _ _ _ _ _ _ Hrun)
    as (new & -> & Hnd & _ & -> & Hin & Hreach & Hord).
  exists new. split; [done|]. split; [done|].
  intros x. split; [apply Hreach|].
  assert (root g ∈ new) as Hr by set_solver.
  assert (∀ a b, reaches (nodes g) a b → a ∈ new → b ∈ new) as Hclosed.
  { induction 1 as [|a na b c Ha Hb _ IH]; [done|]. intros Hanew. apply IH.
    destruct (Hord a na b Hanew Ha Hb) as [?|[(i & j & Hi & _)|[? _]]];
      [set_solver|by eapply list_elem_of_lookup_2|done]. }
  intros Hx. by eapply Hclosed.
Qed.

(** X1: on a graph whose references are nodes of the graph, cyclic or not,
    and when the interpreter has room for one nested call of the traversal
    more than the graph has nodes (without that room the traversal can end
    in a RecursionError), the build order is computed, lists no node twice,
    lists exactly the nodes that the root reaches along dependencies, and
    ends with the root. *)
Theorem build_order_lists_reachable_once room g :
  refs_in_arena g →
  length (nodes g) < room →
  ∃ order, get_build_order room g = Some order
           ∧ NoDup order
           ∧ (∀ x, x ∈ order ↔ reaches (nodes g) (root g) x)
           ∧ last order = Some (root g).
Proof.
  intros Hrefs Hroom.
  destruct (build_order_reachable room g Hrefs Hroom)
    as (order & Hord & Hnd & Hiff).
  exists order. split; [exact Hord|]. split; [exact Hnd|].
  split; [exact Hiff|]. unfold get_build_order in Hord.
  destruct (post_order_traverse _ _ _ _) as [[V' B']|] eqn:Hpo; [|done].
  injection Hord as <-. eapply post_order_last; [exact Hpo|].
  apply not_elem_of_empty.
Qed.

Lemma build_order_lists_reachable_once_witness :
  refs_in_arena (planned expand_cycle "s")
  ∧ length (nodes (planned expand_cycle "s")) < 3
  ∧ ∃ order, get_build_order 3 (planned expand_cycle "s") = Some order
             ∧ NoDup order
             ∧ (∀ x, x ∈ order
                     ↔ reaches (nodes (planned expand_cycle "s"))
                               (root (planned expand_cycle "s")) x)
             ∧ last order = Some (root (planned expand_cycle "s")).
Proof.
  assert (refs_in_arena (planned expand_cycle "s")) as Hrefs.
  { split; [vm_compute; lia|]. rewrite planned_cycle_nodes.
    intros [|[|x]] nx d Hx Hd; cbn in Hx; try discriminate Hx;
      injection Hx as <-; cbn in Hd;
      apply list_elem_of_singleton in Hd; subst d; eexists; reflexivity. }
  assert (length (nodes (planned expand_cycle "s")) < 3) as Hroom
    by (rewrite planned_cycle_nodes; cbn; lia).
  split; [exact Hrefs|]. split; [exact Hroom|].
  exact (build_order_lists_reachable_once 3 _ Hrefs Hroom).
Defined.

(** X2: if moreover no node reaches itself through a dependency, every
    dependency of a listed node is listed before that node. *)
Theorem build_order_dependencies_first room g order :
  get_build_order room g = Some order →
  acyclic (nodes g) →
  ∀ x nx d, x ∈ order → nodes g !! x = Some nx → d ∈ dependencies nx →
            listed_before order d x.
Proof.
  unfold get_build_order. intros Hrun Hacyclic x nx d Hx Hnx Hd.
  destruct (post_order_traverse _ _ _ _) as [[V' B']|] eqn:Hpo; [|done].
  injection Hrun as <-.
  destruct (post_order_spec _ _ _ _ _ _ _ Hpo)
    as (new & -> & _ & _ & _ & _ & _ & Hord).
  destruct (Hord x nx d Hx Hnx Hd) as [?|[?|[_ Hcyc]]]; [set_solver|done|].
  by destruct (Hacyclic x nx d Hnx Hd).
Qed.

Lemma planned_shared_nodes :
  nodes (planned expand_shared "s")
  = [mkNode 0 "s" TO_SYNTHESIZE [1; 2] None (DefList []);
     mkNode 1 "x" TO_SYNTHESIZE [3] (Some 0) (DefList []);
     mkNode 2 "y" TO_SYNTHESIZE [3] (Some 0) (DefList []);
     mkNode 3 "z" TO_SYNTHESIZE [] (Some 1) (DefList [])].
Proof. vm_compute. reflexivity. Qed.

Lemma build_order_dependencies_first_witness :
  get_build_order 1000 (planned expand_shared "s") = Some [3; 1; 2; 0]
  ∧ acyclic (nodes (planned expand_shared "s"))
  ∧ ∀ x nx d, x ∈ [3; 1; 2; 0] →
              nodes (planned expand_shared "s") !! x = Some nx →
              d ∈ dependencies nx → listed_before [3; 1; 2; 0] d x.
Proof.
  assert (get_build_order 1000 (planned expand_shared "s")
          = Some [3; 1; 2; 0]) as Hrun by (vm_compute; reflexivity).
  assert (acyclic (nodes (planned expand_shared "s"))) as Hacyclic.
  { apply (ranked_acyclic _ (λ i, 3 - i)). rewrite planned_shared_nodes.
    intros [|[|[|[|x]]]] nx d Hx Hd; cbn in Hx; try discriminate Hx;
      injection Hx as <-; cbn [dependencies] in Hd;
      repeat (apply elem_of_cons in Hd as [Hd|Hd]; [subst d; cbn; lia|]);
      destruct (not_elem_of_nil _ Hd). }
  split; [exact Hrun|]. split; [exact Hacyclic|].
  exact (build_order_dependencies_first _ _ _ Hrun Hacyclic).
Defined.

(** ** The decomposition keeps its graph well formed *)

Lemma alter_lookup_inv (f : ConceptNode → ConceptNode) c
    (arena : list ConceptNode) i n' :
  alter f c arena !! i = Some n' →
  ∃ n, arena !! i = Some n ∧ n' = if decide (c = i) then f n else n.
Proof.
  destruct (decide (c = i)) as [->|Hne].
  - rewrite list_lookup_alter_eq. destruct (arena !! i) as [n|]; [|done].
    intros [= <-]. eauto.
  - rewrite list_lookup_alter_ne by done. eauto.
Qed.

(** The three things [link_dependency] can do. *)
Lemma link_dependency_cases chk current st nm :
  link_dependency chk current st nm = st
  ∨ (∃ existing,
       find_node_by_name (graph st) nm = Some existing
       ∧ (chk = true → existing ≠ current)
       ∧ (existing ∉ node_dependencies (graph st) current)
       ∧ link_dependency chk current st nm
         = {| graph := set_nodes (graph st)
                         (alter (append_dependency existing) current
                                (nodes (graph st)));
              queue := queue st; queue_log := queue_log st |})
  ∨ (find_node_by_name (graph st) nm = None
     ∧ graph (link_dependency chk current st nm)
       = (add_node (graph st) nm current).2
     ∧ ((lower_strip nm ∈ queue_log st
         ∧ queue (link_dependency chk current st nm) = queue st
         ∧ queue_log (link_dependency chk current st nm) = queue_log st)
        ∨ ((lower_strip nm ∉ queue_log st)
           ∧ queue (link_dependency chk current st nm)
             = queue st ++ [length (nodes (graph st))]
           ∧ queue_log (link_dependency chk current st nm)
             = {[ lower_strip nm ]} ∪ queue_log st))).
Proof.
  unfold link_dependency. destruct (is_empty (lower_strip nm)); [by left|].
  rewrite find_node_by_name_key.
  destruct (find_node_by_name (graph st) nm) as [existing|] eqn:Hfind.
  - destruct (chk && bool_decide (existing = current)) eqn:Hself; [by left|].
    destruct (bool_decide (existing ∈ _)) eqn:Hin; [by left|].
    right; left. exists existing. split; [done|]. split; [|split; [|done]].
    + intros -> ->. rewrite bool_decide_eq_true_2 in Hself; done.
    + by apply bool_decide_eq_false in Hin.
  - right; right. split; [done|].
    destruct (add_node (graph st) nm current) as [new g'] eqn:Hadd.
    assert (new = length (nodes (graph st))) as ->.
    { change new with (new, g').1. by rewrite <- Hadd. }
    case_bool_decide as Hlog; cbn [graph queue queue_log snd].
    + split; [done|]. by left.
    + split; [done|]. by right.
Qed.

Lemma add_node_lookup_inv g nm par i n' :
  nodes (add_node g nm par).2 !! i = Some n' →
  (i < length (nodes g)
   ∧ ∃ n, nodes g !! i = Some n
          ∧ n' = if decide (par = i)
                 then append_dependency (length (nodes g)) n else n)
  ∨ (i = length (nodes g)
     ∧ n' = ConceptNode_init (length (nodes g)) nm (Some par)).
Proof.
  intros Hi. destruct (decide (i < length (nodes g))) as [Hlt|Hge].
  - left. split; [done|]. rewrite add_node_lookup_old in Hi by done.
    by apply alter_lookup_inv.
  - right. assert (i = length (nodes g)) as ->.
    { apply lookup_lt_Some in Hi. rewrite add_node_length in Hi. lia. }
    split; [done|]. rewrite add_node_lookup_new in Hi. congruence.
Qed.

Lemma add_node_lookup_current g nm par n :
  nodes g !! par = Some n →
  nodes (add_node g nm par).2 !! par
  = Some (append_dependency (length (nodes g)) n).
Proof.
  intros Hn. rewrite add_node_lookup_old by (by eapply lookup_lt_Some).
  by rewrite list_lookup_alter_eq, Hn.
Qed.

Lemma add_node_lookup_other g nm par i n :
  nodes g !! i = Some n → par ≠ i →
  nodes (add_node g nm par).2 !! i = Some n.
Proof.
  intros Hn Hne. rewrite add_node_lookup_old by (by eapply lookup_lt_Some).
  by rewrite list_lookup_alter_ne.
Qed.

(** Linking a name to the node under expansion keeps the invariants. *)
Lemma planner_inv_link chk current st nm :
  planner_inv st →
  (∃ n, nodes (graph st) !! current = Some n ∧ status n = TO_SYNTHESIZE) →
  current ∉ queue st →
  (chk = false → current = 0) →
  planner_inv (link_dependency chk current st nm)
  ∧ (∃ n, nodes (graph (link_dependency chk current st nm)) !! current = Some n
          ∧ status n = TO_SYNTHESIZE)
  ∧ current ∉ queue (link_dependency chk current st nm).
Proof.
  intros Hinv Hcur Hcq Hchk.
  pose proof Hinv as ((Hroot & Hpos & Hid & Hwf & Hpar) & (Hidx & Hsound & Hlog)
                      & ((r & Hr & Hrst) & Hnd & Hq & Hexp & Hgr)
                      & (Hndd & Hself)).
  pose proof Hcur as (nc & Hnc & Hstc).
  assert (current < length (nodes (graph st))) as Hclt
    by (by eapply lookup_lt_Some).
  destruct (link_dependency_cases chk current st nm)
    as [->|[(existing & Hfind & Hne & Hnotin & ->)
           |(Hfind & Hg & Hqueue)]].
  { done. }
  - (* an edge to a known node *)
    destruct (Hsound _ _ Hfind) as (ne & Hnex & _).
    unfold node_dependencies in Hnotin. rewrite Hnc in Hnotin.
    cbn [from_option] in Hnotin.
    unfold planner_inv, structure_inv, index_inv, queue_inv, edge_inv.
    cbn [graph queue queue_log set_nodes root nodes _nodes_by_name].
    split; [|split; [|done]].
    2: { rewrite list_lookup_alter_eq, Hnc. by eexists. }
    split; [|split; [|split]].
    + (* structure *)
      split; [done|]. split; [by rewrite length_alter|]. split; [|split].
      * intros i n' (n & Hn & ->)%alter_lookup_inv.
        case_decide; [|by eapply Hid]. cbn. by eapply Hid.
      * intros x nx d (n & Hn & ->)%alter_lookup_inv Hd.
        apply lookup_lt_is_Some. rewrite length_alter. apply lookup_lt_is_Some.
        case_decide; [|by eapply Hwf]. cbn in Hd.
        apply elem_of_app in Hd as [Hd| ->%list_elem_of_singleton];
          [by eapply Hwf|by eexists].
      * intros i n' (n & Hn & ->)%alter_lookup_inv Hi0.
        destruct (Hpar i n Hn Hi0) as (p & np & Hp & Hlt & Hnp & Hin).
        exists p.
        exists (if decide (current = p) then append_dependency existing np
                else np).
        split; [by case_decide|]. split; [done|]. split.
        { destruct (decide (current = p)) as [->|?].
          - by rewrite list_lookup_alter_eq, Hnp.
          - by rewrite list_lookup_alter_ne. }
        case_decide; [|done]. cbn. apply elem_of_app. by left.
    + (* index *)
      split; [by apply name_indexed_alter|]. split; [|done].
      intros k i Hk. destruct (Hsound k i Hk) as (n & Hn & Hkey).
      destruct (decide (current = i)) as [->|?].
      * exists (append_dependency existing n).
        by rewrite list_lookup_alter_eq, Hn.
      * exists n. by rewrite list_lookup_alter_ne.
    + (* queue *)
      split.
      { destruct (decide (current = 0)) as [->|?].
        - eexists. rewrite list_lookup_alter_eq, Hr. split; [done|done].
        - exists r. by rewrite list_lookup_alter_ne. }
      split; [done|]. split; [|split].
      * intros i Hi. destruct (Hq i Hi) as (Hi0 & n & Hn & Hst & Hd).
        split; [done|]. exists n.
        rewrite list_lookup_alter_ne; [done|]. by intros ->.
      * intros i n' (n & Hn & ->)%alter_lookup_inv Hst.
        apply (Hexp i n Hn). by case_decide.
      * intros i n' (n & Hn & ->)%alter_lookup_inv Hst.
        case_decide as Hci; [|by eapply Hgr]. subst i. cbn in Hst. congruence.
    + (* edges *)
      split.
      * intros i n' (n & Hn & ->)%alter_lookup_inv.
        case_decide as Hci; [|by eapply Hndd]. subst i. cbn.
        assert (n = nc) as -> by congruence.
        apply NoDup_app. split; [by eapply Hndd|].
        split; [|apply NoDup_singleton].
        by intros x Hx ->%list_elem_of_singleton.
      * intros i n' (n & Hn & ->)%alter_lookup_inv Hi0.
        case_decide as Hci; [|by eapply Hself]. subst i. cbn.
        intros [Hin| ->%list_elem_of_singleton]%elem_of_app.
        -- by eapply Hself.
        -- destruct chk; [by apply Hne|]. by apply Hi0, Hchk.
  - (* a new node *)
    set (new := length (nodes (graph st))) in *.
    assert (∀ d, d ∈ dependencies nc → d < new) as Hdlt.
    { intros d Hd. apply lookup_lt_is_Some. by eapply Hwf. }
    assert (lower_strip nm ∉ queue_log st) as Hnolog.
    { intros Hin. destruct (Hlog _ Hin) as [i Hi].
      unfold find_node_by_name in Hfind. congruence. }
    destruct Hqueue as [(Hin & _)|(_ & Hq' & Hlog')]; [done|].
    rewrite Hq'. split; [|split].
    2: { rewrite Hg. erewrite add_node_lookup_current by done. by eexists. }
    2: { intros [?| ->%list_elem_of_singleton]%elem_of_app; [done|lia]. }
    unfold planner_inv, structure_inv, index_inv, queue_inv, edge_inv.
    rewrite Hg, Hq', Hlog'.
    split; [|split; [|split]].
    + (* structure *)
      split; [done|]. split; [rewrite add_node_length; lia|]. split; [|split].
      * intros i n' [(Hlt & n & Hn & ->)|(-> & ->)]%add_node_lookup_inv;
          [|done].
        case_decide; [|by eapply Hid]. cbn. by eapply Hid.
      * intros x nx d [(Hlt & n & Hn & ->)|(-> & ->)]%add_node_lookup_inv Hd;
          [|by apply elem_of_nil in Hd].
        apply lookup_lt_is_Some. rewrite add_node_length.
        case_decide.
        -- cbn in Hd.
           apply elem_of_app in Hd as [Hd| ->%list_elem_of_singleton]; [|lia].
           assert (d < new); [|lia]. apply lookup_lt_is_Some. by eapply Hwf.
        -- assert (d < new); [|lia]. apply lookup_lt_is_Some. by eapply Hwf.
      * intros i n' [(Hlt & n & Hn & ->)|(-> & ->)]%add_node_lookup_inv Hi0.
        -- destruct (Hpar i n Hn Hi0) as (p & np & Hp & Hltp & Hnp & Hin).
           exists p.
           exists (if decide (current = p) then append_dependency new np
                   else np).
           split; [by case_decide|]. split; [done|]. split.
           { destruct (decide (current = p)) as [->|?].
             - by apply add_node_lookup_current.
             - by apply add_node_lookup_other. }
           case_decide; [|done]. cbn. apply elem_of_app. by left.
        -- exists current, (append_dependency new nc).
           split; [done|]. split; [done|].
           split; [by apply add_node_lookup_current|].
           cbn. apply elem_of_app. right. by apply list_elem_of_singleton.
    + (* index *)
      split; [by apply name_indexed_add_node|]. rewrite add_node_index.
      split.
      * intros k i Hk. apply lookup_insert_Some in Hk as [[<- <-]|[Hne Hk]].
        -- eexists. split; [apply add_node_lookup_new|]. cbn.
           apply lower_strip_strip.
        -- destruct (Hsound k i Hk) as (n & Hn & Hkey).
           destruct (decide (current = i)) as [->|?].
           ++ eexists. split; [by apply add_node_lookup_current|done].
           ++ eexists. split; [by apply add_node_lookup_other|done].
      * intros k [->%elem_of_singleton|Hk]%elem_of_union.
        -- rewrite lookup_insert_eq. by eexists.
        -- destruct (Hlog k Hk) as [i Hi].
           destruct (decide (lower_strip nm = k)) as [->|?].
           ++ rewrite lookup_insert_eq. by eexists.
           ++ rewrite lookup_insert_ne by done. by eexists.
    + (* queue *)
      split.
      { destruct (decide (current = 0)) as [->|?].
        - eexists. split; [by apply add_node_lookup_current|done].
        - exists r. split; [by apply add_node_lookup_other|done]. }
      split.
      { apply NoDup_app. split; [done|]. split; [|apply NoDup_singleton].
        intros i Hi ->%list_elem_of_singleton.
        destruct (Hq _ Hi) as (_ & n & Hn & _).
        apply lookup_lt_Some in Hn. fold new in Hn. lia. }
      split; [|split].
      * intros i [Hi| ->%list_elem_of_singleton]%elem_of_app.
        -- destruct (Hq i Hi) as (Hi0 & n & Hn & Hst & Hd).
           split; [done|]. exists n. split; [|done].
           apply add_node_lookup_other; [done|]. by intros ->.
        -- split; [unfold new; lia|]. eexists.
           split; [apply add_node_lookup_new|done].
      * intros i n' [(Hlt & n & Hn & ->)|(-> & ->)]%add_node_lookup_inv Hst.
        -- apply elem_of_app. left. apply (Hexp i n Hn). by case_decide.
        -- apply elem_of_app. right. by apply list_elem_of_singleton.
      * intros i n' [(Hlt & n & Hn & ->)|(-> & ->)]%add_node_lookup_inv Hst;
          [|done].
        case_decide as Hci; [|by eapply Hgr]. subst i. cbn in Hst. congruence.
    + (* edges *)
      split.
      * intros i n' [(Hlt & n & Hn & ->)|(-> & ->)]%add_node_lookup_inv;
          [|constructor].
        case_decide as Hci; [|by eapply Hndd]. subst i. cbn.
        assert (n = nc) as -> by congruence.
        apply NoDup_app. split; [by eapply Hndd|].
        split; [|apply NoDup_singleton].
        intros x Hx ->%list_elem_of_singleton. specialize (Hdlt _ Hx). lia.
      * intros i n' [(Hlt & n & Hn & ->)|(-> & ->)]%add_node_lookup_inv Hi0;
          [|by intros ?%elem_of_nil].
        case_decide as Hci; [|by eapply Hself]. subst i. cbn.
        intros [Hin| ->%list_elem_of_singleton]%elem_of_app; [|lia].
        by eapply Hself.
Qed.

Lemma planner_inv_links chk current names st :
  planner_inv st →
  (∃ n, nodes (graph st) !! current = Some n ∧ status n = TO_SYNTHESIZE) →
  current ∉ queue st →
  (chk = false → current = 0) →
  planner_inv (foldl (link_dependency chk current) st names).
Proof.
  revert st. induction names as [|nm names IH]; intros st Hinv Hcur Hq Hchk;
    [done|].
  cbn [foldl].
  destruct (planner_inv_link chk current st nm Hinv Hcur Hq Hchk)
    as (Hinv' & Hcur' & Hq').
  by apply IH.
Qed.

(** Taking a node from the queue and giving it its final status keeps the
    invariants. *)
Lemma planner_inv_pop_update f current rest g log :
  planner_inv {| graph := g; queue := current :: rest; queue_log := log |} →
  (∀ n, name (f n) = name n ∧ dependencies (f n) = dependencies n
        ∧ parent (f n) = parent n ∧ id (f n) = id n
        ∧ status (f n) ≠ TO_EXPAND
        ∧ (status (f n) = GROUNDED →
           ∃ defs, grounded_definition (f n) = DefList defs ∧ defs ≠ [])) →
  planner_inv (update_node f current
                 {| graph := g; queue := rest; queue_log := log |})
  ∧ (∃ n, nodes g !! current = Some n
          ∧ nodes (graph (update_node f current
                            {| graph := g; queue := rest; queue_log := log |}))
            !! current = Some (f n))
  ∧ current ∉ rest.
Proof.
  intros ((Hroot & Hpos & Hid & Hwf & Hpar) & (Hidx & Hsound & Hlog)
          & ((r & Hr & Hrst) & Hnd & Hq & Hexp & Hgr) & (Hndd & Hself)) Hf.
  cbn [graph queue queue_log] in *.
  apply NoDup_cons in Hnd as [Hcr Hnd].
  destruct (Hq current) as (Hc0 & nc & Hnc & Hstc & Hdc);
    [apply elem_of_cons; by left|].
  unfold planner_inv, structure_inv, index_inv, queue_inv, edge_inv,
    update_node.
  cbn [graph queue queue_log set_nodes root nodes _nodes_by_name].
  split; [|split; [|done]].
  2: { exists nc. split; [done|]. by rewrite list_lookup_alter_eq, Hnc. }
  split; [|split; [|split]].
  - split; [done|]. split; [by rewrite length_alter|]. split; [|split].
    + intros i n' (n & Hn & ->)%alter_lookup_inv.
      case_decide; [|by eapply Hid].
      destruct (Hf n) as (_ & _ & _ & -> & _). by eapply Hid.
    + intros x nx d (n & Hn & ->)%alter_lookup_inv Hd.
      apply lookup_lt_is_Some. rewrite length_alter. apply lookup_lt_is_Some.
      case_decide; [|by eapply Hwf].
      destruct (Hf n) as (_ & Hdeps & _). rewrite Hdeps in Hd. by eapply Hwf.
    + intros i n' (n & Hn & ->)%alter_lookup_inv Hi0.
      destruct (Hpar i n Hn Hi0) as (p & np & Hp & Hlt & Hnp & Hin).
      exists p, (if decide (current = p) then f np else np).
      split.
      { case_decide; [|done]. destruct (Hf n) as (_ & _ & -> & _). done. }
      split; [done|]. split.
      { destruct (decide (current = p)) as [->|?].
        - by rewrite list_lookup_alter_eq, Hnp.
        - by rewrite list_lookup_alter_ne. }
      case_decide; [|done]. destruct (Hf np) as (_ & -> & _). done.
  - split; [apply name_indexed_alter; [intros n; apply Hf|done]|].
    split; [|done].
    intros k i Hk. destruct (Hsound k i Hk) as (n & Hn & Hkey).
    destruct (decide (current = i)) as [->|?].
    + exists (f n). rewrite list_lookup_alter_eq, Hn. split; [done|].
      destruct (Hf n) as (-> & _). done.
    + exists n. by rewrite list_lookup_alter_ne.
  - split; [exists r; by rewrite list_lookup_alter_ne|].
    split; [done|]. split; [|split].
    + intros i Hi. destruct (Hq i) as (Hi0 & n & Hn & Hst & Hd);
        [apply elem_of_cons; by right|].
      split; [done|]. exists n. rewrite list_lookup_alter_ne; [done|].
      by intros ->.
    + intros i n' (n & Hn & ->)%alter_lookup_inv Hst.
      case_decide as Hci.
      * by destruct (Hf n) as (_ & _ & _ & _ & Hne & _).
      * pose proof (Hexp i n Hn Hst) as [->|?]%elem_of_cons; done.
    + intros i n' (n & Hn & ->)%alter_lookup_inv Hst.
      case_decide as Hci; [|by eapply Hgr]. subst i.
      assert (n = nc) as -> by congruence.
      destruct (Hf nc) as (_ & -> & _ & _ & _ & Hdefs). split; [done|].
      by apply Hdefs.
  - split.
    + intros i n' (n & Hn & ->)%alter_lookup_inv.
      case_decide; [|by eapply Hndd].
      destruct (Hf n) as (_ & -> & _). by eapply Hndd.
    + intros i n' (n & Hn & ->)%alter_lookup_inv Hi0.
      case_decide; [|by eapply Hself].
      destruct (Hf n) as (_ & -> & _). by eapply Hself.
Qed.

Lemma planner_inv_process p image current rest g log :
  planner_inv {| graph := g; queue := current :: rest; queue_log := log |} →
  planner_inv (process_node p image
                 {| graph := g; queue := rest; queue_log := log |} current).
Proof.
  intros Hinv. unfold process_node.
  case_bool_decide.
  { apply (planner_inv_pop_update _ current rest g log Hinv).
    intros n. repeat split; try done. intros _. by exists ["VerifiedKB"]. }
  destruct (nonempty _) eqn:Hdefs.
  { apply (planner_inv_pop_update _ current rest g log Hinv).
    intros n. repeat split; try done. intros _. eexists. split; [done|].
    by destruct (final_definitions _ _ _). }
  destruct (planner_inv_pop_update (set_status TO_SYNTHESIZE) current rest g
              log Hinv) as (Hinv1 & (nc & Hnc & Hnc1) & Hq1).
  { intros n. repeat split; try done. }
  apply planner_inv_links; [done| |done|done].
  eexists. split; [exact Hnc1|done].
Qed.

Lemma planner_inv_start p statement image :
  planner_inv (planner_start p statement image).
Proof.
  unfold planner_start. apply planner_inv_links; [|by eexists|set_solver|done].
  unfold planner_inv, structure_inv, index_inv, queue_inv, edge_inv.
  cbn [update_node graph queue queue_log set_nodes root nodes _nodes_by_name
       ConceptualGraph_init].
  split; [|split; [|split]].
  - split; [done|]. split; [cbn; lia|]. split; [|split].
    + intros [|i] n; cbn; [|done]. by intros [= <-].
    + intros [|x] nx d; cbn; [|done]. intros [= <-]. by intros ?%elem_of_nil.
    + intros [|i] n; cbn; [done|done].
  - split; [|split].
    + apply (name_indexed_alter (ConceptualGraph_init statement)); [done|].
      apply name_indexed_init.
    + intros k i [<- <-]%lookup_singleton_Some. by eexists.
    + intros k ->%elem_of_singleton. unfold node_name. cbn.
      rewrite lookup_insert_eq. by eexists.
  - split; [by eexists|].
    split; [constructor|]. split; [by intros i ?%elem_of_nil|]. split.
    + intros [|i] n; cbn; [|done]. by intros [= <-].
    + intros [|i] n; cbn; [|done]. by intros [= <-].
  - split.
    + intros [|i] n; cbn; [|done]. intros [= <-]. constructor.
    + intros [|i] n; cbn; [done|done].
Qed.

Lemma planner_inv_run_queue p image fuel st g :
  run_queue p image fuel st = Some g →
  planner_inv st →
  planner_inv {| graph := g; queue := []; queue_log := queue_log st |}
  ∨ ∃ log, planner_inv {| graph := g; queue := []; queue_log := log |}.
Proof.
  revert st. induction fuel as [|fuel IH]; intros [g0 q log]; cbn.
  - destruct q; [|done]. intros [= <-] Hinv. by left.
  - destruct q as [|current rest]; [intros [= <-] Hinv; by left|].
    intros Hrun Hinv. right.
    destruct (IH _ Hrun (planner_inv_process p image current rest g0 log Hinv))
      as [?|[log' ?]]; by eexists.
Qed.

(** The graph that a decomposition returns satisfies the invariants, with
    an empty queue. *)
Lemma planner_run_inv p fuel statement image g :
  planner_run p fuel statement image = Some g →
  ∃ log, planner_inv {| graph := g; queue := []; queue_log := log |}.
Proof.
  intros Hrun.
  destruct (planner_inv_run_queue _ _ _ _ _ Hrun
              (planner_inv_start p statement image)) as [?|?]; eauto.
Qed.

(** ** The graph of a decomposition *)

Lemma planner_nodes_reachable g :
  structure_inv g → ∀ i, i < length (nodes g) → reaches (nodes g) 0 i.
Proof.
  intros (_ & _ & _ & _ & Hpar) i.
  induction i as [i IH] using lt_wf_ind. intros Hi.
  destruct (decide (i = 0)) as [->|Hi0]; [constructor|].
  destruct (lookup_lt_is_Some_2 _ _ Hi) as [n Hn].
  destruct (Hpar i n Hn Hi0) as (p & np & _ & Hlt & Hnp & Hdep).
  eapply reaches_trans.
  - apply IH; [done|]. by eapply lookup_lt_Some.
  - eapply reaches_step; [done|done|constructor].
Qed.

(** X3: on the graph that a decomposition returns, cyclic or not, and
    when the interpreter has room for one nested call of the traversal more
    than the graph has nodes (without that room the traversal can end in a
    RecursionError), the build order is computed and is a permutation of
    the nodes of the graph: the later stages visit every node, once. *)
Theorem planned_build_order_lists_every_node p fuel statement image g room :
  planner_run p fuel statement image = Some g →
  length (nodes g) < room →
  ∃ order, get_build_order room g = Some order
           ∧ order ≡ₚ seq 0 (length (nodes g)).
Proof.
  intros Hrun Hroom. destruct (planner_run_inv _ _ _ _ _ Hrun) as (log & Hs & _).
  cbn [graph] in Hs. pose proof Hs as (Hroot & Hlen & _ & Hdeps & _).
  assert (refs_in_arena g) as Hrefs by (split; [by rewrite Hroot|done]).
  destruct (build_order_reachable room g Hrefs Hroom)
    as (order & Hord & Hnd & Hiff).
  exists order. split; [done|].
  apply NoDup_Permutation; [done|apply NoDup_seq|].
  intros x. rewrite Hiff, Hroot, elem_of_seq. split.
  - intros Hreach. split; [lia|]. cbn.
    by apply (reaches_in_arena (nodes g) 0 x Hdeps).
  - intros [_ Hx]. by apply planner_nodes_reachable.
Qed.

Lemma planned_build_order_lists_every_node_witness :
  ∃ g, planner_run (sample_planner expand_shared) 10 "s" None = Some g
       ∧ length (nodes g) < 5
       ∧ ∃ order, get_build_order 5 g = Some order
                  ∧ order ≡ₚ seq 0 (length (nodes g)).
Proof.
  exists (planned expand_shared "s").
  assert (planner_run (sample_planner expand_shared) 10 "s" None
          = Some (planned expand_shared "s")) as Hrun
    by (vm_compute; reflexivity).
  assert (length (nodes (planned expand_shared "s")) < 5) as Hroom
    by (rewrite planned_shared_nodes; cbn; lia).
  split; [exact Hrun|]. split; [exact Hroom|].
  exact (planned_build_order_lists_every_node _ _ _ _ _ 5 Hrun Hroom).
Defined.

(** X4: in the graph that a decomposition returns the root needs
    synthesis, no node is left waiting for expansion, and a grounded node
    has no dependency and carries at least one identifier. *)
Theorem planned_nodes_are_settled p fuel statement image g :
  planner_run p fuel statement image = Some g →
  (∃ r, nodes g !! root g = Some r ∧ status r = TO_SYNTHESIZE)
  ∧ ∀ i n, nodes g !! i = Some n →
           status n ≠ TO_EXPAND
           ∧ (status n = GROUNDED →
              dependencies n = []
              ∧ ∃ defs, grounded_definition n = DefList defs ∧ defs ≠ []).
Proof.
  intros Hrun.
  destruct (planner_run_inv _ _ _ _ _ Hrun)
    as (log & (Hroot & _) & _ & (Hr & _ & _ & Hexp & Hgr) & _).
  cbn [graph queue] in *. split; [by rewrite Hroot|].
  intros i n Hn. split.
  - intros Hst. exact (not_elem_of_nil _ (Hexp i n Hn Hst)).
  - by apply (Hgr i n).
Qed.

Lemma planned_nodes_are_settled_witness :
  ∃ g, planner_run (sample_planner expand_shared) 10 "s" None = Some g
       ∧ (∃ r, nodes g !! root g = Some r ∧ status r = TO_SYNTHESIZE)
       ∧ ∀ i n, nodes g !! i = Some n →
                status n ≠ TO_EXPAND
                ∧ (status n = GROUNDED →
                   dependencies n = []
                   ∧ ∃ defs, grounded_definition n = DefList defs ∧ defs ≠ []).
Proof.
  exists (planned expand_shared "s").
  assert (planner_run (sample_planner expand_shared) 10 "s" None
          = Some (planned expand_shared "s")) as Hrun
    by (vm_compute; reflexivity).
  split; [exact Hrun|].
  exact (planned_nodes_are_settled _ _ _ _ _ Hrun).
Defined.

(** X5: in the graph that a decomposition returns every node is stored
    under its identifier, lists no dependency twice and only nodes of the
    graph; a node other than the root does not depend on itself and is
    among the dependencies of its parent. *)
Theorem planned_edges_well_formed p fuel statement image g :
  planner_run p fuel statement image = Some g →
  ∀ i n, nodes g !! i = Some n →
    id n = i
    ∧ NoDup (dependencies n)
    ∧ (∀ d, d ∈ dependencies n → d < length (nodes g))
    ∧ (i ≠ root g →
       (i ∉ dependencies n)
       ∧ ∃ q nq, parent n = Some q ∧ nodes g !! q = Some nq
                 ∧ i ∈ dependencies nq).
Proof.
  intros Hrun i n Hn.
  destruct (planner_run_inv _ _ _ _ _ Hrun)
    as (log & (Hroot & _ & Hid & Hdeps & Hpar) & _ & _ & (Hnd & Hself)).
  cbn [graph] in *. rewrite Hroot.
  split; [by apply Hid|]. split; [by eapply Hnd|]. split.
  - intros d Hd. apply lookup_lt_is_Some_1. by eapply Hdeps.
  - intros Hi. split; [by eapply Hself|].
    destruct (Hpar i n Hn Hi) as (q & nq & ? & _ & ? & ?). by exists q, nq.
Qed.

Lemma planned_edges_well_formed_witness :
  ∃ g, planner_run (sample_planner expand_shared) 10 "s" None = Some g
       ∧ ∀ i n, nodes g !! i = Some n →
           id n = i
           ∧ NoDup (dependencies n)
           ∧ (∀ d, d ∈ dependencies n → d < length (nodes g))
           ∧ (i ≠ root g →
              (i ∉ dependencies n)
              ∧ ∃ q nq, parent n = Some q ∧ nodes g !! q = Some nq
                        ∧ i ∈ dependencies nq).
Proof.
  exists (planned expand_shared "s").
  assert (planner_run (sample_planner expand_shared) 10 "s" None
          = Some (planned expand_shared "s")) as Hrun
    by (vm_compute; reflexivity).
  split; [exact Hrun|].
  exact (planned_edges_well_formed _ _ _ _ _ Hrun).
Defined.

(** X6: on the graph that a decomposition returns, [find_node_by_name]
    answers node [i] exactly when node [i] has the normalized name that was
    asked for. *)
Theorem planned_lookup_by_name p fuel statement image g :
  planner_run p fuel statement image = Some g →
  ∀ nm i, find_node_by_name g nm = Some i
          ↔ ∃ n, nodes g !! i = Some n
                 ∧ lower_strip (name n) = lower_strip nm.
Proof.
  intros Hrun nm i.
  destruct (planner_run_inv _ _ _ _ _ Hrun)
    as (log & _ & (Hidx & Hsound & _) & _ & _).
  cbn [graph] in *. unfold find_node_by_name. split.
  - intros Hk. by apply Hsound.
  - intros (n & Hn & <-). by apply Hidx.
Qed.

Lemma planned_lookup_by_name_witness :
  ∃ g, planner_run (sample_planner expand_shared) 10 "s" None = Some g
       ∧ ∀ nm i, find_node_by_name g nm = Some i
                 ↔ ∃ n, nodes g !! i = Some n
                        ∧ lower_strip (name n) = lower_strip nm.
Proof.
  exists (planned expand_shared "s").
  assert (planner_run (sample_planner expand_shared) 10 "s" None
          = Some (planned expand_shared "s")) as Hrun
    by (vm_compute; reflexivity).
  split; [exact Hrun|].
  exact (planned_lookup_by_name _ _ _ _ _ Hrun).
Defined.

(** ** What a save writes *)

(** The dict that a save writes, key by key. *)
Lemma merged_kb_lookup cache g (existing_kb : gmap string kb_entry) k :
  merged_kb cache g existing_kb !! k
  = match cache !! k with
    | Some code =>
        if String.eqb k (lower_strip (node_name g (root g)))
        then existing_kb !! k
        else
          match find_node_by_name g k with
          | Some i =>
              Some {| kb_code := Some code;
                      kb_deps :=
                        Some (map (λ d, lower_strip (node_name g d))
                                  (node_dependencies g i)) |}
          | None => existing_kb !! k
          end
    | None => existing_kb !! k
    end.
Proof.
  unfold merged_kb. revert k.
  apply (map_fold_weak_ind
           (λ r (m : gmap string string), ∀ k,
              r !! k
              = match m !! k with
                | Some code =>
                    if String.eqb k (lower_strip (node_name g (root g)))
                    then existing_kb !! k
                    else
                      match find_node_by_name g k with
                      | Some i =>
                          Some {| kb_code := Some code;
                                  kb_deps :=
                                    Some (map (λ d, lower_strip (node_name g d))
                                              (node_dependencies g i)) |}
                      | None => existing_kb !! k
                      end
                | None => existing_kb !! k
                end)).
  - intros k. by rewrite lookup_empty.
  - intros i code m r Hi IH k. unfold save_item.
    destruct (decide (k = i)) as [->|Hne].
    + rewrite lookup_insert_eq. specialize (IH i). rewrite Hi in IH.
      destruct (String.eqb i _); [done|].
      destruct (find_node_by_name g i); [|done]. by rewrite lookup_insert_eq.
    + rewrite lookup_insert_ne by done. rewrite <- IH.
      destruct (String.eqb i _); [done|].
      destruct (find_node_by_name g i); [|done]. by rewrite lookup_insert_ne.
Qed.

(** Merging the same cache into what the merge gave changes nothing. *)
Lemma merged_kb_idemp cache g (existing_kb : gmap string kb_entry) :
  merged_kb cache g (merged_kb cache g existing_kb)
  = merged_kb cache g existing_kb.
Proof.
  apply map_eq. intros k. rewrite (merged_kb_lookup _ _ (merged_kb _ _ _)).
  rewrite merged_kb_lookup.
  destruct (cache !! k); [|done]. destruct (String.eqb k _); [done|].
  by destruct (find_node_by_name g k).
Qed.

(** X7: the dict that [save_verified_nodes] writes, when the file was
    loaded and the write succeeds, is the loaded dict with the cache merged
    into it.  An entry of the loaded file is never deleted; a key that the
    cache does not hold keeps what was loaded; a cached key other than the
    key of the root whose node is found in the graph gets the cached code
    and the keys of the dependencies of that node; a cached key with no
    node in the graph keeps what was loaded. *)
Theorem save_merges_cache_into_loaded_entries cache g f existing_kb :
  load_knowledge_base f = Loaded existing_kb →
  save_verified_nodes Written cache g f
  = mkSaved (FileDict (KBDict <$> merged_kb cache g existing_kb)) None
  ∧ load_knowledge_base
      (file_after (save_verified_nodes Written cache g f))
    = Loaded (merged_kb cache g existing_kb)
  ∧ (∀ k, is_Some (existing_kb !! k) →
          is_Some (merged_kb cache g existing_kb !! k))
  ∧ (∀ k, cache !! k = None →
          merged_kb cache g existing_kb !! k = existing_kb !! k)
  ∧ (∀ k code i,
       cache !! k = Some code →
       k ≠ lower_strip (node_name g (root g)) →
       find_node_by_name g k = Some i →
       merged_kb cache g existing_kb !! k
       = Some {| kb_code := Some code;
                 kb_deps := Some (map (λ d, lower_strip (node_name g d))
                                      (node_dependencies g i)) |})
  ∧ (∀ k, find_node_by_name g k = None →
          merged_kb cache g existing_kb !! k = existing_kb !! k).
Proof.
  intros Hload. unfold save_verified_nodes. rewrite Hload.
  cbn [file_after]. rewrite load_written. repeat split.
  - intros k Hk. rewrite merged_kb_lookup.
    destruct (cache !! k); [|done]. destruct (String.eqb k _); [done|].
    by destruct (find_node_by_name g k).
  - intros k Hk. by rewrite merged_kb_lookup, Hk.
  - intros k code i Hk Hroot Hi. rewrite merged_kb_lookup, Hk, Hi.
    by destruct (String.eqb_spec k (lower_strip (node_name g (root g)))).
  - intros k Hk. rewrite merged_kb_lookup, Hk.
    destruct (cache !! k); [|done]. by destruct (String.eqb k _).
Qed.

Lemma save_merges_cache_into_loaded_entries_witness :
  ∃ kb,
    load_knowledge_base
      (file_after
         (save_verified_nodes Written
            {[ "s" := "root code"; "x" := "code of x"; "w" := "stray" ]}
            (planned expand_shared "s")
            (FileDict {[ "old" := KBDict (mkEntry (Some "c") (Some [])) ]})))
    = Loaded kb
    ∧ kb !! "x" = Some (mkEntry (Some "code of x") (Some ["z"])).
Proof.
  destruct (save_merges_cache_into_loaded_entries
              {[ "s" := "root code"; "x" := "code of x"; "w" := "stray" ]}
              (planned expand_shared "s")
              (FileDict {[ "old" := KBDict (mkEntry (Some "c") (Some [])) ]})
              {[ "old" := mkEntry (Some "c") (Some []) ]})
    as (_ & Hload & _ & _ & Hnode & _).
  { vm_compute. reflexivity. }
  eexists. split; [exact Hload|].
  apply (Hnode "x" "code of x" 1).
  - vm_compute. reflexivity.
  - vm_compute. discriminate.
  - vm_compute. reflexivity.
Defined.


(** X9: a save is idempotent: saving the same cache for the same graph a
    second time leaves the file as the first save wrote it. *)
Theorem save_twice_is_save_once cache g f :
  save_verified_nodes Written cache g
    (file_after (save_verified_nodes Written cache g f))
  = save_verified_nodes Written cache g f.
Proof.
  unfold save_verified_nodes at 2.
  destruct (load_knowledge_base f) as [existing_kb|msg] eqn:Hload.
  - cbn [file_after]. unfold save_verified_nodes.
    rewrite load_written, Hload. by rewrite merged_kb_idemp.
  - cbn [file_after]. unfold save_verified_nodes. by rewrite Hload.
Qed.

(** ** The budget and the result of a worker *)

Lemma count_app (p : worker_event → bool) (a b : list worker_event) :
  length (filter (λ e, p e = true) (a ++ b))
  = length (filter (λ e, p e = true) a) + length (filter (λ e, p e = true) b).
Proof. by rewrite filter_app, length_app. Qed.

Lemma count_cons (p : worker_event → bool) e (a : list worker_event) :
  length (filter (λ e, p e = true) (e :: a))
  = (if p e then 1 else 0) + length (filter (λ e, p e = true) a).
Proof.
  destruct (p e) eqn:He.
  - by rewrite filter_cons_True.
  - rewrite filter_cons_False; [done|]. by rewrite He.
Qed.

Lemma count_nil (p : worker_event → bool) :
  length (filter (λ e, p e = true) []) = 0.
Proof. done. Qed.

Ltac count_events :=
  cbn [with_events snd];
  repeat first [rewrite count_cons | rewrite count_app | rewrite count_nil];
  cbn [is_generation_call is_compile_call is_check_call];
  lia.

(** The gate calls the reasoning capability twice or not at all, and only
    on the first attempt for the root, when the question is not empty. *)
Lemma semantic_gate_events self site node_name code image question is_root :
  (semantic_gate self site node_name code image question is_root).2
  = (if (call_attempt site =? 0)%nat && negb (is_empty question) && is_root
     then [CallBackTranslation; CallSemanticCheck] else []).
Proof. unfold semantic_gate. by destruct (_ && _ && _). Qed.

Lemma worker_attempts_counts self worker_id node_name ctx chunks imports
    image question is_root remaining attempt failed_code error_msg :
  let tr := (worker_attempts self worker_id node_name ctx chunks imports image
               question is_root remaining attempt failed_code error_msg).2 in
  (generation_calls tr ≤ remaining)%nat
  ∧ (compile_calls tr ≤ generation_calls tr)%nat
  ∧ (semantic_check_calls tr ≤ if (attempt =? 0)%nat then 1 else 0)%nat.
Proof.
  revert attempt failed_code error_msg.
  induction remaining as [|remaining IH]; intros attempt failed_code error_msg;
    cbv zeta.
  { cbn. destruct (attempt =? 0)%nat; lia. }
  cbn [worker_attempts].
  destruct (stop_is_set self _); [cbn; destruct (attempt =? 0)%nat; lia|].
  assert (∀ fc em,
            let tr := (worker_attempts self worker_id node_name ctx chunks
                         imports image question is_root remaining (S attempt)
                         fc em).2 in
            (generation_calls tr ≤ remaining)%nat
            ∧ (compile_calls tr ≤ generation_calls tr)%nat
            ∧ semantic_check_calls tr = 0) as Hnext.
  { intros fc em. cbv zeta.
    destruct (IH (S attempt) fc em) as (? & ? & ?). cbn in *. lia. }
  pose proof (semantic_gate_events self (mkCall node_name worker_id attempt)
                node_name) as Hgate.
  cbn [call_attempt] in Hgate.
  unfold generation_calls, compile_calls, semantic_check_calls in *.
  destruct (attempt =? 0)%nat eqn:Hatt.
  - destruct (is_empty _ || is_empty _).
    { destruct (Hnext (run_synthesis_module (synth_llm self)
                         (mkCall node_name worker_id attempt) node_name ctx image)
                      "Empty code from LLM.") as (? & ? & ?). count_events. }
    specialize (Hgate (run_synthesis_module (synth_llm self)
                         (mkCall node_name worker_id attempt) node_name ctx image)
                      image question is_root).
    destruct (semantic_gate _ _ _ _ _ _ _) as [gate ev_gate].
    cbn [snd] in Hgate. subst ev_gate.
    destruct gate as [| |msg].
    + destruct (String.eqb _ "success").
      * cbn [snd]. destruct (_ && _ && _);
          count_events.
      * cbn [with_events snd].
        match goal with
        | |- context [worker_attempts _ _ _ _ _ _ _ _ _ _ _ ?fc ?em] =>
            destruct (Hnext fc em) as (? & ? & ?)
        end.
        destruct (_ && _ && _);
          count_events.
    + cbn [snd]. destruct (_ && _ && _);
        count_events.
    + cbn [with_events snd].
      destruct (Hnext failed_code msg) as (? & ? & ?).
      destruct (_ && _ && _);
        count_events.
  - destruct (is_empty _ || is_empty _).
    { match goal with
      | |- context [worker_attempts _ _ _ _ _ _ _ _ _ _ _ ?fc ?em] =>
          destruct (Hnext fc em) as (? & ? & ?)
      end. count_events. }
    specialize (Hgate (run_reflection_module (synth_llm self)
                         (mkCall node_name worker_id attempt) node_name ctx
                         failed_code error_msg)
                      image question is_root).
    destruct (semantic_gate _ _ _ _ _ _ _) as [gate ev_gate].
    cbn [snd andb] in Hgate. subst ev_gate.
    destruct gate as [| |msg].
    + destruct (String.eqb _ "success").
      * cbn [snd]. count_events.
      * cbn [with_events snd].
        match goal with
        | |- context [worker_attempts _ _ _ _ _ _ _ _ _ _ _ ?fc ?em] =>
            destruct (Hnext fc em) as (? & ? & ?)
        end.
        count_events.
    + cbn [snd]. count_events.
    + cbn [with_events snd].
      destruct (Hnext failed_code msg) as (? & ? & ?).
      count_events.
Qed.

(** The gate never sets the stop flag. *)
Lemma semantic_gate_no_stop self site node_name code image question is_root :
  SetStopEvent
  ∉ (semantic_gate self site node_name code image question is_root).2.
Proof.
  rewrite semantic_gate_events. destruct (_ && _ && _); set_solver.
Qed.

(** The result of a worker: code comes from a candidate that is not blank
    and that the compiler accepted in the last call of the worker, after
    which the stop flag is set; nothing comes with the flag never set. *)
Lemma worker_attempts_result self worker_id node_name ctx chunks imports
    image question is_root remaining attempt failed_code error_msg :
  let w := worker_attempts self worker_id node_name ctx chunks imports image
             question is_root remaining attempt failed_code error_msg in
  match w.1 with
  | Some code =>
      ∃ current pre,
        code = code_without_imports current
        ∧ is_empty (strip current) = false
        ∧ comp_status
            (compile_code self (full_code_to_compile imports chunks current)
               worker_id) = "success"
        ∧ w.2 = pre ++ [CallCompile (full_code_to_compile imports chunks current);
                        SetStopEvent]
        ∧ SetStopEvent ∉ pre
  | None => SetStopEvent ∉ w.2
  end.
Proof.
  revert attempt failed_code error_msg.
  induction remaining as [|remaining IH]; intros attempt failed_code error_msg;
    cbv zeta.
  { cbn. apply not_elem_of_nil. }
  cbn [worker_attempts].
  destruct (stop_is_set self _); [cbn; apply not_elem_of_nil|].
  assert (∀ evs fc em,
            SetStopEvent ∉ evs →
            match (with_events evs
                     (worker_attempts self worker_id node_name ctx chunks
                        imports image question is_root remaining (S attempt)
                        fc em)).1 with
            | Some code =>
                ∃ current pre,
                  code = code_without_imports current
                  ∧ is_empty (strip current) = false
                  ∧ comp_status
                      (compile_code self
                         (full_code_to_compile imports chunks current)
                         worker_id) = "success"
                  ∧ (with_events evs
                       (worker_attempts self worker_id node_name ctx chunks
                          imports image question is_root remaining (S attempt)
                          fc em)).2
                    = pre ++ [CallCompile
                                (full_code_to_compile imports chunks current);
                              SetStopEvent]
                  ∧ SetStopEvent ∉ pre
            | None =>
                SetStopEvent
                ∉ (with_events evs
                     (worker_attempts self worker_id node_name ctx chunks
                        imports image question is_root remaining (S attempt)
                        fc em)).2
            end) as Hnext.
  { intros evs fc em Hevs. specialize (IH (S attempt) fc em). cbv zeta in IH.
    cbn [with_events fst snd].
    destruct (worker_attempts _ _ _ _ _ _ _ _ _ _ _ _ _).1 as [code|].
    - destruct IH as (current & pre & -> & Hne & Hok & -> & Hpre).
      exists current, (evs ++ pre). rewrite app_assoc.
      repeat split; try done. set_solver.
    - set_solver. }
  set (candidate := if (attempt =? 0)%nat then _ else _).
  assert (candidate.2 ≠ SetStopEvent) as Hgen
    by (unfold candidate; by destruct (attempt =? 0)%nat).
  destruct candidate as [current_code ev_gen]. cbn [snd] in Hgen.
  destruct (is_empty current_code || is_empty (strip current_code)) eqn:Hblank.
  { apply Hnext. set_solver. }
  apply orb_false_iff in Hblank as [_ Hblank].
  pose proof (semantic_gate_no_stop self (mkCall node_name worker_id attempt)
                node_name current_code image question is_root) as Hgate.
  destruct (semantic_gate _ _ _ _ _ _ _) as [gate ev_gate]. cbn [snd] in Hgate.
  destruct gate as [| |msg].
  - destruct (String.eqb_spec
                (comp_status
                   (compile_code self
                      (full_code_to_compile imports chunks current_code)
                      worker_id)) "success") as [Hok|Hno].
    + cbn [fst snd]. exists current_code, (ev_gen :: ev_gate).
      repeat split; try done. set_solver.
    + apply Hnext. set_solver.
  - cbn [fst snd]. set_solver.
  - apply Hnext. set_solver.
Qed.

(** X10: a worker stays within its budget: it asks the reasoning
    capability for at most [ATTEMPTS_PER_WORKER] candidates, compiles at
    most once per candidate, and asks for at most one consistency
    judgment. *)
Theorem worker_stays_within_budget self worker_id node_name ctx chunks imports
    image question is_root :
  let tr := (_synthesis_worker self worker_id node_name ctx chunks imports
               image question is_root).2 in
  (generation_calls tr ≤ ATTEMPTS_PER_WORKER self)%nat
  ∧ (compile_calls tr ≤ generation_calls tr)%nat
  ∧ (semantic_check_calls tr ≤ 1)%nat.
Proof. apply worker_attempts_counts. Qed.

(** X11: a worker answers code only when the compiler accepted it: the
    code is a candidate that is not blank, stripped of its import lines,
    whose full source (imports, dependency chunks, code) was accepted in
    the last compile call of the worker, and the stop flag is set right
    after that call and never before; a worker that answers nothing never
    sets the stop flag. *)
Theorem worker_answers_only_compiled_code self worker_id node_name ctx chunks
    imports image question is_root :
  let w := _synthesis_worker self worker_id node_name ctx chunks imports
             image question is_root in
  (∀ code, w.1 = Some code →
     ∃ current pre,
       code = code_without_imports current
       ∧ is_empty (strip current) = false
       ∧ comp_status
           (compile_code self (full_code_to_compile imports chunks current)
              worker_id) = "success"
       ∧ w.2 = pre ++ [CallCompile (full_code_to_compile imports chunks current);
                       SetStopEvent]
       ∧ SetStopEvent ∉ pre)
  ∧ (w.1 = None → SetStopEvent ∉ w.2).
Proof.
  cbv zeta. unfold _synthesis_worker.
  pose proof (worker_attempts_result self worker_id node_name ctx chunks
                imports image question is_root (ATTEMPTS_PER_WORKER self) 0
                EmptyString EmptyString) as H.
  cbv zeta in H. split.
  - intros code Hcode. by rewrite Hcode in H.
  - intros Hnone. by rewrite Hnone in H.
Qed.

Lemma worker_attempts_no_gate self worker_id node_name ctx chunks imports
    image question is_root remaining attempt failed_code error_msg :
  is_root = false ∨ question = EmptyString →
  ∀ e, e ∈ (worker_attempts self worker_id node_name ctx chunks imports image
              question is_root remaining attempt failed_code error_msg).2 →
       e ≠ CallBackTranslation ∧ e ≠ CallSemanticCheck.
Proof.
  intros Hno. revert attempt failed_code error_msg.
  induction remaining as [|remaining IH]; intros attempt failed_code error_msg.
  { cbn. by intros e ?%not_elem_of_nil. }
  cbn [worker_attempts].
  destruct (stop_is_set self _); [cbn; by intros e ?%not_elem_of_nil|].
  set (candidate := if (attempt =? 0)%nat then _ else _).
  assert (candidate.2 ≠ CallBackTranslation ∧ candidate.2 ≠ CallSemanticCheck)
    as [Hgen1 Hgen2]
    by (unfold candidate; by destruct (attempt =? 0)%nat).
  destruct candidate as [current_code ev_gen]. cbn [snd] in Hgen1, Hgen2.
  destruct (is_empty current_code || is_empty (strip current_code)).
  { cbn [with_events snd]. intros e [->%list_elem_of_singleton|He]%elem_of_app;
      [done|by eapply IH]. }
  pose proof (semantic_gate_events self (mkCall node_name worker_id attempt)
                node_name current_code image question is_root) as Hgate.
  assert ((call_attempt (mkCall node_name worker_id attempt) =? 0)%nat
          && negb (is_empty question) && is_root = false) as Hoff.
  { destruct Hno as [->| ->]; [apply andb_false_r|].
    by rewrite andb_false_r. }
  rewrite Hoff in Hgate.
  destruct (semantic_gate _ _ _ _ _ _ _) as [gate ev_gate]. cbn [snd] in Hgate.
  subst ev_gate. destruct gate as [| |msg].
  - destruct (String.eqb _ "success"); cbn [with_events snd app].
    + intros e He. set_solver.
    + intros e [->|[->|He]%elem_of_cons]%elem_of_cons;
        [done|done|by eapply IH].
  - cbn [snd]. intros e ->%list_elem_of_singleton. done.
  - cbn [with_events snd app].
    intros e [->|He]%elem_of_cons; [done|by eapply IH].
Qed.

(** X12: the semantic pre-check is for the nodes that [run] takes for the
    root, which it tells by the normalized name.  [run] calls the workers
    of a node with the flag [normalize(name.strip()) == normalize(root
    name)] and the name of the root as the question: a worker of a node
    whose normalized name differs from the root's, or any worker when the
    name of the root is empty, asks for no back-translation and no
    consistency judgment, whatever its candidates are.  A node other than
    the root whose name collapses to the name of the root does get the
    check: so does "a b" under the root "a  b". *)
Theorem worker_gate_only_for_root :
  (∀ self g worker_id (n : ConceptNode) ctx chunks image,
     let root_node_name := node_name g (root g) in
     let is_root :=
       String.eqb (_normalize_node_name (strip (name n)))
                  (_normalize_node_name root_node_name) in
     let tr := (_synthesis_worker self worker_id (strip (name n)) ctx chunks
                  BASE_IMPORTS image root_node_name is_root).2 in
     _normalize_node_name (strip (name n))
     ≠ _normalize_node_name root_node_name
     ∨ root_node_name = EmptyString →
     (CallBackTranslation ∉ tr) ∧ (CallSemanticCheck ∉ tr))
  ∧ (let self :=
       GoTSynthesizer_init
         (sample_env expand_collision "level_1" "level_1" true) in
     let g := planned expand_collision "a  b" in
     ∃ n, root g = 0 ∧ nodes g !! 1 = Some n ∧ name n = "a b"
          ∧ CallSemanticCheck
            ∈ (_synthesis_worker self 0 (strip (name n)) EmptyString []
                 BASE_IMPORTS None (node_name g (root g))
                 (String.eqb (_normalize_node_name (strip (name n)))
                    (_normalize_node_name (node_name g (root g))))).2).
Proof.
  split.
  - intros self g worker_id n ctx chunks image. cbv zeta. intros Hno.
    assert (String.eqb (_normalize_node_name (strip (name n)))
              (_normalize_node_name (node_name g (root g))) = false
            ∨ node_name g (root g) = EmptyString) as Hflag.
    { destruct Hno as [Hne|?]; [left|by right]. by apply String.eqb_neq. }
    unfold _synthesis_worker.
    split; intros Hin;
      by destruct (worker_attempts_no_gate _ _ _ _ _ _ _ _ _ _ _ _ _ Hflag
                     _ Hin).
  - cbv zeta. eexists. split; [vm_compute; reflexivity|].
    split; [vm_compute; reflexivity|]. split; [reflexivity|].
    vm_compute. apply elem_of_cons. right. apply elem_of_cons. right.
    apply elem_of_cons. left. reflexivity.
Qed.

Lemma worker_gate_only_for_root_witness :
  let self :=
    GoTSynthesizer_init (sample_env expand_shared "level_3" "level_1" false) in
  let g := planned expand_shared "s" in
  let tr := (_synthesis_worker self 0 (strip "z") EmptyString []
               BASE_IMPORTS None (node_name g (root g))
               (String.eqb (_normalize_node_name (strip "z"))
                  (_normalize_node_name (node_name g (root g))))).2 in
  (CallBackTranslation ∉ tr) ∧ (CallSemanticCheck ∉ tr).
Proof.
  apply (proj1 worker_gate_only_for_root
           (GoTSynthesizer_init
              (sample_env expand_shared "level_3" "level_1" false))
           (planned expand_shared "s") 0
           (mkNode 3 "z" TO_SYNTHESIZE [] (Some 1) (DefList []))
           EmptyString [] None).
  left. vm_compute. discriminate.
Defined.

Lemma worker_answers_only_compiled_code_witness :
  ∃ current pre,
    "def x := z" = code_without_imports current
    ∧ is_empty (strip current) = false
    ∧ comp_status
        (compile_code
           (GoTSynthesizer_init
              (sample_env expand_shared "level_1" "level_1" true))
           (full_code_to_compile BASE_IMPORTS [] current) 0) = "success"
    ∧ (_synthesis_worker
         (GoTSynthesizer_init
            (sample_env expand_shared "level_1" "level_1" true))
         0 "z" "" [] BASE_IMPORTS None "s" false).2
      = pre ++ [CallCompile (full_code_to_compile BASE_IMPORTS [] current);
                SetStopEvent]
    ∧ SetStopEvent ∉ pre.
Proof.
  apply (proj1 (worker_answers_only_compiled_code
                  (GoTSynthesizer_init
                     (sample_env expand_shared "level_1" "level_1" true))
                  0 "z" "" [] BASE_IMPORTS None "s" false)).
  vm_compute. reflexivity.
Defined.

(** ** The run cache holds accepted code *)

Lemma first_truthy_elem results c :
  first_truthy results = Some c → Some c ∈ results ∧ is_empty c = false.
Proof.
  induction results as [|r results IH]; [done|]. cbn [first_truthy].
  destruct (truthy r) eqn:Hr.
  - intros ->. split; [apply elem_of_cons; by left|].
    cbn in Hr. by apply negb_true_iff in Hr.
  - intros [Hin ?]%IH. split; [apply elem_of_cons; by right|done].
Qed.

(** Every result of the pool is the result of one of its workers. *)
Lemma pool_results_elem self node_name_clean ctx chunks image root_name
    is_root r :
  r ∈ pool_results self node_name_clean ctx chunks image root_name is_root →
  ∃ i, i < CONCURRENT_WORKERS self
       ∧ r = (_synthesis_worker self i node_name_clean ctx chunks BASE_IMPORTS
                image root_name is_root).1.
Proof.
  unfold pool_results. intros (i & _ & Hi)%list_elem_of_omap.
  rewrite list_lookup_fmap in Hi.
  destruct (seq 0 (CONCURRENT_WORKERS self) !! i) as [k|] eqn:Hk; [|done].
  apply lookup_seq in Hk as [-> Hlt]. cbn in Hi. injection Hi as <-.
  by exists i.
Qed.

(** The code that the pool of a node yields is the answer of one of its
    workers, which ended by compiling the full source of that code, with
    success. *)
Lemma pool_code_accepted self node_name_clean ctx chunks image root_name
    is_root c :
  first_truthy (pool_results self node_name_clean ctx chunks image root_name
                  is_root) = Some c →
  is_empty c = false
  ∧ ∃ worker_id current trace,
      worker_id < CONCURRENT_WORKERS self
      ∧ _synthesis_worker self worker_id node_name_clean ctx chunks
          BASE_IMPORTS image root_name is_root
        = (Some c,
           trace ++ [CallCompile (full_code_to_compile BASE_IMPORTS chunks
                                    current);
                     SetStopEvent])
      ∧ c = code_without_imports current
      ∧ comp_status
          (compile_code self (full_code_to_compile BASE_IMPORTS chunks current)
             worker_id) = "success".
Proof.
  intros [Hin Hne]%first_truthy_elem. split; [done|].
  apply pool_results_elem in Hin as (i & Hi & Hw). symmetry in Hw.
  pose proof (worker_attempts_result self i node_name_clean ctx chunks
                BASE_IMPORTS image root_name is_root (ATTEMPTS_PER_WORKER self)
                0 EmptyString EmptyString) as H.
  cbv zeta in H. unfold _synthesis_worker in Hw |- *.
  destruct (worker_attempts _ _ _ _ _ _ _ _ _ _ _ _ _) as [res tr] eqn:Hrun.
  cbn [fst snd] in *. subst res.
  destruct H as (current & pre & -> & _ & Hok & -> & _).
  exists i, current, pre. by rewrite Hrun.
Qed.

(** The code that the pool of a node yields was accepted by the compiler. *)
Lemma pool_code_compiled self node_name_clean ctx chunks image root_name
    is_root c :
  first_truthy (pool_results self node_name_clean ctx chunks image root_name
                  is_root) = Some c →
  is_empty c = false ∧ compiled_for self c.
Proof.
  intros (Hne & i & current & _ & Hi & _ & -> & Hok)%pool_code_accepted.
  split; [done|]. by exists i, chunks, current.
Qed.

Lemma accepted_compiled self g image i n c :
  accepted_for_node self g image i n c → compiled_for self c.
Proof.
  intros (_ & _ & _ & chunks & _ & worker_id & current & _
          & _ & _ & _ & _ & Hi & _ & -> & Hok).
  by exists worker_id, chunks, current.
Qed.

(** The state after [pre] and one more node that does not end the run. *)
Lemma loop_prefix_snoc self g image rn rnorm pre node st0 st st' :
  loop_prefix self g image rn rnorm pre st0 = Some st →
  synth_node self g image rn rnorm node st = Continue st' →
  loop_prefix self g image rn rnorm (pre ++ [node]) st0 = Some st'.
Proof.
  revert st0. induction pre as [|x pre IH]; intros st0; cbn [loop_prefix app].
  - intros [= ->] ->. done.
  - destruct (synth_node _ _ _ _ _ x st0); [apply IH|done].
Qed.

(** Appending events that are themselves accounted for. *)
Lemma written_by_app self g image paste_ok evs new :
  written_by self g image paste_ok evs →
  written_by self g image paste_ok new →
  written_by self g image paste_ok (evs ++ new).
Proof.
  intros Hold Hnew j k c [Hj|[Hlen Hj]]%lookup_app_Some.
  - destruct (Hold j k c Hj)
      as [(j' & node & n & -> & Hj' & Hrest)|?]; [left|by right].
    exists j', node, n. split; [done|]. split; [|done].
    by apply lookup_app_l_Some.
  - destruct (Hnew _ k c Hj)
      as [(j' & node & n & Heq & Hj' & Hrest)|?]; [left|by right].
    exists (length evs + j'), node, n. split; [lia|]. split; [|done].
    rewrite lookup_app_r by lia. by replace (length evs + j' - length evs)
      with j' by lia.
Qed.

Lemma run_inv_extend self g image paste_ok st key code new :
  run_inv self g image paste_ok st →
  written_by self g image paste_ok new →
  (∃ j, new !! j = Some (CacheWritten key code)) →
  ∀ pieces grounded,
    run_inv self g image paste_ok
      {| final_code_pieces := pieces;
         synthesized_cache := <[ key := code ]> (synthesized_cache st);
         grounded_set := grounded;
         events := events st ++ new |}.
Proof.
  intros [Hcache Hev] Hnew [j Hj] pieces grounded.
  split; cbn [synthesized_cache events].
  - intros k c. destruct (decide (k = key)) as [->|Hk].
    + rewrite lookup_insert_eq. intros [= <-].
      exists (length (events st) + j). rewrite lookup_app_r by lia.
      by replace (length (events st) + j - length (events st)) with j by lia.
    + rewrite lookup_insert_ne by done. intros [i Hi]%Hcache.
      exists i. by apply lookup_app_l_Some.
  - by apply written_by_app.
Qed.

Lemma paste_run_inv self g image (paste_ok : Prop) fuel node_key st st' :
  paste_ok →
  _recursively_paste_from_kb self fuel node_key st = Some st' →
  run_inv self g image paste_ok st →
  run_inv self g image paste_ok st'.
Proof.
  intros Hok. revert node_key st st'.
  induction fuel as [|fuel IH]; intros node_key st st'; [done|].
  cbn [_recursively_paste_from_kb].
  destruct (_ || _); [by intros [= <-]|].
  destruct (verified_kb self !! node_key) as [[[code|] [deps|]]|] eqn:Hkb;
    try (intros [= <-]; intros [Hc He]; split; [exact Hc|exact He]).
  assert (∀ l acc acc',
            foldl (λ acc dep_key,
                     acc ≫= _recursively_paste_from_kb self fuel dep_key)
                  acc l = Some acc' →
            (∀ s, acc = Some s → run_inv self g image paste_ok s) →
            run_inv self g image paste_ok acc') as Hfold.
  { induction l as [|d l IHl]; intros acc acc'; cbn [foldl].
    - intros -> H. by apply H.
    - intros Hl H. apply (IHl _ _ Hl). intros s Hs.
      destruct acc as [s0|]; [|done]. cbn in Hs. eapply IH; [exact Hs|].
      by apply H. }
  destruct (foldl _ _ _) as [st1|] eqn:Hdeps; [|done].
  cbn. intros [= <-] Hinv.
  apply run_inv_extend.
  - eapply Hfold; [exact Hdeps|]. by intros s [= <-].
  - intros [|j] k c; [|done]. intros [= <- <-]. right. split; [done|].
    by exists node_key, deps.
  - by exists 0.
Qed.

(** One node of the build order keeps the state of the scheduler sound,
    whether the loop goes on or the run ends with this node. *)
Lemma synth_node_run_inv self g image (paste_ok : Prop) pre node rest st :
  paste_ok ∨ settled g →
  get_build_order (stack_room self) g = Some (pre ++ node :: rest) →
  loop_prefix self g image (node_name g (root g))
    (_normalize_node_name (node_name g (root g))) pre synth_start = Some st →
  run_inv self g image paste_ok st →
  match synth_node self g image (node_name g (root g))
          (_normalize_node_name (node_name g (root g))) node st with
  | Continue st' | Stop (Returned _ st') => run_inv self g image paste_ok st'
  | Stop (Raised _) => True
  end.
Proof.
  intros Hpaste Horder Hpre Hinv. unfold synth_node.
  destruct (nodes g !! node) as [n|] eqn:Hn; [|done].
  destruct (status n) eqn:Hst; [done| |].
  - assert (run_inv self g image paste_ok
              {| final_code_pieces := final_code_pieces st;
                 synthesized_cache := synthesized_cache st;
                 grounded_set :=
                   {[_normalize_node_name (strip (name n))]} ∪ grounded_set st;
                 events := events st |}) as Hkeep
      by (destruct Hinv; by split).
    destruct (grounded_definition n) as [l|d] eqn:Hdef; [done|].
    destruct (String.eqb d "VerifiedKB"); [|done].
    destruct (_recursively_paste_from_kb _ _ _ _) as [st'|] eqn:Hp; [|done].
    destruct Hpaste as [Hok|Hsettled].
    + by eapply paste_run_inv.
    + destruct (Hsettled node n Hn) as [_ Hlist].
      destruct (Hlist Hst) as [l Hl]. congruence.
  - destruct (_collect_transitive_synthesized_code _ _ _ _ _)
      as [[dep_chunks missing]|] eqn:Hcollect; [|done].
    destruct missing as [|m missing]; cbn [nonempty]; [|done].
    destruct (_collect_transitive_grounded _ _ _ _) as [grounded_names|]
      eqn:Hgrounded; [|done].
    destruct (CONCURRENT_WORKERS self =? 0)%nat; [done|].
    destruct (first_truthy _) as [code|] eqn:Hpool.
    + apply pool_code_accepted in Hpool
        as (Hne & worker_id & current & trace & Hw & Hres & Hcode & Hok).
      apply run_inv_extend; [done| |by exists 1].
      intros [|[|j]] k c; [done| |done]. intros [= <- <-]. left.
      exists 0, node, n. repeat (split; [done|]).
      by exists pre, rest, st, dep_chunks, grounded_names, worker_id, current,
        trace.
    + destruct Hinv as [Hc He]. split; cbn [synthesized_cache events].
      * intros k c [j Hj]%Hc. exists j. by apply lookup_app_l_Some.
      * apply written_by_app; [done|]. by intros [|j] k c.
Qed.

Lemma run_loop_run_inv self g image (paste_ok : Prop) pre rest st :
  paste_ok ∨ settled g →
  get_build_order (stack_room self) g = Some (pre ++ rest) →
  loop_prefix self g image (node_name g (root g))
    (_normalize_node_name (node_name g (root g))) pre synth_start = Some st →
  run_inv self g image paste_ok st →
  match run_loop self g image (node_name g (root g))
          (_normalize_node_name (node_name g (root g))) rest st with
  | Returned _ st' => run_inv self g image paste_ok st'
  | Raised _ => True
  end.
Proof.
  intros Hpaste. revert pre st.
  induction rest as [|node rest IH]; intros pre st Horder Hpre Hinv; [done|].
  cbn [run_loop].
  pose proof (synth_node_run_inv self g image paste_ok pre node rest st
                Hpaste Horder Hpre Hinv) as Hnode.
  destruct (synth_node _ _ _ _ _ _ _) as [st'|[code st'|msg]] eqn:Hstep;
    [|done|done].
  apply (IH (pre ++ [node])); [by rewrite <- app_assoc| |done].
  by eapply loop_prefix_snoc.
Qed.

Lemma synthesizer_run_inv self g image (paste_ok : Prop) code st :
  paste_ok ∨ settled g →
  synthesizer_run self g image = Returned code st →
  run_inv self g image paste_ok st.
Proof.
  intros Hpaste. unfold synthesizer_run.
  destruct (get_build_order (stack_room self) g) as [order|] eqn:Horder.
  - intros Hrun.
    pose proof (run_loop_run_inv self g image paste_ok [] order synth_start
                  Hpaste Horder eq_refl) as H.
    rewrite Hrun in H. apply H. split; [by intros k c|by intros j k c].
  - intros [= _ <-]. split; [by intros k c|by intros j k c].
Qed.

Lemma run_inv_cache self g image (paste_ok : Prop) st :
  run_inv self g image paste_ok st →
  ∀ k c, synthesized_cache st !! k = Some c →
    (∃ i n, nodes g !! i = Some n ∧ status n = TO_SYNTHESIZE
            ∧ k = _normalize_node_name (strip (name n))
            ∧ is_empty c = false ∧ accepted_for_node self g image i n c)
    ∨ (paste_ok ∧ pasted_from_kb self k c).
Proof.
  intros [Hcache Hev] k c [j Hj]%Hcache.
  destruct (Hev j k c Hj) as [(j' & node & n & _ & _ & Hrest)|?];
    [left|by right].
  by exists node, n.
Qed.

Lemma synthesizer_run_cache_sound self g image code st :
  synthesizer_run self g image = Returned code st →
  run_cache_sound self g image (synthesized_cache st).
Proof.
  intros Hrun k c Hk.
  destruct (run_inv_cache self g image True st
              (synthesizer_run_inv self g image True code st (or_introl I) Hrun)
              k c Hk) as [?|[_ ?]]; [by left|by right].
Qed.

(** X13: the run cache that [GoTSynthesizer.run] returns holds accepted
    code only.  Every entry is either the code of an entry of the verified
    knowledge base, or code, not empty, accepted for a node of the graph
    that needs synthesis and stored under the normalized name of that
    node: when the build order reached the node, a worker of the pool
    launched for it, called with the name of the node and the context
    assembled from the run cache of that moment, answered this code after
    compiling its full source with success. *)
Theorem run_cache_holds_accepted_code self g image code st :
  synthesizer_run self g image = Returned code st →
  ∀ k c, synthesized_cache st !! k = Some c →
    (∃ i n, nodes g !! i = Some n ∧ status n = TO_SYNTHESIZE
            ∧ k = _normalize_node_name (strip (name n))
            ∧ is_empty c = false
            ∧ accepted_for_node self g image i n c)
    ∨ pasted_from_kb self k c.
Proof. apply synthesizer_run_cache_sound. Qed.

Lemma run_cache_holds_accepted_code_witness :
  ∃ code st,
    synthesizer_run
      (GoTSynthesizer_init (sample_env expand_shared "level_1" "level_1" true))
      (planned expand_shared "s") None = Returned code st
    ∧ synthesized_cache st !! "z" = Some "def x := z"
    ∧ ((∃ i n, nodes (planned expand_shared "s") !! i = Some n
               ∧ status n = TO_SYNTHESIZE
               ∧ "z" = _normalize_node_name (strip (name n))
               ∧ is_empty "def x := z" = false
               ∧ accepted_for_node
                   (GoTSynthesizer_init
                      (sample_env expand_shared "level_1" "level_1" true))
                   (planned expand_shared "s") None i n "def x := z")
       ∨ pasted_from_kb
           (GoTSynthesizer_init
              (sample_env expand_shared "level_1" "level_1" true))
           "z" "def x := z").
Proof.
  destruct (synthesizer_run
              (GoTSynthesizer_init
                 (sample_env expand_shared "level_1" "level_1" true))
              (planned expand_shared "s") None) as [code st|msg] eqn:Hrun;
    [|vm_compute in Hrun; discriminate Hrun].
  exists code, st. split; [reflexivity|].
  assert (synthesized_cache st !! "z" = Some "def x := z") as Hz.
  { vm_compute in Hrun. injection Hrun as _ <-. vm_compute. reflexivity. }
  split; [exact Hz|].
  exact (run_cache_holds_accepted_code _ _ _ _ _ Hrun "z" "def x := z" Hz).
Defined.

(** X14: a problem adds to the knowledge base accepted code only: an entry
    that the knowledge base holds after [process_single_problem] was loaded
    before the run, unchanged, or holds code, not empty, that the compiler
    accepted in this run. *)
Theorem run_persists_accepted_code_only env question image g kb res kb' :
  process_graph env question image g kb = (res, kb') →
  ∀ m' k e, load_knowledge_base kb' = Loaded m' → m' !! k = Some e →
    (∃ m, load_knowledge_base kb = Loaded m ∧ m !! k = Some e)
    ∨ ∃ c, kb_code e = Some c ∧ is_empty c = false
           ∧ compiled_for (GoTSynthesizer_init env) c.
Proof.
  unfold process_graph.
  destruct (synthesizer_run _ _ _) as [code st|msg] eqn:Hrun;
    [|intros [= _ <-]; left; by eexists].
  destruct (contains _ _); [intros [= _ <-]; left; by eexists|].
  pose proof (synthesizer_run_cache_sound _ _ _ _ _ Hrun) as Hsound.
  assert (∀ m' k e,
            load_knowledge_base
              (kb_after (alignment_run (env_llm env) (env_json_loads env)
                           (env_stack_room env) (env_write env) question
                           (synthesized_cache st) g image kb)) = Loaded m' →
            m' !! k = Some e →
            (∃ m, load_knowledge_base kb = Loaded m ∧ m !! k = Some e)
            ∨ ∃ c, kb_code e = Some c ∧ is_empty c = false
                   ∧ compiled_for (GoTSynthesizer_init env) c) as Hkb.
  { intros m' k e. unfold alignment_run.
    destruct (get_build_order _ g); [|left; by eexists].
    case_bool_decide; [left; by eexists|].
    destruct (env_json_loads env _) as [[| | | | |report]|];
      try (left; by eexists).
    destruct (_ || _); [|left; by eexists].
    assert (load_knowledge_base
              (file_after (save_verified_nodes (env_write env)
                             (synthesized_cache st) g kb)) = Loaded m' →
            m' !! k = Some e →
            (∃ m, load_knowledge_base kb = Loaded m ∧ m !! k = Some e)
            ∨ ∃ c, kb_code e = Some c ∧ is_empty c = false
                   ∧ compiled_for (GoTSynthesizer_init env) c) as Hsave.
    { unfold save_verified_nodes.
      destruct (load_knowledge_base kb) as [m|msg] eqn:Hload.
      2: { cbn [file_after]. rewrite Hload. done. }
      destruct (env_write env); cbn [file_after].
      - rewrite load_written. intros [= <-]. rewrite merged_kb_lookup.
        destruct (synthesized_cache st !! k) as [c|] eqn:Hc;
          [|left; by eexists].
        destruct (String.eqb k _); [left; by eexists|].
        destruct (find_node_by_name g k); [|left; by eexists].
        intros [= <-]. right. exists c. split; [done|].
        destruct (Hsound k c Hc)
          as [(i0 & n0 & _ & _ & _ & ? & ?%accepted_compiled)
             |(k0 & deps & Hk0 & _)];
          [done|]. cbn [verified_kb GoTSynthesizer_init] in Hk0.
        by rewrite lookup_empty in Hk0.
      - rewrite Hload. intros [= <-]. left. by eexists.
      - by intros [= <-].
      - by intros [= <-]. }
    by destruct (save_raised _). }
  destruct (align_res _); intros [= _ <-]; apply Hkb.
Qed.

Lemma run_persists_accepted_code_only_witness :
  (∃ m, load_knowledge_base FileMissing = Loaded m
        ∧ m !! "x" = Some (mkEntry (Some "def x := x") (Some ["z"])))
  ∨ ∃ c, kb_code (mkEntry (Some "def x := x") (Some ["z"])) = Some c
         ∧ is_empty c = false
         ∧ compiled_for
             (GoTSynthesizer_init
                (sample_env expand_shared "level_1" "level_1" true)) c.
Proof.
  apply (run_persists_accepted_code_only
           (sample_env expand_shared "level_1" "level_1" true) "s" None
           (planned expand_shared "s") FileMissing _ _
           (surjective_pairing _)
           {[ "x" := mkEntry (Some "def x := x") (Some ["z"]);
              "y" := mkEntry (Some "def x := y") (Some ["z"]);
              "z" := mkEntry (Some "def x := z") (Some []) ]} "x").
  - vm_compute. reflexivity.
  - vm_compute. reflexivity.
Defined.

(** ** The synthesis stage always returns *)

(** The search for grounded names always returns, and [seen] only
    grows. *)
Lemma grounded_dfs_total arena cache grounded fuel n st :
  (size (arena_names arena ∖ st.2) < fuel)%nat →
  ∃ st', grounded_dfs arena cache grounded fuel n st = Some st'
         ∧ st.2 ⊆ st'.2.
Proof.
  revert n st. induction fuel as [|fuel IH]; intros n st Hfuel; [lia|].
  cbn [grounded_dfs].
  generalize (from_option dependencies [] (arena !! n)). intros deps.
  revert st Hfuel. induction deps as [|d deps IHd]; intros st Hfuel.
  { by exists st. }
  cbn [foldl]. cbn [mbind option_bind].
  set (dn := _normalize_node_name (from_option name EmptyString (arena !! d))).
  case_bool_decide as Hseen.
  { by apply IHd. }
  destruct (IH d (st.1, {[ dn ]} ∪ st.2)) as (st1 & -> & Hsub1).
  { cbn [snd].
    pose proof (size_difference_insert (arena_names arena) st.2 dn
                  (arena_name_elem arena d) Hseen). lia. }
  cbn [mbind option_bind]. cbn [snd] in Hsub1.
  assert (st.2 ⊆ st1.2) as Hmono by set_solver.
  apply (size_difference_mono (arena_names arena)) in Hmono.
  destruct (bool_decide (dn ∈ grounded) && _).
  - destruct (IHd (st1.1 ++ [dn], st1.2)) as (st' & Hst' & Hsub');
      [cbn [snd]; lia|].
    exists st'. split; [exact Hst'|]. cbn [snd] in Hsub'. set_solver.
  - destruct (IHd st1) as (st' & Hst' & Hsub'); [lia|].
    exists st'. split; [exact Hst'|]. set_solver.
Qed.

Lemma grounded_total g node cache grounded :
  is_Some (_collect_transitive_grounded g node cache grounded).
Proof.
  unfold _collect_transitive_grounded.
  destruct (grounded_dfs_total (nodes g) cache grounded
              (S (S (length (nodes g)))) node ([], ∅)) as (st' & -> & _);
    [|by eexists].
  cbn [snd]. pose proof (size_arena_names (nodes g)) as Hsize.
  assert (arena_names (nodes g) ∖ ∅ = arena_names (nodes g)) as -> by set_solver.
  lia.
Qed.

(** With an empty knowledge base a paste ends at once. *)
Lemma paste_empty_kb self fuel node_key st :
  verified_kb self = ∅ →
  is_Some (_recursively_paste_from_kb self (S fuel) node_key st).
Proof.
  intros Hkb. cbn [_recursively_paste_from_kb].
  destruct (_ || _); [by eexists|]. rewrite Hkb, lookup_empty. by eexists.
Qed.

Lemma synth_node_returns self g image root_name root_norm node st msg :
  verified_kb self = ∅ → CONCURRENT_WORKERS self ≠ 0 →
  synth_node self g image root_name root_norm node st ≠ Stop (Raised msg).
Proof.
  intros Hkb Hworkers. unfold synth_node.
  destruct (nodes g !! node) as [n|]; [|done].
  destruct (status n); [done| |].
  - destruct (grounded_definition n) as [l|d]; [done|].
    destruct (String.eqb d "VerifiedKB"); [|done].
    by destruct (paste_empty_kb self (size (verified_kb self))
                   (lower_strip (name n)) st Hkb) as [st' ->].
  - destruct (collect_total self g node (synthesized_cache st)
                (grounded_set st)) as [[dep_chunks missing] ->].
    destruct (nonempty missing); [done|].
    destruct (grounded_total g node (synthesized_cache st) (grounded_set st))
      as [grounded_names ->].
    apply Nat.eqb_neq in Hworkers. rewrite Hworkers.
    by destruct (first_truthy _).
Qed.

Lemma run_loop_returns self g image root_name root_norm order st :
  verified_kb self = ∅ → CONCURRENT_WORKERS self ≠ 0 →
  ∃ code st', run_loop self g image root_name root_norm order st
              = Returned code st'.
Proof.
  intros Hkb Hworkers. revert st.
  induction order as [|node order IH]; intros st; cbn [run_loop].
  { by eexists _, _. }
  pose proof (λ msg, synth_node_returns self g image root_name root_norm node
                       st msg Hkb Hworkers) as Hnode.
  destruct (synth_node _ _ _ _ _ _ _) as [st'|[code st'|msg]].
  - apply IH.
  - by eexists _, _.
  - by destruct (Hnode msg).
Qed.

(** X15: the synthesis stage as [main.py] builds it (the knowledge base is
    not loaded) raises nothing of its own when at least one worker is
    configured: on every graph it returns a document and a cache.  The
    searches of a node recurse to a depth of at most the number of nodes
    plus two. *)
Theorem synthesis_stage_always_returns env g image :
  env_workers env ≠ 0 →
  ∃ code st,
    synthesizer_run (GoTSynthesizer_init env) g image = Returned code st.
Proof.
  intros Hworkers. unfold synthesizer_run.
  destruct (get_build_order _ g) as [order|]; [|by eexists _, _].
  by apply run_loop_returns.
Qed.

Lemma synthesis_stage_always_returns_witness :
  ∃ code st,
    synthesizer_run
      (GoTSynthesizer_init (sample_env expand_cycle "level_1" "level_1" true))
      (planned expand_cycle "s") None = Returned code st.
Proof.
  apply (synthesis_stage_always_returns
           (sample_env expand_cycle "level_1" "level_1" true)
           (planned expand_cycle "s") None).
  vm_compute. discriminate.
Defined.

(** ** The two normalizations of a name *)

Lemma lstrip_strip s : lstrip (strip s) = strip s.
Proof.
  unfold strip. destruct (lstrip_head s) as [->|(c & r & -> & Hc)]; [done|].
  destruct (rstrip_head c r Hc) as [t ->]. simpl. by rewrite Hc.
Qed.

Lemma lstrip_collapse b s :
  lstrip (collapse_ws_from b s) = collapse_ws_from false (lstrip s).
Proof.
  revert b. induction s as [|c r IH]; intros b; [done|].
  cbn [collapse_ws_from lstrip]. destruct (is_space c) eqn:Hc.
  - destruct b; [apply IH|]. cbn [lstrip].
    change (is_space " ") with true. cbn iota. apply IH.
  - cbn [lstrip collapse_ws_from]. by rewrite Hc.
Qed.

Lemma rstrip_cons c s :
  rstrip (String c s)
  = match rstrip s with
    | EmptyString => if is_space c then EmptyString else String c EmptyString
    | r' => String c r'
    end.
Proof. done. Qed.

Lemma rstrip_collapse b s :
  rstrip (collapse_ws_from b s) = rstrip (collapse_ws_from b (rstrip s)).
Proof.
  revert b. induction s as [|c r IH]; intros b; [done|].
  rewrite (rstrip_cons c r). destruct (rstrip r) as [|c0 t] eqn:Hr.
  - cbn [collapse_ws_from]. destruct (is_space c) eqn:Hc.
    + cbn [collapse_ws_from rstrip].
      destruct b; [by rewrite IH|].
      by rewrite rstrip_cons, IH.
    + cbn [collapse_ws_from]. rewrite Hc, !rstrip_cons, IH. done.
  - rewrite <- Hr in IH |- *. cbn [collapse_ws_from].
    destruct (is_space c) eqn:Hc.
    + destruct b; [by rewrite IH|]. by rewrite !rstrip_cons, IH.
    + by rewrite !rstrip_cons, IH.
Qed.

Lemma strip_collapse_strip s :
  strip (collapse_ws (strip s)) = strip (collapse_ws s).
Proof.
  unfold strip at 1 3, collapse_ws.
  rewrite !lstrip_collapse, lstrip_strip. unfold strip.
  by rewrite <- rstrip_collapse.
Qed.

Lemma lower_collapse b s :
  lower (collapse_ws_from b s) = collapse_ws_from b (lower s).
Proof.
  revert b. induction s as [|c r IH]; intros b; [done|].
  cbn [collapse_ws_from lower]. rewrite is_space_lower_char.
  destruct (is_space c); [destruct b|]; cbn [lower]; by rewrite IH.
Qed.

Lemma collapse_idem b s :
  collapse_ws_from b (collapse_ws_from b s) = collapse_ws_from b s.
Proof.
  revert b. induction s as [|c r IH]; intros b; [done|].
  cbn [collapse_ws_from]. destruct (is_space c) eqn:Hc.
  - destruct b; [apply IH|]. cbn [collapse_ws_from].
    change (is_space " ") with true. cbn iota. by rewrite IH.
  - cbn [collapse_ws_from]. by rewrite Hc, IH.
Qed.

Lemma normalize_strip s :
  _normalize_node_name (strip s) = _normalize_node_name s.
Proof. unfold _normalize_node_name. by rewrite strip_collapse_strip. Qed.

Lemma normalize_lower s :
  _normalize_node_name (lower s) = _normalize_node_name s.
Proof.
  unfold _normalize_node_name, collapse_ws.
  by rewrite <- lower_collapse, <- lower_strip_comm, lower_idem.
Qed.

Lemma normalize_collapse s :
  _normalize_node_name (collapse_ws s) = _normalize_node_name s.
Proof. unfold _normalize_node_name, collapse_ws. by rewrite collapse_idem. Qed.

(** X16: the key of the run cache is coarser than the key of the graph's
    name index and stable: names with the same index key (lower case,
    stripped) have the same cache key (white space collapsed, stripped,
    lower case); the cache key of an index key is the cache key of the
    name; normalizing a cache key again changes nothing. *)
Theorem cache_key_coarser_than_graph_key :
  (∀ a b, lower_strip a = lower_strip b →
          _normalize_node_name a = _normalize_node_name b)
  ∧ (∀ s, _normalize_node_name (lower_strip s) = _normalize_node_name s)
  ∧ (∀ s, _normalize_node_name (_normalize_node_name s)
          = _normalize_node_name s).
Proof.
  assert (∀ s, _normalize_node_name (lower_strip s) = _normalize_node_name s)
    as Hkey.
  { intros s. unfold lower_strip. by rewrite normalize_strip, normalize_lower. }
  split; [|split; [exact Hkey|]].
  - intros a b Hab. by rewrite <- (Hkey a), <- (Hkey b), Hab.
  - intros s. unfold _normalize_node_name at 2.
    by rewrite normalize_lower, normalize_strip, normalize_collapse.
Qed.

Lemma cache_key_coarser_than_graph_key_witness :
  _normalize_node_name " Simple  Pendulum" = _normalize_node_name "simple  pendulum ".
Proof.
  apply (proj1 cache_key_coarser_than_graph_key).
  vm_compute. reflexivity.
Defined.

(** ** A run on an acyclic graph provides for every node or fails *)

(** A name is reported missing only for a transitive dependency that has
    no code in the run cache and is not grounded. *)
Lemma collect_dfs_missing self arena cache grounded fuel n st st' :
  collect_dfs self arena cache grounded fuel n st = Some st' →
  ∀ dn, dn ∈ col_missing st' →
    dn ∈ col_missing st
    ∨ ∃ d, depends_on arena n d
           ∧ dn = _normalize_node_name
                    (from_option name EmptyString (arena !! d))
           ∧ cache !! dn = None ∧ dn ∉ grounded.
Proof.
  revert n st st'.
  induction fuel as [|fuel IH]; intros n st st'; [done|].
  cbn [collect_dfs].
  assert (∀ d, d ∈ from_option dependencies [] (arena !! n) →
               ∃ nx, arena !! n = Some nx ∧ d ∈ dependencies nx) as Hdeps.
  { intros d Hd. destruct (arena !! n) as [nx|]; [by exists nx|].
    by apply elem_of_nil in Hd. }
  revert Hdeps. generalize (from_option dependencies [] (arena !! n)).
  intros deps. revert st.
  induction deps as [|d deps IHd]; intros st Hdeps Hrun dn Hdn.
  { injection Hrun as <-. by left. }
  cbn [foldl] in Hrun. cbn [mbind option_bind] in Hrun.
  set (dn0 := _normalize_node_name (from_option name EmptyString (arena !! d)))
    in *.
  assert (∀ d', d' ∈ deps →
                ∃ nx, arena !! n = Some nx ∧ d' ∈ dependencies nx) as Hdeps'.
  { intros d' Hd'. apply Hdeps. apply elem_of_cons. by right. }
  destruct (bool_decide (dn0 ∈ col_seen st)); [by eapply IHd|].
  destruct (collect_dfs self arena cache grounded fuel d _) as [st1|] eqn:Hrec.
  2: { cbn [mbind option_bind] in Hrun. exfalso. clear -Hrun.
       induction deps as [|d' deps IHd']; [done|]. by apply IHd'. }
  cbn [mbind option_bind] in Hrun.
  destruct (Hdeps d) as (nx & Hnx & Hd); [apply elem_of_cons; by left|].
  destruct (IHd _ Hdeps' Hrun dn Hdn) as [Hin|?]; [|by right].
  assert (dn ∈ col_missing st1
          ∨ (dn = dn0 ∧ cache !! dn0 = None ∧ dn0 ∉ grounded)) as [Hin1|Hnew].
  { revert Hin. unfold classify_dependency.
    destruct (bool_decide (is_Some (cache !! dn0))) eqn:Hc; [by left|].
    destruct (bool_decide (dn0 ∈ grounded)) eqn:Hg; [by left|].
    destruct (bool_decide (is_Some (verified_kb self !! dn0))); [by left|].
    cbn [col_missing]. intros [->%elem_of_singleton|?]%elem_of_union;
      [right|by left].
    apply bool_decide_eq_false in Hc, Hg. split; [done|]. split; [|done].
    by apply eq_None_not_Some. }
  - destruct (IH _ _ _ Hrec dn Hin1) as [?|(e & He & ? & ? & ?)]; [by left|].
    right. exists e. split; [|done]. by eapply depends_trans.
  - destruct Hnew as (-> & ? & ?). right. exists d.
    split; [by eapply depends_direct|done].
Qed.






Lemma planned_settled p fuel statement image g :
  planner_run p fuel statement image = Some g → settled g.
Proof.
  intros Hrun.
  destruct (planner_run_inv _ _ _ _ _ Hrun)
    as (log & _ & _ & (_ & _ & _ & Hexp & Hgr) & _).
  cbn [graph queue] in *. intros i n Hn. split.
  - intros Hst. exact (not_elem_of_nil _ (Hexp i n Hn Hst)).
  - intros Hst. destruct (Hgr i n Hn Hst) as (_ & defs & -> & _). by exists defs.
Qed.





(** ** The marker of the knowledge base is never recognised *)

(** X18: the planner marks a concept found in its knowledge base with the
    list [["VerifiedKB"]], the synthesizer looks for the string
    ["VerifiedKB"]: on a graph that a decomposition returned, whatever
    knowledge bases the planner and the synthesizer have loaded, the
    scheduler never calls the paste from the knowledge base: its step on a
    grounded node only adds the normalized name of the node to the
    grounded names.  So every write to the run cache comes right after the
    launch of the pool of a node that needs synthesis, and every entry of
    the cache that the run returns is the code, not empty, accepted for
    such a node by a worker of its pool. *)
Theorem planned_run_never_pastes_from_kb p fuel statement image g self
    image' :
  planner_run p fuel statement image = Some g →
  (∀ i n st root_name root_norm,
     nodes g !! i = Some n → status n = GROUNDED →
     synth_node self g image' root_name root_norm i st
     = Continue
         {| final_code_pieces := final_code_pieces st;
            synthesized_cache := synthesized_cache st;
            grounded_set :=
              {[ _normalize_node_name (strip (name n)) ]} ∪ grounded_set st;
            events := events st |})
  ∧ ∀ code st,
      synthesizer_run self g image' = Returned code st →
      (∀ j k c, events st !! j = Some (CacheWritten k c) →
         ∃ j' i n,
           j = S j' ∧ events st !! j' = Some (PoolLaunched i)
           ∧ nodes g !! i = Some n ∧ status n = TO_SYNTHESIZE
           ∧ k = _normalize_node_name (strip (name n))
           ∧ is_empty c = false
           ∧ accepted_for_node self g image' i n c)
      ∧ (∀ k c, synthesized_cache st !! k = Some c →
           ∃ i n, nodes g !! i = Some n ∧ status n = TO_SYNTHESIZE
                  ∧ k = _normalize_node_name (strip (name n))
                  ∧ is_empty c = false
                  ∧ accepted_for_node self g image' i n c).
Proof.
  intros Hplan. pose proof (planned_settled _ _ _ _ _ Hplan) as Hsettled.
  split.
  - intros i n st root_name root_norm Hn Hst. unfold synth_node.
    rewrite Hn, Hst. destruct (Hsettled i n Hn) as [_ Hlist].
    by destruct (Hlist Hst) as [l ->].
  - intros code st Hrun.
    pose proof (synthesizer_run_inv self g image' False code st
                  (or_intror Hsettled) Hrun) as Hinv.
    split.
    + intros j k c Hj. by destruct (proj2 Hinv j k c Hj) as [?|[[] _]].
    + intros k c Hk.
      by destruct (run_inv_cache self g image' False st Hinv k c Hk)
        as [?|[[] _]].
Qed.

Lemma planned_run_never_pastes_from_kb_witness :
  let p := planner_with_kb (sample_planner expand_shared) sample_kb in
  let self :=
    synthesizer_with_kb
      (GoTSynthesizer_init (sample_env expand_shared "level_1" "level_1" true))
      sample_kb in
  ∃ g code st,
    planner_run p 10 "s" None = Some g
    ∧ (status <$> nodes g) = [TO_SYNTHESIZE; GROUNDED; TO_SYNTHESIZE; TO_SYNTHESIZE]
    ∧ synthesizer_run self g None = Returned code st
    ∧ synthesized_cache st !! "x" = None
    ∧ ∀ k c, synthesized_cache st !! k = Some c →
        ∃ i n, nodes g !! i = Some n ∧ status n = TO_SYNTHESIZE
               ∧ k = _normalize_node_name (strip (name n))
               ∧ is_empty c = false
               ∧ accepted_for_node self g None i n c.
Proof.
  cbv zeta.
  destruct (planner_run
              (planner_with_kb (sample_planner expand_shared) sample_kb)
              10 "s" None) as [g|] eqn:Hplan;
    [|vm_compute in Hplan; discriminate Hplan].
  pose proof Hplan as Hg. vm_compute in Hg. injection Hg as Hg.
  destruct (synthesizer_run
              (synthesizer_with_kb
                 (GoTSynthesizer_init
                    (sample_env expand_shared "level_1" "level_1" true))
                 sample_kb) g None) as [code st|msg] eqn:Hrun;
    [|rewrite <- Hg in Hrun; vm_compute in Hrun; discriminate Hrun].
  exists g, code, st. split; [reflexivity|].
  split; [rewrite <- Hg; vm_compute; reflexivity|].
  split; [exact Hrun|]. split.
  { pose proof Hrun as Hst. rewrite <- Hg in Hst. vm_compute in Hst.
    injection Hst as _ <-. vm_compute. reflexivity. }
  exact (proj2 (proj2 (planned_run_never_pastes_from_kb _ _ _ _ _ _ _ Hplan)
                  code st Hrun)).
Defined.

(** ** The layout of the final document *)

Lemma dedup_from_spec seen l :
  NoDup (dedup_from seen l)
  ∧ ∀ x, x ∈ dedup_from seen l ↔ x ∈ l ∧ x ∉ seen.
Proof.
  revert seen. induction l as [|y l IH]; intros seen; cbn [dedup_from].
  { split; [constructor|]. intros x. rewrite elem_of_nil. tauto. }
  case_bool_decide as Hy.
  - destruct (IH seen) as [Hnd Hiff]. split; [done|].
    intros x. rewrite Hiff, elem_of_cons. split; [tauto|].
    intros [[->|?] ?]; tauto.
  - destruct (IH ({[ y ]} ∪ seen)) as [Hnd Hiff]. split.
    + constructor; [|done]. rewrite Hiff. set_solver.
    + intros x. rewrite !elem_of_cons, Hiff.
      destruct (decide (x = y)) as [->|Hne]; [tauto|]. set_solver.
Qed.

Lemma dedup_from_app seen a b :
  dedup_from seen (a ++ b)
  = dedup_from seen a ++ dedup_from (list_to_set a ∪ seen) b.
Proof.
  revert seen. induction a as [|y a IH]; intros seen; cbn [dedup_from app].
  { f_equal. set_solver. }
  case_bool_decide as Hy.
  - rewrite IH. do 2 f_equal. set_solver.
  - cbn [app]. rewrite IH. do 3 f_equal. set_solver.
Qed.

Lemma dedup_base_imports : dedup_from ∅ BASE_IMPORTS = BASE_IMPORTS.
Proof. vm_compute. reflexivity. Qed.

Lemma split_pieces_blocks pieces b :
  b ∈ (split_pieces pieces).2 →
  is_empty b = false
  ∧ ∃ piece,
      piece ∈ pieces
      ∧ b = strip (join NL (filter (λ ln, is_import_line ln = false)
                                   (splitlines piece))).
Proof.
  induction pieces as [|piece rest IH]; cbn [split_pieces].
  { cbn. by intros ?%elem_of_nil. }
  destruct (split_pieces rest) as [imports blocks]. cbn [snd] in IH.
  destruct (is_empty piece || is_empty (strip piece)).
  { cbn [snd]. intros Hb. destruct (IH Hb) as (? & p & ? & ?).
    split; [done|]. exists p. split; [apply elem_of_cons; by right|done]. }
  cbn [snd].
  destruct (is_empty (strip (join NL _))) eqn:Hblock.
  - intros Hb. destruct (IH Hb) as (? & p & ? & ?).
    split; [done|]. exists p. split; [apply elem_of_cons; by right|done].
  - intros [->|Hb]%elem_of_cons.
    + split; [done|]. exists piece. split; [apply elem_of_cons; by left|done].
    + destruct (IH Hb) as (? & p & ? & ?).
      split; [done|]. exists p. split; [apply elem_of_cons; by right|done].
Qed.

Lemma split_pieces_imports pieces imp :
  imp ∈ (split_pieces pieces).1
  ↔ ∃ piece ln,
      piece ∈ pieces ∧ is_empty (strip piece) = false
      ∧ ln ∈ splitlines piece ∧ is_import_line ln = true
      ∧ imp = collapse_ws (strip ln).
Proof.
  induction pieces as [|piece rest IH]; cbn [split_pieces].
  { cbn. split; [by intros ?%elem_of_nil|].
    by intros (? & ? & ?%elem_of_nil & _). }
  destruct (split_pieces rest) as [imports blocks]. cbn [fst] in IH.
  assert (is_empty piece || is_empty (strip piece) = is_empty (strip piece))
    as ->.
  { by destruct piece. }
  destruct (is_empty (strip piece)) eqn:Hblank; cbn [fst].
  - rewrite IH. split.
    + intros (p & ln & ? & ?). exists p, ln.
      split; [apply elem_of_cons; by right|done].
    + intros (p & ln & [->|?]%elem_of_cons & Hne & ?); [congruence|].
      by exists p, ln.
  - rewrite elem_of_app, IH, list_elem_of_fmap. split.
    + intros [(ln & -> & [? ?]%list_elem_of_filter)|(p & ln & ? & ?)].
      * exists piece, ln. split; [apply elem_of_cons; by left|done].
      * exists p, ln. split; [apply elem_of_cons; by right|done].
    + intros (p & ln & [->|?]%elem_of_cons & Hne & Hln & Himp & ->).
      * left. exists ln. split; [done|]. by apply list_elem_of_filter.
      * right. by exists p, ln.
Qed.

(** X19: the layout of the document that [_build_final_code_string]
    assembles.  It starts with the fixed preamble [BASE_IMPORTS], in order,
    followed by the other import lines, each once; an import line is in
    this header exactly when it is of the preamble or is the normalized
    form of an import line of a piece that is not blank; after an empty
    line come the code blocks, none of them empty, each the rest of a
    piece without its import lines. *)
Theorem final_document_layout pieces :
  ∃ extra blocks,
    _build_final_code_string pieces
    = join NL (BASE_IMPORTS ++ extra) +:+ NL +:+ NL
      +:+ join (NL +:+ NL) blocks
    ∧ NoDup (BASE_IMPORTS ++ extra)
    ∧ (∀ imp, imp ∈ BASE_IMPORTS ++ extra
              ↔ imp ∈ BASE_IMPORTS
                ∨ ∃ piece ln,
                    piece ∈ pieces ∧ is_empty (strip piece) = false
                    ∧ ln ∈ splitlines piece ∧ is_import_line ln = true
                    ∧ imp = collapse_ws (strip ln))
    ∧ ∀ b, b ∈ blocks →
           is_empty b = false
           ∧ ∃ piece,
               piece ∈ pieces
               ∧ b = strip (join NL (filter (λ ln, is_import_line ln = false)
                                            (splitlines piece))).
Proof.
  unfold _build_final_code_string.
  pose proof (split_pieces_blocks pieces) as Hblocks.
  pose proof (split_pieces_imports pieces) as Himports.
  destruct (split_pieces pieces) as [imports blocks]. cbn [fst snd] in *.
  exists (dedup_from (list_to_set BASE_IMPORTS ∪ ∅) imports), blocks.
  pose proof dedup_base_imports as Hbase.
  pose proof (dedup_from_app ∅ BASE_IMPORTS imports) as Happ.
  destruct (dedup_from_spec ∅ (BASE_IMPORTS ++ imports)) as [Hnd Hiff].
  revert Hbase Happ Hnd Hiff. generalize BASE_IMPORTS. intros base.
  intros Hbase Happ Hnd Hiff. rewrite Hbase in Happ. rewrite <- Happ.
  split; [reflexivity|]. split; [exact Hnd|]. split; [|exact Hblocks].
  intros imp. rewrite Hiff, elem_of_app, Himports.
  split; [tauto|]. intros H. split; [exact H|apply not_elem_of_empty].
Qed.

(** ** The batch loop *)

Lemma process_graph_flags env question image g kb :
  let res := (process_graph env question image g kb).1 in
  res_question res = question
  ∧ (semantic_passed res = true → compilation_passed res = true).
Proof.
  unfold process_graph.
  destruct (synthesizer_run _ _ _) as [code st|msg]; [|done].
  destruct (contains _ _); [done|].
  by destruct (align_res _) as [[] report|msg].
Qed.

(** A save leaves a file that loads when it found one. *)
Lemma save_loadable w cache g f :
  loadable f → loadable (file_after (save_verified_nodes w cache g f)).
Proof.
  intros [m Hm]. unfold save_verified_nodes. rewrite Hm.
  destruct w; cbn [file_after].
  - eexists. apply load_written.
  - by exists m.
  - by eexists.
  - by eexists.
Qed.


Lemma process_graph_loadable env question image g kb :
  loadable kb → loadable (process_graph env question image g kb).2.
Proof.
  intros Hkb. unfold process_graph.
  destruct (synthesizer_run _ _ _) as [code st|msg]; [|done].
  destruct (contains _ _); [done|].
  assert (loadable
            (kb_after (alignment_run (env_llm env) (env_json_loads env)
                         (env_stack_room env) (env_write env) question
                         (synthesized_cache st) g image kb))) as Hafter.
  { unfold alignment_run. destruct (get_build_order _ g); [|done].
    case_bool_decide; [done|].
    destruct (env_json_loads env _) as [[| | | | |report]|]; try done.
    destruct (_ || _); [|done].
    pose proof (save_loadable (env_write env) (synthesized_cache st) g kb Hkb).
    by destruct (save_raised _). }
  by destruct (align_res _).
Qed.


Lemma batch_fold_none env fuel tasks :
  foldl (λ acc entry, acc ≫= λ st, batch_step env fuel st entry) None tasks
  = None.
Proof. by induction tasks. Qed.

(** The invariant of the loop, from any state on: each record is the
    record of its task, run on the file that the tasks before it left. *)
Lemma batch_fold_spec env fuel tasks st st' :
  foldl (λ acc entry, acc ≫= λ st, batch_step env fuel st entry)
        (Some st) tasks = Some st' →
  ∃ records,
    summary st' = summary st ++ records
    ∧ Forall2 (λ entry res,
                 ∃ kb, (loadable (batch_kb st) → loadable kb)
                       ∧ fst <$> process_single_problem env fuel entry.1
                                   entry.2 kb = Some res)
              tasks records
    ∧ compiled_count st'
      = compiled_count st
        + length (filter (λ r, compilation_passed r = true) records)
    ∧ semantic_count st'
      = semantic_count st
        + length (filter (λ r, semantic_passed r = true) records).
Proof.
  revert st. induction tasks as [|entry tasks IH]; intros st; cbn [foldl].
  { intros [= <-]. exists []. rewrite app_nil_r. cbn. split; [done|].
    split; [constructor|]. lia. }
  cbn [mbind option_bind].
  destruct (batch_step env fuel st entry) as [st1|] eqn:Hstep.
  2: { by rewrite batch_fold_none. }
  intros Hrun. destruct (IH st1 Hrun) as (records & Hsum & Hall & Hc & Hs).
  unfold batch_step, process_single_problem in Hstep.
  destruct (planner_run _ _ _ _) as [g|] eqn:Hplan; [|done].
  cbn [mbind option_bind] in Hstep.
  destruct (process_graph env entry.1 entry.2 g (batch_kb st)) as [res kb']
    eqn:Hres.
  injection Hstep as <-. cbn [summary compiled_count semantic_count] in *.
  exists (res :: records). rewrite <- app_assoc in Hsum. split; [done|].
  split.
  - constructor.
    + exists (batch_kb st). split; [done|]. unfold process_single_problem.
      rewrite Hplan. cbn [mbind option_bind fmap option_fmap option_map].
      by rewrite Hres.
    + eapply Forall2_impl; [exact Hall|]. cbn [batch_kb].
      intros e r (kb & Hkb & Hrec). exists kb. split; [|done].
      intros Hst. apply Hkb.
      pose proof (process_graph_loadable env entry.1 entry.2 g _ Hst) as H.
      by rewrite Hres in H.
  - revert Hc Hs.
    destruct (compilation_passed res) eqn:Hcp,
      (semantic_passed res) eqn:Hsp; intros Hc Hs;
      rewrite !filter_cons, Hcp, Hsp;
      repeat case_decide; try discriminate; cbn [length]; lia.
Qed.

Lemma main_loop_spec env fuel limit tasks kb r :
  main_loop env fuel limit tasks kb = Some r →
  let processed :=
    if (0 <? limit)%Z then take (Z.to_nat limit) tasks else tasks in
  Forall2 (λ entry res,
             ∃ kb', (loadable kb → loadable kb')
                    ∧ fst <$> process_single_problem env fuel entry.1 entry.2
                                kb' = Some res)
          processed (summary (batch_final r))
  ∧ compiled_count (batch_final r)
    = length (filter (λ r, compilation_passed r = true)
                     (summary (batch_final r)))
  ∧ semantic_count (batch_final r)
    = length (filter (λ r, semantic_passed r = true)
                     (summary (batch_final r)))
  ∧ r = (if (length processed =? 0)%nat
         then BatchRaised "ZeroDivisionError" (batch_final r)
         else BatchFinished (batch_final r)).
Proof.
  unfold main_loop. cbv zeta.
  set (processed := if (0 <? limit)%Z then _ else _).
  destruct (foldl _ _ processed) as [st|] eqn:Hfold; [|done].
  cbn [mbind option_bind].
  destruct (batch_fold_spec _ _ _ _ _ Hfold) as (records & Hsum & Hall & Hc & Hs).
  cbn [summary compiled_count semantic_count app batch_kb] in Hsum, Hc, Hs, Hall.
  intros Hr.
  assert (batch_final r = st) as ->.
  { by destruct (length processed =? 0)%nat; injection Hr as <-. }
  rewrite Hsum. repeat split; try done.
  by destruct (length processed =? 0)%nat; injection Hr as <-.
Qed.

Lemma single_problem_flags env fuel question image kb res :
  fst <$> process_single_problem env fuel question image kb = Some res →
  res_question res = question
  ∧ (semantic_passed res = true → compilation_passed res = true).
Proof.
  unfold process_single_problem.
  destruct (planner_run _ _ _ _) as [g|]; [|done].
  cbn [mbind option_bind fmap option_fmap option_map]. intros [= <-].
  apply process_graph_flags.
Qed.

(** X20: the statistics of a batch.  [main] writes one record per
    processed task, in order and with the question of the task (the first
    [limit] tasks when the limit is positive, all of them otherwise); its
    counters count the records with compilation and with semantic
    acceptance, where a record with semantic acceptance has compilation
    acceptance; and it ends with [ZeroDivisionError], after the loop,
    exactly when no task was processed. *)
Theorem batch_statistics env fuel limit tasks kb r :
  main_loop env fuel limit tasks kb = Some r →
  let processed :=
    if (0 <? limit)%Z then take (Z.to_nat limit) tasks else tasks in
  let st := batch_final r in
  res_question <$> summary st = fst <$> processed
  ∧ compiled_count st
    = length (filter (λ r, compilation_passed r = true) (summary st))
  ∧ semantic_count st
    = length (filter (λ r, semantic_passed r = true) (summary st))
  ∧ (semantic_count st ≤ compiled_count st)%nat
  ∧ (compiled_count st ≤ length processed)%nat
  ∧ (r = BatchRaised "ZeroDivisionError" st ↔ processed = [])
  ∧ (r = BatchFinished st ↔ processed ≠ []).
Proof.
  intros Hrun. destruct (main_loop_spec _ _ _ _ _ _ Hrun)
    as (Hall & Hc & Hs & Hr).
  cbv zeta in *.
  set (processed := if (0 <? limit)%Z then _ else _) in *.
  set (st := batch_final r) in *. clearbody st processed. clear Hrun.
  assert (res_question <$> summary st = fst <$> processed
          ∧ length (summary st) = length processed
          ∧ Forall (λ r, semantic_passed r = true → compilation_passed r = true)
                   (summary st)) as (Hq & Hlen & Himp).
  { clear Hc Hs Hr. induction Hall as [|entry res l l' Hres _ IH].
    - split; [done|]. split; [done|constructor].
    - destruct IH as (IHq & IHlen & IHimp). destruct Hres as (kb' & _ & Hres).
      destruct (single_problem_flags _ _ _ _ _ _ Hres) as [Hqq Hflag].
      cbn [fmap list_fmap length]. split; [by f_equal|].
      split; [by f_equal|by constructor]. }
  split; [done|]. split; [done|]. split; [done|].
  assert (length (filter (λ r, semantic_passed r = true) (summary st))
          ≤ length (filter (λ r, compilation_passed r = true) (summary st)))%nat
    as Hle.
  { clear -Himp. induction Himp as [|res l Hres _ IH]; [done|].
    rewrite !filter_cons. repeat case_decide; cbn [length]; try lia.
    by destruct (Hres ltac:(done)). }
  pose proof (length_filter (λ r, compilation_passed r = true) (summary st))
    as Hle'.
  split; [lia|]. split; [lia|].
  destruct processed as [|entry processed]; cbn [length Nat.eqb] in Hr.
  - split; [by split|]. split; [by rewrite Hr|done].
  - split; [split; [by rewrite Hr|done]|]. by split.
Qed.

Lemma batch_statistics_witness :
  ∃ st,
    main_loop (sample_env expand_shared "level_1" "level_1" true) 10 (-1)
      [("s", None); ("x", None)] FileMissing = Some (BatchFinished st)
    ∧ res_question <$> summary st = ["s"; "x"]
    ∧ (semantic_count st ≤ compiled_count st)%nat
    ∧ (compiled_count st ≤ 2)%nat.
Proof.
  destruct (main_loop (sample_env expand_shared "level_1" "level_1" true) 10
              (-1) [("s", None); ("x", None)] FileMissing) as [r|] eqn:Hrun;
    [|vm_compute in Hrun; discriminate Hrun].
  pose proof (batch_statistics _ _ _ _ _ _ Hrun) as H. cbv zeta in H.
  destruct H as (Hq & _ & _ & Hle & Hle' & _ & Hfin).
  exists (batch_final r).
  split; [f_equal; apply (proj2 Hfin); intros Hnil; vm_compute in Hnil;
          discriminate Hnil|].
  split; [exact Hq|]. split; [exact Hle|exact Hle'].
Defined.



(** ** What the alignment stage restates *)

Lemma back_translate_node_lookup llm g cache segments node k :
  is_Some (back_translate_node llm g cache segments node !! k)
  ↔ is_Some (segments !! k)
    ∨ (is_Some (cache !! k) ∧ k = _normalize_node_name (node_name g node)).
Proof.
  unfold back_translate_node.
  destruct (cache !! _normalize_node_name (node_name g node)) as [code|] eqn:Hc.
  - rewrite lookup_insert_is_Some'. split.
    + intros [<-|?]; [right|by left]. by rewrite Hc.
    + intros [?|[_ ->]]; [by right|by left].
  - split; [by left|]. intros [?|[Hk ->]]; [done|].
    rewrite Hc in Hk. by destruct Hk.
Qed.

Lemma back_translated_segments llm g cache order segments k :
  is_Some (foldl (back_translate_node llm g cache) segments order !! k)
  ↔ is_Some (segments !! k)
    ∨ (is_Some (cache !! k)
       ∧ ∃ x, x ∈ order ∧ k = _normalize_node_name (node_name g x)).
Proof.
  revert segments. induction order as [|node order IH]; intros segments.
  { cbn [foldl]. split; [by left|]. intros [?|(_ & x & ?%elem_of_nil & _)]; done. }
  cbn [foldl]. rewrite IH, back_translate_node_lookup. split.
  - intros [[?|[? ->]]|(? & x & ? & ->)]; [by left|right|right].
    + split; [done|]. exists node. split; [apply elem_of_cons; by left|done].
    + split; [done|]. exists x. split; [apply elem_of_cons; by right|done].
  - intros [?|(? & x & [->|?]%elem_of_cons & ->)].
    + by left; left.
    + left. by right.
    + right. split; [done|]. by exists x.
Qed.

(** X22: the alignment stage restates exactly the nodes of the build order
    whose normalized name is a key of the run cache.  When there is none
    it answers the rejection "No segments to merge" at once: no judgment
    is asked for and the knowledge base is left alone. *)
Theorem alignment_restates_cached_nodes llm loads room w original cache g
    image kb order :
  get_build_order room g = Some order →
  (∀ k, is_Some (foldl (back_translate_node llm g cache) ∅ order !! k)
        ↔ is_Some (cache !! k)
          ∧ ∃ x, x ∈ order ∧ k = _normalize_node_name (node_name g x))
  ∧ ((∀ x, x ∈ order → cache !! _normalize_node_name (node_name g x) = None) →
     alignment_run llm loads room w original cache g image kb
     = mkAlign (Aligned false no_segments_report) kb false).
Proof.
  intros Hord.
  assert (∀ k, is_Some (foldl (back_translate_node llm g cache) ∅ order !! k)
               ↔ is_Some (cache !! k)
                 ∧ ∃ x, x ∈ order ∧ k = _normalize_node_name (node_name g x))
    as Hseg.
  { intros k. rewrite back_translated_segments, lookup_empty.
    split; [intros [[? [=]]|?]; done|by right]. }
  split; [exact Hseg|].
  intros Hnone. unfold alignment_run. rewrite Hord.
  rewrite bool_decide_eq_true_2; [done|].
  apply map_empty. intros k. apply eq_None_not_Some. rewrite Hseg.
  intros (Hk & x & Hx & ->). rewrite (Hnone x Hx) in Hk. by destruct Hk.
Qed.

Lemma alignment_restates_cached_nodes_witness :
  alignment_run (sample_llm expand_shared "level_1" "level_1") sample_loads
    1000 Written "s" {[ "unrelated" := "def u := 0" ]}
    (planned expand_shared "s") None FileMissing
  = mkAlign (Aligned false no_segments_report) FileMissing false.
Proof.
  apply (proj2 (alignment_restates_cached_nodes
                  (sample_llm expand_shared "level_1" "level_1") sample_loads
                  1000 Written "s" {[ "unrelated" := "def u := 0" ]}
                  (planned expand_shared "s") None FileMissing [3; 1; 2; 0]
                  ltac:(vm_compute; reflexivity))).
  intros x Hx.
  repeat (apply elem_of_cons in Hx as [->|Hx]; [vm_compute; reflexivity|]).
  destruct (not_elem_of_nil _ Hx).
Defined.

(** ** What a grounded node carries *)

Lemma all_nodes_link (Q : ConceptNode → Prop) chk current st nm :
  (∀ d n, Q n → Q (append_dependency d n)) →
  (∀ i nm par, Q (ConceptNode_init i nm par)) →
  all_nodes Q (graph st) →
  all_nodes Q (graph (link_dependency chk current st nm)).
Proof.
  intros Happ Hinit Hall.
  destruct (link_dependency_cases chk current st nm)
    as [->|[(existing & _ & _ & _ & ->)|(_ & -> & _)]]; [done| |].
  - intros i n' Hi. cbn [graph set_nodes nodes] in Hi.
    apply alter_lookup_inv in Hi as (n & Hn & ->).
    case_decide; [apply Happ|]; by eapply Hall.
  - intros i n' Hi.
    apply add_node_lookup_inv in Hi as [(_ & n & Hn & ->)|(_ & ->)];
      [|apply Hinit].
    case_decide; [apply Happ|]; by eapply Hall.
Qed.

Lemma all_nodes_links (Q : ConceptNode → Prop) chk current names st :
  (∀ d n, Q n → Q (append_dependency d n)) →
  (∀ i nm par, Q (ConceptNode_init i nm par)) →
  all_nodes Q (graph st) →
  all_nodes Q (graph (foldl (link_dependency chk current) st names)).
Proof.
  intros Happ Hinit. revert st.
  induction names as [|nm names IH]; intros st Hall; cbn [foldl]; [done|].
  apply IH. by apply all_nodes_link.
Qed.

Lemma all_nodes_update (Q : ConceptNode → Prop) f i st :
  (∀ n, nodes (graph st) !! i = Some n → Q (f n)) →
  all_nodes Q (graph st) → all_nodes Q (graph (update_node f i st)).
Proof.
  intros Hf Hall j n' Hj. cbn [update_node graph set_nodes nodes] in Hj.
  apply alter_lookup_inv in Hj as (n & Hn & ->).
  case_decide as Hij; [subst j; by apply Hf|by eapply Hall].
Qed.

Lemma grounding_recorded_process p image st current :
  all_nodes (grounding_recorded p image) (graph st) →
  all_nodes (grounding_recorded p image)
            (graph (process_node p image st current)).
Proof.
  intros Hall. unfold process_node, node_name.
  case_bool_decide as Hkb.
  { apply all_nodes_update; [|done]. intros n Hn _. left.
    rewrite Hn in Hkb. by split. }
  destruct (nonempty (final_definitions p _ image)) eqn:Hdefs.
  { apply all_nodes_update; [|done]. intros n Hn _. right.
    rewrite Hn in Hkb, Hdefs |- *. cbn [from_option] in *.
    cbn [name set_grounded_definition set_status grounded_definition].
    split; [by apply eq_None_not_Some|]. split; [done|].
    by destruct (final_definitions p (name n) image). }
  apply all_nodes_links; [done|done|].
  apply all_nodes_update; [|done]. by intros n Hn.
Qed.

Lemma grounding_recorded_run p fuel statement image g :
  planner_run p fuel statement image = Some g →
  all_nodes (grounding_recorded p image) g.
Proof.
  unfold planner_run.
  assert (all_nodes (grounding_recorded p image)
            (graph (planner_start p statement image))) as Hstart.
  { unfold planner_start. apply all_nodes_links; [done|done|].
    apply all_nodes_update; [by intros n Hn|].
    intros [|i] n; cbn; [|done]. by intros [= <-]. }
  revert Hstart. generalize (planner_start p statement image).
  induction fuel as [|fuel IH]; intros st Hall; cbn [run_queue].
  - destruct (queue st); [|done]. by intros [= <-].
  - destruct (queue st) as [|current rest]; [by intros [= <-]|].
    apply IH. by apply grounding_recorded_process.
Qed.

Lemma final_definitions_spec p nm image :
  NoDup (final_definitions p nm image)
  ∧ ∀ d, d ∈ final_definitions p nm image
         ↔ (is_found (run_grounding_reasoner (planner_llm p) nm
                        (lean_search p nm) None) = true
            ∧ d ∈ definitions (run_grounding_reasoner (planner_llm p) nm
                                 (lean_search p nm) None))
           ∨ ∃ img,
               image = Some img
               ∧ is_found (run_grounding_reasoner (planner_llm p) nm
                             (lean_search p nm) (Some img)) = true
               ∧ d ∈ definitions (run_grounding_reasoner (planner_llm p) nm
                                    (lean_search p nm) (Some img)).
Proof.
  unfold final_definitions. split; [apply NoDup_remove_dups|].
  intros d. rewrite elem_of_remove_dups, elem_of_app.
  assert (∀ r : GroundingResult,
            d ∈ (if is_found r && nonempty (definitions r)
                 then definitions r else [])
            ↔ is_found r = true ∧ d ∈ definitions r) as Hchannel.
  { intros r. destruct (is_found r); cbn [andb].
    - destruct (definitions r); cbn [nonempty]; [|tauto].
      rewrite elem_of_nil. tauto.
    - rewrite elem_of_nil. split; [done|]. by intros [[=] _]. }
  rewrite Hchannel. destruct image as [img|].
  - rewrite Hchannel. split.
    + intros [?|?]; [by left|right]. by exists img.
    + intros [?|(img' & [= <-] & ?)]; [by left|by right].
  - rewrite elem_of_nil. split; [intros [?|[]]; by left|].
    intros [?|(img' & [=] & _)]. by left.
Qed.

(** X23: what a grounded node carries when the decomposition returns.
    Either the knowledge base of the planner holds the name and the node
    carries the marker [["VerifiedKB"]], or it carries the identifiers
    that the grounding reasoner found for the name of the node: at least
    one, none twice, each answered by the text channel or, when an image
    is given, by the vision channel, with [is_found] set. *)
Theorem grounded_nodes_carry_the_found_identifiers p fuel statement image g :
  planner_run p fuel statement image = Some g →
  ∀ i n, nodes g !! i = Some n → status n = GROUNDED →
    (is_Some (planner_verified_kb p !! lower_strip (name n))
     ∧ grounded_definition n = DefList ["VerifiedKB"])
    ∨ ∃ defs,
        grounded_definition n = DefList defs ∧ defs ≠ [] ∧ NoDup defs
        ∧ ∀ d, d ∈ defs
               ↔ (is_found (run_grounding_reasoner (planner_llm p) (name n)
                              (lean_search p (name n)) None) = true
                  ∧ d ∈ definitions
                          (run_grounding_reasoner (planner_llm p) (name n)
                             (lean_search p (name n)) None))
                 ∨ ∃ img,
                     image = Some img
                     ∧ is_found (run_grounding_reasoner (planner_llm p)
                                   (name n) (lean_search p (name n))
                                   (Some img)) = true
                     ∧ d ∈ definitions
                             (run_grounding_reasoner (planner_llm p) (name n)
                                (lean_search p (name n)) (Some img)).
Proof.
  intros Hrun i n Hn Hst.
  destruct (grounding_recorded_run _ _ _ _ _ Hrun i n Hn Hst)
    as [?|(_ & Hdefs & Hne)]; [by left|right].
  exists (final_definitions p (name n) image).
  destruct (final_definitions_spec p (name n) image) as [Hnd Hiff].
  done.
Qed.

Lemma grounded_nodes_carry_the_found_identifiers_witness :
  let n := mkNode 3 "z" GROUNDED [] (Some 1) (DefList ["Nat.add"]) in
  (is_Some (planner_verified_kb grounding_planner !! lower_strip (name n))
   ∧ grounded_definition n = DefList ["VerifiedKB"])
  ∨ ∃ defs,
      grounded_definition n = DefList defs ∧ defs ≠ [] ∧ NoDup defs
      ∧ ∀ d, d ∈ defs
             ↔ (is_found (run_grounding_reasoner (planner_llm grounding_planner)
                            (name n) (lean_search grounding_planner (name n))
                            None) = true
                ∧ d ∈ definitions
                        (run_grounding_reasoner (planner_llm grounding_planner)
                           (name n) (lean_search grounding_planner (name n))
                           None))
               ∨ ∃ img,
                   None = Some img
                   ∧ is_found (run_grounding_reasoner
                                 (planner_llm grounding_planner) (name n)
                                 (lean_search grounding_planner (name n))
                                 (Some img)) = true
                   ∧ d ∈ definitions
                           (run_grounding_reasoner
                              (planner_llm grounding_planner) (name n)
                              (lean_search grounding_planner (name n))
                              (Some img)).
Proof.
  cbv zeta.
  refine (grounded_nodes_carry_the_found_identifiers grounding_planner 10 "s"
            None grounded_plan _ 3
            (mkNode 3 "z" GROUNDED [] (Some 1) (DefList ["Nat.add"])) _ _).
  - vm_compute. reflexivity.
  - vm_compute. reflexivity.
  - reflexivity.
Defined.

(** ** The context of a worker comes from the transitive dependencies *)

Lemma collect_dfs_origin self arena cache grounded fuel n st st' :
  collect_dfs self arena cache grounded fuel n st = Some st' →
  (∀ dn, dn ∈ col_order st' →
     dn ∈ col_order st
     ∨ (is_Some (cache !! dn)
        ∧ ∃ d, depends_on arena n d
               ∧ dn = _normalize_node_name
                        (from_option name EmptyString (arena !! d)))).
Proof.
  revert n st st'.
  induction fuel as [|fuel IH]; intros n st st'; [done|].
  cbn [collect_dfs].
  assert (∀ d, d ∈ from_option dependencies [] (arena !! n) →
               ∃ nx, arena !! n = Some nx ∧ d ∈ dependencies nx) as Hdeps.
  { intros d Hd. destruct (arena !! n) as [nx|]; [by exists nx|].
    by apply elem_of_nil in Hd. }
  revert Hdeps. generalize (from_option dependencies [] (arena !! n)).
  intros deps. revert st.
  induction deps as [|d deps IHd]; intros st Hdeps Hrun dn Hdn.
  { injection Hrun as <-. by left. }
  cbn [foldl] in Hrun. cbn [mbind option_bind] in Hrun.
  set (dn0 := _normalize_node_name (from_option name EmptyString (arena !! d)))
    in *.
  assert (∀ d', d' ∈ deps →
                ∃ nx, arena !! n = Some nx ∧ d' ∈ dependencies nx) as Hdeps'.
  { intros d' Hd'. apply Hdeps. apply elem_of_cons. by right. }
  destruct (bool_decide (dn0 ∈ col_seen st)); [by eapply IHd|].
  destruct (collect_dfs self arena cache grounded fuel d _) as [st1|] eqn:Hrec.
  2: { cbn [mbind option_bind] in Hrun. exfalso. clear -Hrun.
       induction deps as [|d' deps IHd']; [done|]. by apply IHd'. }
  cbn [mbind option_bind] in Hrun.
  destruct (Hdeps d) as (nx & Hnx & Hd); [apply elem_of_cons; by left|].
  destruct (IHd _ Hdeps' Hrun dn Hdn) as [Hin|?]; [|by right].
  assert (dn ∈ col_order st1 ∨ (dn = dn0 ∧ is_Some (cache !! dn0)))
    as [Hin1|[-> Hc]].
  { revert Hin. unfold classify_dependency.
    destruct (bool_decide (is_Some (cache !! dn0))) eqn:Hc.
    - apply bool_decide_eq_true in Hc. cbn [col_order].
      intros [?| ->%list_elem_of_singleton]%elem_of_app; [by left|by right].
    - destruct (bool_decide (dn0 ∈ grounded)); [by left|].
      destruct (bool_decide (is_Some (verified_kb self !! dn0))); by left. }
  - destruct (IH _ _ _ Hrec dn Hin1) as [?|(? & e & He & ?)]; [by left|].
    right. split; [done|]. exists e. split; [|done]. by eapply depends_trans.
  - right. split; [done|]. exists d. split; [by eapply depends_direct|done].
Qed.

Lemma grounded_dfs_origin arena cache grounded fuel n st st' :
  grounded_dfs arena cache grounded fuel n st = Some st' →
  ∀ nm, nm ∈ st'.1 →
    nm ∈ st.1
    ∨ (nm ∈ grounded ∧ cache !! nm = None
       ∧ ∃ d, depends_on arena n d
              ∧ nm = _normalize_node_name
                       (from_option name EmptyString (arena !! d))).
Proof.
  revert n st st'.
  induction fuel as [|fuel IH]; intros n st st'; [done|].
  cbn [grounded_dfs].
  assert (∀ d, d ∈ from_option dependencies [] (arena !! n) →
               ∃ nx, arena !! n = Some nx ∧ d ∈ dependencies nx) as Hdeps.
  { intros d Hd. destruct (arena !! n) as [nx|]; [by exists nx|].
    by apply elem_of_nil in Hd. }
  revert Hdeps. generalize (from_option dependencies [] (arena !! n)).
  intros deps. revert st.
  induction deps as [|d deps IHd]; intros st Hdeps Hrun nm Hnm.
  { injection Hrun as <-. by left. }
  cbn [foldl] in Hrun. cbn [mbind option_bind] in Hrun.
  set (dn0 := _normalize_node_name (from_option name EmptyString (arena !! d)))
    in *.
  assert (∀ d', d' ∈ deps →
                ∃ nx, arena !! n = Some nx ∧ d' ∈ dependencies nx) as Hdeps'.
  { intros d' Hd'. apply Hdeps. apply elem_of_cons. by right. }
  destruct (bool_decide (dn0 ∈ st.2)); [by eapply IHd|].
  destruct (grounded_dfs arena cache grounded fuel d _) as [st1|] eqn:Hrec.
  2: { cbn [mbind option_bind] in Hrun. exfalso. clear -Hrun.
       induction deps as [|d' deps IHd']; [done|]. by apply IHd'. }
  cbn [mbind option_bind] in Hrun.
  destruct (Hdeps d) as (nx & Hnx & Hd); [apply elem_of_cons; by left|].
  assert (∀ nm, nm ∈ st1.1 →
            nm ∈ st.1
            ∨ (nm ∈ grounded ∧ cache !! nm = None
               ∧ ∃ e, depends_on arena n e
                      ∧ nm = _normalize_node_name
                               (from_option name EmptyString (arena !! e))))
    as Hst1.
  { intros nm' Hnm'.
    destruct (IH _ _ _ Hrec nm' Hnm') as [?|(? & ? & e & He & ?)]; [by left|].
    right. split; [done|]. split; [done|]. exists e.
    split; [|done]. by eapply depends_trans. }
  destruct (bool_decide (dn0 ∈ grounded)) eqn:Hg;
    [destruct (bool_decide (is_Some (cache !! dn0))) eqn:Hc|];
    cbn [andb negb] in Hrun.
  - destruct (IHd _ Hdeps' Hrun nm Hnm) as [Hin|?]; [by apply Hst1|by right].
  - destruct (IHd _ Hdeps' Hrun nm Hnm) as [Hin|?]; [|by right].
    cbn [fst] in Hin.
    apply elem_of_app in Hin as [?| ->%list_elem_of_singleton];
      [by apply Hst1|].
    apply bool_decide_eq_true in Hg. apply bool_decide_eq_false in Hc.
    right. split; [done|]. split; [by apply eq_None_not_Some|].
    exists d. split; [by eapply depends_direct|done].
  - destruct (IHd _ Hdeps' Hrun nm Hnm) as [Hin|?]; [by apply Hst1|by right].
Qed.

(** X24: the context that a worker is given comes from the transitive
    dependencies of its node.  Each dependency chunk is the code, not
    empty and with a declaration keyword, that the run cache holds for a
    transitive dependency, under a header naming it; the grounded names
    are listed once each, are grounded, have no code in the cache, and
    name transitive dependencies; a name is reported missing only for a
    transitive dependency without code that is not grounded. *)
Theorem worker_context_from_transitive_dependencies self g node cache grounded
    chunks missing names :
  _collect_transitive_synthesized_code self g node cache grounded
  = Some (chunks, missing) →
  _collect_transitive_grounded g node cache grounded = Some names →
  (∀ chunk, chunk ∈ chunks →
     ∃ d code,
       depends_on (nodes g) node d
       ∧ cache !! _normalize_node_name (node_name g d) = Some code
       ∧ is_empty code = false ∧ code_like code = true
       ∧ chunk = "-- [Dep] " +:+ _normalize_node_name (node_name g d)
                 +:+ NL +:+ code)
  ∧ NoDup names
  ∧ (∀ nm, nm ∈ names →
       nm ∈ grounded ∧ cache !! nm = None
       ∧ ∃ d, depends_on (nodes g) node d
              ∧ nm = _normalize_node_name (node_name g d))
  ∧ (∀ nm, nm ∈ missing →
       (nm ∉ grounded) ∧ cache !! nm = None
       ∧ ∃ d, depends_on (nodes g) node d
              ∧ nm = _normalize_node_name (node_name g d)).
Proof.
  unfold _collect_transitive_synthesized_code, _collect_transitive_grounded.
  destruct (collect_dfs _ _ _ _ _ _ _) as [cs|] eqn:Hc; [|done].
  destruct (grounded_dfs _ _ _ _ _ _) as [gs|] eqn:Hg; [|done].
  cbn [mbind option_bind]. intros [= <- <-] [= <-].
  split; [|split; [|split]].
  - intros chunk (dn & Hdn & Hchunk)%list_elem_of_omap.
    destruct (collect_dfs_origin _ _ _ _ _ _ _ _ Hc dn Hdn)
      as [[]%elem_of_nil|([code Hcode] & d & Hd & ->)].
    rewrite Hcode in Hchunk.
    change (default EmptyString (Some code)) with code in Hchunk.
    destruct (negb (is_empty code) && code_like code) eqn:Hok; [|done].
    injection Hchunk as <-. apply andb_true_iff in Hok as [Hne Hlike].
    exists d, code. split; [done|]. split; [done|].
    split; [by apply negb_true_iff|done].
  - apply dedup_from_spec.
  - intros nm Hnm. apply dedup_from_spec in Hnm as [Hnm _].
    by destruct (grounded_dfs_origin _ _ _ _ _ _ _ Hg nm Hnm)
      as [[]%elem_of_nil|?].
  - intros nm Hnm%elem_of_elements.
    destruct (collect_dfs_missing _ _ _ _ _ _ _ _ Hc nm Hnm)
      as [Hin|(d & ? & ? & ? & ?)]; [set_solver|].
    split; [done|]. split; [done|]. by exists d.
Qed.

Lemma worker_context_from_transitive_dependencies_witness :
  let g := planned expand_shared "s" in
  let cache : gmap string string := {[ "z" := "def z := 0" ]} in
  ∃ d code,
    depends_on (nodes g) 1 d
    ∧ cache !! _normalize_node_name (node_name g d) = Some code
    ∧ is_empty code = false ∧ code_like code = true
    ∧ "-- [Dep] z" +:+ NL +:+ "def z := 0"
      = "-- [Dep] " +:+ _normalize_node_name (node_name g d) +:+ NL +:+ code.
Proof.
  cbv zeta.
  refine (proj1 (worker_context_from_transitive_dependencies
                   (GoTSynthesizer_init
                      (sample_env expand_shared "level_1" "level_1" true))
                   (planned expand_shared "s") 1 {[ "z" := "def z := 0" ]} ∅
                   _ [] [] _ _) _ _).
  - vm_compute. reflexivity.
  - vm_compute. reflexivity.
  - apply list_elem_of_singleton. reflexivity.
Defined.

(** ** The retries of the web search *)

Lemma search_attempts_success c nm remaining attempt k results :
  (attempt ≤ k)%nat → (k < attempt + remaining)%nat → (k ≤ max_retries c)%nat →
  (∀ j, (attempt ≤ j)%nat → (j < k)%nat → search_attempt c nm j = None) →
  search_attempt c nm k = Some results →
  search_attempts c nm remaining attempt
  = (results, failed_attempts attempt (k - attempt) ++ [Request k]).
Proof.
  revert attempt. induction remaining as [|remaining IH]; intros attempt;
    [lia|].
  intros Hle Hlt Hmax Hfail Hok. cbn [search_attempts].
  destruct (decide (attempt = k)) as [->|Hne].
  - rewrite Hok, Nat.sub_diag. done.
  - rewrite Hfail by lia.
    rewrite (IH (S attempt)); [|lia|lia|done|intros j ??; apply Hfail; lia|done].
    cbn [fst snd]. f_equal.
    assert ((attempt <? max_retries c)%nat = true) as -> by (apply Nat.ltb_lt; lia).
    replace (k - attempt) with (S (k - S attempt)) by lia.
    done.
Qed.

Lemma search_attempts_failure c nm remaining attempt :
  (attempt + remaining = max_retries c)%nat →
  (∀ j, (attempt ≤ j)%nat → (j ≤ max_retries c)%nat →
        search_attempt c nm j = None) →
  search_attempts c nm (S remaining) attempt
  = ([], failed_attempts attempt remaining ++ [Request (max_retries c)]).
Proof.
  revert attempt. induction remaining as [|remaining IH]; intros attempt Hsum
    Hfail.
  - cbn [search_attempts]. rewrite Hfail by lia. cbn [fst snd].
    assert ((attempt <? max_retries c)%nat = false) as ->
      by (apply Nat.ltb_ge; lia).
    assert (attempt = max_retries c) as -> by lia. done.
  - change (search_attempts c nm (S (S remaining)) attempt)
      with (match search_attempt c nm attempt with
            | Some results => (results, [Request attempt])
            | None =>
                let rest := search_attempts c nm (S remaining) (S attempt) in
                (rest.1,
                 Request attempt
                 :: (if (attempt <? max_retries c)%nat then [Sleep] else [])
                 ++ rest.2)
            end).
    rewrite Hfail by lia. rewrite (IH (S attempt)); [|lia|].
    2: { intros j ??. apply Hfail; lia. }
    cbn [fst snd]. f_equal.
    assert ((attempt <? max_retries c)%nat = true) as -> by (apply Nat.ltb_lt; lia).
    done.
Qed.

(** X25: the web search retries a bounded number of times and never
    raises.  If attempt [k] (at most [max_retries]) is the first whose
    request and parse both succeed, the search answers its results after
    [k] failed requests, each followed by one pause; if all
    [max_retries + 1] attempts fail it answers the empty list, having
    paused [max_retries] times, not after the last failure. *)
Theorem search_web_retries c nm :
  (∀ k results,
     (k ≤ max_retries c)%nat →
     (∀ j, (j < k)%nat → search_attempt c nm j = None) →
     search_attempt c nm k = Some results →
     _search_web c nm = (results, failed_attempts 0 k ++ [Request k]))
  ∧ ((∀ j, (j ≤ max_retries c)%nat → search_attempt c nm j = None) →
     _search_web c nm
     = ([], failed_attempts 0 (max_retries c) ++ [Request (max_retries c)])).
Proof.
  unfold _search_web. split.
  - intros k results Hk Hfail Hok.
    rewrite (search_attempts_success c nm _ 0 k results); try done; try lia.
    + by rewrite Nat.sub_0_r.
    + intros j _ Hj. by apply Hfail.
  - intros Hfail. apply search_attempts_failure; [done|].
    intros j _ Hj. by apply Hfail.
Qed.

Lemma search_web_retries_witness :
  _search_web sample_search_client "z"
  = ([mkSearchResult "Nat.add" None],
     [Request 0; Sleep; Request 1; Sleep; Request 2]).
Proof.
  apply (proj1 (search_web_retries sample_search_client "z") 2
           [mkSearchResult "Nat.add" None]).
  - vm_compute. lia.
  - intros [|[|j]] Hj; [reflexivity|reflexivity|lia].
  - reflexivity.
Defined.
